(** * EnsoAI: worktree registry, blob lookup and merge handlers

  A shallow embedding of
  - [src/main/services/git/WorktreeService.ts] (porcelain parser, remove),
  - the [git show] helpers ([decodeBuffer], [gitShowBuffer], [gitShow]),
  - the merge, removal and repository handlers of [src/renderer/App.tsx],
  - the editor store and the [useEditor] hook,
  and, modelled from the specification, the merge engine of the main
  process that the merge handlers call. *)

From Stdlib Require Import String Ascii List Bool Arith Lia ZArith.
From Stdlib Require Strings.Byte.
From Stdlib Require Import Permutation.
Import ListNotations.
Open Scope string_scope.
Open Scope list_scope.

(** ** JavaScript string primitives used by the sources *)

Module Js.

(** Truthiness of a string value that may be [undefined]/[null]. *)
Definition truthy (o : option string) : bool :=
  match o with
  | Some s => negb (s =? "")
  | None => false
  end.

(** Truthiness of an optional boolean ([undefined] is falsy). *)
Definition truthyb (o : option bool) : bool :=
  match o with
  | Some b => b
  | None => false
  end.

(** [s.startsWith(p)] *)
Definition startsWith (p s : string) : bool := String.prefix p s.

(** [s.substring(n)]: the text from index [n] to the end. *)
Fixpoint substring_from (n : nat) (s : string) : string :=
  match n, s with
  | O, _ => s
  | S n', String _ s' => substring_from n' s'
  | S _, EmptyString => EmptyString
  end.

Definition newline : ascii := "010"%char.

(** [s.split(sep)] for a one-character separator; never returns []. *)
Fixpoint split (sep : ascii) (s : string) : list string :=
  match s with
  | EmptyString => [EmptyString]
  | String c s' =>
      if Ascii.eqb c sep then EmptyString :: split sep s'
      else match split sep s' with
           | l :: ls => String c l :: ls
           | [] => [String c EmptyString]
           end
  end.

(** [s.replace(pat, rep)] with a string pattern: only the first
    occurrence of [pat], wherever it starts, is replaced. *)
Fixpoint replace (pat rep s : string) : string :=
  if String.prefix pat s then rep ++ substring_from (String.length pat) s
  else match s with
       | EmptyString => EmptyString
       | String c s' => String c (replace pat rep s')
       end.

(** [xs.join(sep)] *)
Definition join (sep : string) (xs : list string) : string :=
  String.concat sep xs.

(** [a || b] on optional strings. *)
Definition or_else (o : option string) (d : string) : string :=
  if truthy o then match o with Some s => s | None => d end else d.

End Js.

(** ** Asynchronous calls: a state monad whose results may be rejections *)

Module Async.

Inductive Outcome (A : Type) : Type :=
| Returned (a : A)
| Threw (err : string).
Arguments Returned {A} a.
Arguments Threw {A} err.

Definition M (S A : Type) : Type := S -> Outcome A * S.

Definition ret {S A} (a : A) : M S A := fun s => (Returned a, s).

(** [await m] followed by the rest of the function: a rejection of [m]
    leaves the rest unexecuted and rejects the whole call. *)
Definition bind {S A B} (m : M S A) (k : A -> M S B) : M S B :=
  fun s =>
    match m s with
    | (Returned a, s') => k a s'
    | (Threw e, s') => (Threw e, s')
    end.

Definition get {S} : M S S := fun s => (Returned s, s).

Definition modify {S} (f : S -> S) : M S unit := fun s => (Returned tt, f s).

End Async.

Declare Scope async_scope.
Delimit Scope async_scope with async.
Notation "x <- m ;; k" := (Async.bind m (fun x => k))
  (at level 61, m at next level, right associativity) : async_scope.
Notation "m ;;; k" := (Async.bind m (fun _ => k))
  (at level 61, right associativity) : async_scope.

(** ** The Git command runner *)

Module Git.
Import Async.

Section Runner.
(** The repository and file system the [git] process acts on. *)
Variable World : Type.

(** One [git] invocation: the arguments, then either the error the
    promise rejects with or the text written to stdout. *)
Variable exec : list string -> World -> (string + string) * World.

(** State of a service call: the world and the invocations made so far,
    oldest first. *)
Definition St : Type := (World * list (list string))%type.

(** [await this.git.raw(args)] *)
Definition raw (args : list string) : M St string :=
  fun '(w, log) =>
    match exec args w with
    | (inr out, w') => (Returned out, (w', log ++ [args]))
    | (inl err, w') => (Threw err, (w', log ++ [args]))
    end.

End Runner.

Arguments raw {World} exec args _.

End Git.

(** ** Worktree registry: [WorktreeService] *)

Module WorktreeService.
Import Js Async.

(** [Partial<GitWorktree>]: every field may still be [undefined]. *)
Record GitWorktree : Type := mkWorktree {
  path : option string;
  head : option string;
  branch : option string;
  isMainWorktree : option bool;
  isLocked : option bool;
  prunable : option bool
}.

(** [{}] *)
Definition empty : GitWorktree := mkWorktree None None None None None None.

(** The object literal assigned to [current] on a [worktree ] line. *)
Definition fresh (p : string) : GitWorktree :=
  mkWorktree (Some p) None None (Some false) (Some false) (Some false).

Definition set_head (v : string) (c : GitWorktree) : GitWorktree :=
  mkWorktree (path c) (Some v) (branch c) (isMainWorktree c) (isLocked c) (prunable c).

Definition set_branch (v : string) (c : GitWorktree) : GitWorktree :=
  mkWorktree (path c) (head c) (Some v) (isMainWorktree c) (isLocked c) (prunable c).

Definition set_main (c : GitWorktree) : GitWorktree :=
  mkWorktree (path c) (head c) (branch c) (Some true) (isLocked c) (prunable c).

Definition set_locked (c : GitWorktree) : GitWorktree :=
  mkWorktree (path c) (head c) (branch c) (isMainWorktree c) (Some true) (prunable c).

Definition set_prunable (c : GitWorktree) : GitWorktree :=
  mkWorktree (path c) (head c) (branch c) (isMainWorktree c) (isLocked c) (Some true).

(** [if (current.path) worktrees.push(current)] *)
Definition push_current (worktrees : list GitWorktree) (current : GitWorktree)
  : list GitWorktree :=
  if truthy (path current) then worktrees ++ [current] else worktrees.

(** The text stored for a [branch ] line:
    [line.substring(7).replace('refs/heads/', '')]. *)
Definition branch_of_line (line : string) : string :=
  replace "refs/heads/" "" (substring_from 7 line).

(** One iteration of the [for (const line of ...)] loop. *)
Definition step (st : list GitWorktree * GitWorktree) (line : string)
  : list GitWorktree * GitWorktree :=
  let '(worktrees, current) := st in
  if startsWith "worktree " line then
    (push_current worktrees current, fresh (substring_from 9 line))
  else if startsWith "HEAD " line then
    (worktrees, set_head (substring_from 5 line) current)
  else if startsWith "branch " line then
    (worktrees, set_branch (branch_of_line line) current)
  else if line =? "bare" then (worktrees, set_main current)
  else if line =? "locked" then (worktrees, set_locked current)
  else if line =? "prunable" then (worktrees, set_prunable current)
  else (worktrees, current).

Definition loop (lines : list string) (st : list GitWorktree * GitWorktree)
  : list GitWorktree * GitWorktree :=
  fold_left step lines st.

(** [if (worktrees.length > 0) worktrees[0].isMainWorktree = true] *)
Definition mark_first (worktrees : list GitWorktree) : list GitWorktree :=
  match worktrees with
  | [] => []
  | w :: ws => set_main w :: ws
  end.

(** What follows the loop: the last push and the mark on entry 0. *)
Definition finish (st : list GitWorktree * GitWorktree) : list GitWorktree :=
  mark_first (push_current (fst st) (snd st)).

Definition parse_lines (lines : list string) : list GitWorktree :=
  finish (loop lines ([], empty)).

(** The body of [list()] once [git worktree list --porcelain] returned. *)
Definition parse (result : string) : list GitWorktree :=
  parse_lines (split newline result).

Definition list_args : list string := ["worktree"; "list"; "--porcelain"].

(** [WorktreeRemoveOptions] *)
Record WorktreeRemoveOptions : Type := mkRemove {
  rm_path : string;
  rm_force : option bool;
  rm_deleteBranch : option bool;
  rm_branch : option string
}.

Definition remove_args (options : WorktreeRemoveOptions) : list string :=
  ["worktree"; "remove"]
    ++ (if truthyb (rm_force options) then ["--force"] else [])
    ++ [rm_path options].

Definition branch_delete_args (b : string) : list string := ["branch"; "-D"; b].

(** [options.deleteBranch && options.branch] *)
Definition wants_branch_delete (options : WorktreeRemoveOptions) : bool :=
  truthyb (rm_deleteBranch options) && truthy (rm_branch options).

Section Service.
Variable World : Type.
Variable exec : list string -> World -> (string + string) * World.

Local Open Scope async_scope.

(** [async list()]; the method is called [list] in the source. *)
Definition list_ : M (Git.St World) (list GitWorktree) :=
  result <- Git.raw exec list_args ;;
  ret (parse result).

(** [async remove(options)] *)
Definition remove (options : WorktreeRemoveOptions) : M (Git.St World) unit :=
  Git.raw exec (remove_args options) ;;;
  if wants_branch_delete options then
    Git.raw exec (branch_delete_args (or_else (rm_branch options) "")) ;;;
    ret tt
  else ret tt.

(** [async prune()] *)
Definition prune : M (Git.St World) unit :=
  Git.raw exec ["worktree"; "prune"] ;;; ret tt.

End Service.

Arguments list_ {World} exec _.
Arguments remove {World} exec options _.
Arguments prune {World} exec _.

(** [isMainWorktree] read as a condition. *)
Definition is_main (w : GitWorktree) : bool := truthyb (isMainWorktree w).

(** The array [list()] would return, before the mark on entry 0, if the
    input ended here. *)
Definition emitted (st : list GitWorktree * GitWorktree) : list GitWorktree :=
  push_current (fst st) (snd st).

Definition nonmain (w : GitWorktree) : Prop := isMainWorktree w = Some false.

(** A line that opens a record which will be emitted. *)
Definition is_record_line (line : string) : bool :=
  startsWith "worktree " line && negb (substring_from 9 line =? "").

End WorktreeService.

(** ** Blob lookup through [git show]: [decodeBuffer], [gitShowBuffer], [gitShow] *)

Module GitShow.
Import Js Async.

Definition Buffer : Type := list Byte.byte.

(** [Buffer.alloc(0)] *)
Definition alloc0 : Buffer := [].

(** [Buffer.concat(chunks)] *)
Definition buffer_concat (chunks : list Buffer) : Buffer := List.concat chunks.

(** What the child process delivers to the three registered listeners. *)
Inductive ProcEvent : Type :=
| StdoutData (chunk : Buffer)
| Close (code : option Z)
| ProcError.

(** A promise is settled at most once; later calls of [resolve] are ignored. *)
Inductive Promise (A : Type) : Type :=
| Pending
| Resolved (v : A)
| Rejected (reason : string).
Arguments Pending {A}.
Arguments Resolved {A} v.
Arguments Rejected {A} reason.

Definition resolve {A} (v : A) (p : Promise A) : Promise A :=
  match p with
  | Pending => Resolved v
  | _ => p
  end.

(** [await p] followed by a continuation that may throw: an exception
    after the [await] rejects the promise of the [async] function. *)
Definition then_ {A B} (f : A -> Outcome B) (p : Promise A) : Promise B :=
  match p with
  | Pending => Pending
  | Resolved v =>
      match f v with
      | Returned b => Resolved b
      | Threw err => Rejected err
      end
  | Rejected r => Rejected r
  end.

(** The closure of the promise executor: [chunks] and the promise itself. *)
Record Executor : Type := mkExecutor {
  chunks : list Buffer;
  promise : Promise Buffer
}.

(** [code !== 0]; [code] is [null] when the process was killed. *)
Definition code_nonzero (code : option Z) : bool :=
  match code with
  | Some z => negb (z =? 0)%Z
  | None => true
  end.

Definition on_data (chunk : Buffer) (x : Executor) : Executor :=
  mkExecutor (chunks x ++ [chunk]) (promise x).

Definition on_close (code : option Z) (x : Executor) : Executor :=
  if code_nonzero code || Nat.eqb (List.length (chunks x)) 0 then
    mkExecutor (chunks x) (resolve alloc0 (promise x))
  else
    mkExecutor (chunks x) (resolve (buffer_concat (chunks x)) (promise x)).

Definition on_error (x : Executor) : Executor :=
  mkExecutor (chunks x) (resolve alloc0 (promise x)).

Definition dispatch (x : Executor) (ev : ProcEvent) : Executor :=
  match ev with
  | StdoutData chunk => on_data chunk x
  | Close code => on_close code x
  | ProcError => on_error x
  end.

(** The options object handed to [spawnGit]. *)
Record SpawnOptions : Type := mkSpawnOptions {
  cwd : string;
  windowsHide : bool
}.

(** What the call of [spawnGit] in the promise executor does: it returns a
    process, which emits [events] in that order, or it throws (as
    [child_process.spawn] does for an argument with a NUL byte). *)
Inductive Spawn : Type :=
| Spawned (events : list ProcEvent)
| SpawnThrew (reason : string).

Section Show.
(** [spawnGit] of [./runtime]. *)
Variable spawnGit : string -> list string -> SpawnOptions -> Spawn.
(** [jschardet.detect(buffer)?.encoding] *)
Variable detect : Buffer -> option string.
(** [iconv.decode(buffer, encoding)]: the text, or the exception thrown for
    an encoding the library does not know. *)
Variable iconv_decode : Buffer -> string -> Outcome string.

Definition decodeBuffer (buffer : Buffer) : Outcome string :=
  if Nat.eqb (List.length buffer) 0 then Returned ""
  else iconv_decode buffer (or_else (detect buffer) "utf-8").

(** An exception thrown in the executor rejects the promise; otherwise the
    three listeners see the events of the process. *)
Definition gitShowBuffer (workdir ref : string) : Promise Buffer :=
  match spawnGit workdir ["show"; ref] (mkSpawnOptions workdir true) with
  | SpawnThrew reason => Rejected reason
  | Spawned events =>
      promise (fold_left dispatch events (mkExecutor [] Pending))
  end.

Definition gitShow (workdir ref : string) : Promise string :=
  then_ decodeBuffer (gitShowBuffer workdir ref).

End Show.

(** The listener that settles the promise has fired. *)
Definition is_terminal (ev : ProcEvent) : bool :=
  match ev with
  | StdoutData _ => false
  | Close _ => true
  | ProcError => true
  end.

(** A terminal event that reports a failed command. *)
Definition is_failure (ev : ProcEvent) : bool :=
  match ev with
  | StdoutData _ => false
  | Close code => code_nonzero code
  | ProcError => true
  end.

(** The value the listeners hand to [resolve] when [t] is the first [close]
    or [error] event and [cs] are the chunks received before it. *)
Definition settled_with (cs : list Buffer) (t : ProcEvent) : Buffer :=
  if is_failure t || Nat.eqb (List.length cs) 0 then alloc0 else buffer_concat cs.

End GitShow.

(** ** Shared merge types ([@shared/types]) *)

Module Types.

Record Worktree : Type := mkWt {
  wt_path : string;
  wt_head : string;
  wt_branch : option string;
  wt_isMainWorktree : bool;
  wt_isLocked : bool;
  wt_prunable : bool
}.

Inductive MergeStrategy : Type := StrategyMerge | StrategySquash | StrategyRebase.

Record WorktreeMergeOptions : Type := mkMergeOptions {
  mo_worktreePath : string;
  mo_targetBranch : string;
  mo_strategy : MergeStrategy;
  mo_noFf : option bool;
  mo_message : option string;
  mo_deleteWorktreeAfterMerge : option bool;
  mo_deleteBranchAfterMerge : option bool;
  mo_autoStash : option bool
}.

Inductive ConflictType : Type := CtContent | CtBinary | CtRename | CtDelete.

Record MergeConflict : Type := mkConflict {
  mc_file : string;
  mc_type : ConflictType
}.

Inductive StashStatus : Type := StashNone | Stashed | StashApplied | StashConflict.

Definition is_stashed (o : option StashStatus) : bool :=
  match o with
  | Some Stashed => true
  | _ => false
  end.

Record WorktreeMergeResult : Type := mkMergeResult {
  mr_success : bool;
  mr_merged : bool;
  mr_conflicts : option (list MergeConflict);
  mr_commitHash : option string;
  mr_error : option string;
  mr_warnings : option (list string);
  mr_mainStashStatus : option StashStatus;
  mr_worktreeStashStatus : option StashStatus;
  mr_mainWorktreePath : option string;
  mr_worktreePath : option string
}.

Record WorktreeMergeCleanupOptions : Type := mkCleanup {
  co_worktreePath : option string;
  co_sourceBranch : option string;
  co_deleteWorktreeAfterMerge : option bool;
  co_deleteBranchAfterMerge : option bool
}.

End Types.

(** ** Merge handlers of the renderer: [App.tsx] *)

Module App.
Import Js Async Types.

(** What a handler does besides updating React state, oldest first. *)
Inductive Effect : Type :=
| IpcMerge (workdir : string) (options : WorktreeMergeOptions)
| IpcResolveConflict (workdir file content : string)
| IpcAbortMerge (workdir : string)
| IpcContinueMerge (workdir message : string)
    (cleanupOptions : option WorktreeMergeCleanupOptions)
| ToastAdd (type title description : string)
| Refetch
| RefetchBranches.

(** The React state the merge handlers read and write. *)
Record Ui : Type := mkUi {
  selectedRepo : option string;
  mergeDialogOpen : bool;
  mergeWorktree : option Worktree;
  mergeConflicts : option WorktreeMergeResult;
  pendingMergeOptions : option WorktreeMergeCleanupOptions;
  effects : list Effect
}.

Definition setMergeDialogOpen (v : bool) (u : Ui) : Ui :=
  mkUi (selectedRepo u) v (mergeWorktree u) (mergeConflicts u)
       (pendingMergeOptions u) (effects u).

Definition setMergeConflicts (v : option WorktreeMergeResult) (u : Ui) : Ui :=
  mkUi (selectedRepo u) (mergeDialogOpen u) (mergeWorktree u) v
       (pendingMergeOptions u) (effects u).

Definition setPendingMergeOptions (v : option WorktreeMergeCleanupOptions) (u : Ui) : Ui :=
  mkUi (selectedRepo u) (mergeDialogOpen u) (mergeWorktree u) (mergeConflicts u)
       v (effects u).

Definition emit (e : Effect) (u : Ui) : Ui :=
  mkUi (selectedRepo u) (mergeDialogOpen u) (mergeWorktree u) (mergeConflicts u)
       (pendingMergeOptions u) (effects u ++ [e]).

(** The merge engine of the main process, reached through the mutations
    [useWorktreeMerge], [useWorktreeResolveConflict], [useWorktreeMergeAbort]
    and [useWorktreeMergeContinue]; [Main] is everything behind the bridge. *)
Record MergeApi (Main : Type) : Type := mkApi {
  api_merge : string -> WorktreeMergeOptions -> Main -> Outcome WorktreeMergeResult * Main;
  api_resolveConflict : string -> string -> string -> Main -> Outcome unit * Main;
  api_abortMerge : string -> Main -> Outcome unit * Main;
  api_continueMerge :
    string -> string -> option WorktreeMergeCleanupOptions -> Main ->
    Outcome WorktreeMergeResult * Main
}.
Arguments api_merge {Main} _ _ _ _.
Arguments api_resolveConflict {Main} _ _ _ _ _.
Arguments api_abortMerge {Main} _ _ _.
Arguments api_continueMerge {Main} _ _ _ _ _.

Section Handlers.
Variable Main : Type.
Variable api : MergeApi Main.
(** The translation function [t] of [useI18n]. *)
Variable t : string -> string.

Definition St : Type := (Ui * Main)%type.

Local Open Scope async_scope.

Definition ui : M St Ui := fun s => (Returned (fst s), s).

Definition set_ui (f : Ui -> Ui) : M St unit := fun s => (Returned tt, (f (fst s), snd s)).

(** [await mutation.mutateAsync(...)]: the call is recorded, then the
    main process runs it. *)
Definition mutateAsync {A} (e : Effect) (call : Main -> Outcome A * Main) : M St A :=
  fun s =>
    let '(r, m') := call (snd s) in
    (r, (emit e (fst s), m')).

(** The object stored by [setPendingMergeOptions] in [handleMergeConflicts]. *)
Definition cleanup_snapshot (u : Ui) (options : WorktreeMergeOptions)
  : WorktreeMergeCleanupOptions :=
  mkCleanup
    (Some (mo_worktreePath options))
    (Some (or_else (match mergeWorktree u with
                    | Some w => wt_branch w
                    | None => None
                    end) ""))
    (mo_deleteWorktreeAfterMerge options)
    (mo_deleteBranchAfterMerge options).

(** [stashedPaths] as built by the two [if]s of [handleMergeConflicts]. *)
Definition stashedPaths (result : WorktreeMergeResult) : list string :=
  (if is_stashed (mr_mainStashStatus result) && truthy (mr_mainWorktreePath result)
   then [or_else (mr_mainWorktreePath result) ""] else [])
  ++
  (if is_stashed (mr_worktreeStashStatus result) && truthy (mr_worktreePath result)
   then [or_else (mr_worktreePath result) ""] else []).

(** The message key of the stash toast; it contains double quotes. *)
Definition stash_hint : string :=
  "Your uncommitted changes were stashed. After resolving conflicts, run "
    ++ String "034" "git stash pop" ++ String "034" " in:".

Definition no_repository : WorktreeMergeResult :=
  mkMergeResult false false None None (Some "No repository selected")
                None None None None None.

Definition handleMerge (options : WorktreeMergeOptions) : M St WorktreeMergeResult :=
  u <- ui ;;
  if negb (truthy (selectedRepo u)) then ret no_repository
  else
    let workdir := or_else (selectedRepo u) "" in
    mutateAsync (IpcMerge workdir options) (api_merge api workdir options).

Definition handleMergeConflicts (result : WorktreeMergeResult)
    (options : WorktreeMergeOptions) : M St unit :=
  u <- ui ;;
  set_ui (setMergeDialogOpen false) ;;;
  set_ui (setMergeConflicts (Some result)) ;;;
  set_ui (setPendingMergeOptions (Some (cleanup_snapshot u options))) ;;;
  if Nat.ltb 0 (List.length (stashedPaths result)) then
    set_ui (emit (ToastAdd "info" (t "Changes stashed")
      (t stash_hint
         ++ String newline "" ++ join (String newline "") (stashedPaths result))))
  else ret tt.

Definition handleResolveConflict (file content : string) : M St unit :=
  u <- ui ;;
  if negb (truthy (selectedRepo u)) then ret tt
  else
    let workdir := or_else (selectedRepo u) "" in
    mutateAsync (IpcResolveConflict workdir file content)
                (api_resolveConflict api workdir file content).

Definition handleAbortMerge : M St unit :=
  u <- ui ;;
  if negb (truthy (selectedRepo u)) then ret tt
  else
    let workdir := or_else (selectedRepo u) "" in
    mutateAsync (IpcAbortMerge workdir) (api_abortMerge api workdir) ;;;
    set_ui (setMergeConflicts None) ;;;
    set_ui (setPendingMergeOptions None) ;;;
    set_ui (emit Refetch).

(** [result.warnings && result.warnings.length > 0] *)
Definition has_warnings (result : WorktreeMergeResult) : bool :=
  match mr_warnings result with
  | Some ws => Nat.ltb 0 (List.length ws)
  | None => false
  end.

(** [cleanupOptions: pendingMergeOptions || undefined]: the stored object is
    passed as it is, and [null] becomes [undefined]; both absent values are
    [None] here. *)
Definition handleCompleteMerge (message : string) : M St unit :=
  u <- ui ;;
  if negb (truthy (selectedRepo u)) then ret tt
  else
    let workdir := or_else (selectedRepo u) "" in
    result <- mutateAsync
                (IpcContinueMerge workdir message (pendingMergeOptions u))
                (api_continueMerge api workdir message (pendingMergeOptions u)) ;;
    if mr_success result then
      (if has_warnings result then
         set_ui (emit (ToastAdd "warning" (t "Merge completed with warnings")
                         (join (String newline "")
                               (match mr_warnings result with
                                | Some ws => ws
                                | None => []
                                end))))
       else ret tt) ;;;
      set_ui (setMergeConflicts None) ;;;
      set_ui (setPendingMergeOptions None) ;;;
      set_ui (emit Refetch) ;;;
      set_ui (emit RefetchBranches)
    else ret tt.

(** Whether [handleCompleteMerge] reaches the body of [if (result.success)]. *)
Definition completes (message : string) (s : St) : bool :=
  truthy (selectedRepo (fst s)) &&
  match api_continueMerge api (or_else (selectedRepo (fst s)) "") message
          (pendingMergeOptions (fst s)) (snd s) with
  | (Returned result, _) => mr_success result
  | (Threw _, _) => false
  end.

(** [mergeConflicts?.conflicts && mergeConflicts.conflicts.length > 0]:
    whether the conflict editor is rendered; it owns [onResolve],
    [onComplete] and [onAbort]. *)
Definition editor_shown (u : Ui) : bool :=
  match mergeConflicts u with
  | Some result =>
      match mr_conflicts result with
      | Some (_ :: _) => true
      | _ => false
      end
  | None => false
  end.

(** What can happen after [handleMergeConflicts] has stored a conflicted
    result: the three handlers of the conflict editor run, with whatever
    outcome, and state other than the stored conflicts and snapshot
    changes; these are the only writers of the two in [App.tsx]. *)
Inductive session : St -> St -> Prop :=
| session_refl s : session s s
| session_resolve s s' file content :
    session s s' -> session s (snd (handleResolveConflict file content s'))
| session_continue s s' message :
    session s s' -> session s (snd (handleCompleteMerge message s'))
| session_abort s s' :
    session s s' -> session s (snd (handleAbortMerge s'))
| session_other s s' u' m' :
    session s s' ->
    mergeConflicts u' = mergeConflicts (fst s') ->
    pendingMergeOptions u' = pendingMergeOptions (fst s') ->
    session s (u', m').

(** Whether the [continueMerge] call of [handleCompleteMerge] returns a
    result with [merged = true]. *)
Definition merges (message : string) (s : St) : bool :=
  truthy (selectedRepo (fst s)) &&
  match api_continueMerge api (or_else (selectedRepo (fst s)) "") message
          (pendingMergeOptions (fst s)) (snd s) with
  | (Returned result, _) => mr_merged result
  | (Threw _, _) => false
  end.

(** The resolve/continue loop as long as no [continueMerge] has merged;
    the renderer's own state may change in any way meanwhile. *)
Inductive unmerged : St -> St -> Prop :=
| unmerged_refl s : unmerged s s
| unmerged_resolve s s' file content :
    unmerged s s' -> unmerged s (snd (handleResolveConflict file content s'))
| unmerged_continue s s' message :
    unmerged s s' -> merges message s' = false ->
    unmerged s (snd (handleCompleteMerge message s'))
| unmerged_abort s s' :
    unmerged s s' -> unmerged s (snd (handleAbortMerge s'))
| unmerged_other s s' u' :
    unmerged s s' -> unmerged s (u', snd s').

End Handlers.

Arguments handleMerge {Main} api options _.
Arguments handleMergeConflicts {Main} t result options _.
Arguments handleResolveConflict {Main} api file content _.
Arguments handleAbortMerge {Main} api _.
Arguments handleCompleteMerge {Main} api t message _.
Arguments completes {Main} api message s.
Arguments session {Main} api t _ _.
Arguments merges {Main} api message s.
Arguments unmerged {Main} api t _ _.

(** The toast [handleMergeConflicts] adds when something was stashed. *)
Definition stash_toast (t : string -> string) (result : WorktreeMergeResult)
  : list Effect :=
  if Nat.ltb 0 (List.length (stashedPaths result)) then
    [ToastAdd "info" (t "Changes stashed")
       (t stash_hint ++ String newline "" ++ join (String newline "") (stashedPaths result))]
  else [].

(** The effects that reach the main process. *)
Definition is_ipc (e : Effect) : bool :=
  match e with
  | IpcMerge _ _ | IpcResolveConflict _ _ _ | IpcAbortMerge _
  | IpcContinueMerge _ _ _ => true
  | ToastAdd _ _ _ | Refetch | RefetchBranches => false
  end.

End App.

(** ** The merge engine of the main process *)

Module MergeEngine.
Import Js Async Types.

(** Modelled from the spec: the repository as the merge engine sees it.
    The engine of the main process ([mergeWorktree], [resolveConflict],
    [continueMerge], [abortMerge]) is not among the sources; this is the
    state sections 3 and 4 speak of: the registered worktrees, the
    branches, Git's own in-progress merge with its unresolved paths, and
    per working tree whether it is dirty and whether a stash entry of the
    coordinator exists. *)
Record World : Type := mkWorld {
  worktrees : list Worktree;
  branches : list string;
  unresolved : option (list MergeConflict);
  dirty : list string;
  stashes : list string
}.

Definition set_worktrees (v : list Worktree) (w : World) : World :=
  mkWorld v (branches w) (unresolved w) (dirty w) (stashes w).

Definition set_branches (v : list string) (w : World) : World :=
  mkWorld (worktrees w) v (unresolved w) (dirty w) (stashes w).

Definition set_unresolved (v : option (list MergeConflict)) (w : World) : World :=
  mkWorld (worktrees w) (branches w) v (dirty w) (stashes w).

Definition set_trees (d st : list string) (w : World) : World :=
  mkWorld (worktrees w) (branches w) (unresolved w) d st.

Definition has (x : string) (xs : list string) : bool := existsb (String.eqb x) xs.

Definition without (x : string) (xs : list string) : list string :=
  filter (fun y => negb (String.eqb x y)) xs.

(** Modelled from the spec: what the branch-integration command of the
    merge phase reports (4.3, steps 3 to 5); the engine itself is not
    among the sources. *)
Inductive Integration : Type :=
| Integrated (commitHash : string)
| Conflicting (conflicts : list MergeConflict)
| IntegrationFailed (error : string).

(** Modelled from the spec: the outcomes of the Git commands the engine
    runs through the command runner (section 6), which the repository
    state above does not determine: the integration of the merge phase, a
    failure of [stashIfDirty], a stash pop that leaves merge markers, the
    final commit of [continueMerge], and failures of the two deletions of
    the cleanup. *)
Record Runner : Type := mkRunner {
  git_integrate : Worktree -> WorktreeMergeOptions -> World -> Integration;
  git_stash_error : string -> World -> option string;
  git_pop_conflicts : string -> World -> bool;
  git_commit : string -> World -> Outcome string;
  git_branch_delete_error : string -> World -> option string;
  git_worktree_remove_error : string -> World -> option string
}.

Section Engine.
Variable git : Runner.

(** Modelled from the spec: [stashIfDirty] of the stash coordinator (4.2),
    absent from the sources: a dirty tree is stashed, a clean one is left
    alone, and a failure stops the attempt. *)
Definition stashIfDirty (path : string) (w : World) : Outcome StashStatus * World :=
  match git_stash_error git path w with
  | Some err => (Threw err, w)
  | None =>
      if has path (dirty w)
      then (Returned Stashed, set_trees (without path (dirty w)) (path :: stashes w) w)
      else (Returned StashNone, w)
  end.

(** Modelled from the spec: [popStash] of the stash coordinator (4.2),
    absent from the sources: [applied] on a clean pop, [conflict] when the
    pop leaves merge markers, in which case the entry is not dropped. *)
Definition popStash (path : string) (w : World) : StashStatus * World :=
  if has path (stashes w) then
    if git_pop_conflicts git path w then (StashConflict, w)
    else (StashApplied, set_trees (path :: dirty w) (without path (stashes w)) w)
  else (StashNone, w).

(** Modelled from the spec: the stash phase of [merge] (4.3, step 2),
    absent from the sources: only with [autoStash], on the main worktree
    and on the source worktree independently. *)
Definition stash_phase (autoStash : bool) (main source : string) (w : World)
  : Outcome (StashStatus * StashStatus) * World :=
  if autoStash then
    match stashIfDirty main w with
    | (Threw err, w1) => (Threw err, w1)
    | (Returned ms, w1) =>
        match stashIfDirty source w1 with
        | (Threw err, w2) => (Threw err, w2)
        | (Returned ws, w2) => (Returned (ms, ws), w2)
        end
    end
  else (Returned (StashNone, StashNone), w).

(** Modelled from the spec: the stash pop-back of step 5 for one tree,
    absent from the sources: a tree recorded as [stashed] is popped, any
    other status stays. *)
Definition restore (path : option string) (status : StashStatus) (w : World)
  : option StashStatus * World :=
  match path with
  | None => (None, w)
  | Some p =>
      match status with
      | Stashed => let '(st, w') := popStash p w in (Some st, w')
      | other => (Some other, w)
      end
  end.

(** Modelled from the spec: whether an optional flag of a request was
    set, as the absent engine tests it. *)
Definition flag (o : option bool) : bool :=
  match o with
  | Some true => true
  | _ => false
  end.

(** Modelled from the spec: whether a path is that of the main worktree,
    which the cleanup of the absent engine never removes (section 3). *)
Definition is_main_path (path : string) (w : World) : bool :=
  existsb (fun x => String.eqb (wt_path x) path && wt_isMainWorktree x) (worktrees w).

(** Modelled from the spec: the first half of the cleanup (4.3, step 6),
    absent from the sources: with [deleteBranchAfterMerge] the source
    branch is deleted; a failure is a warning. *)
Definition delete_branch (options : WorktreeMergeCleanupOptions) (w : World)
  : list string * World :=
  if flag (co_deleteBranchAfterMerge options) && truthy (co_sourceBranch options) then
    let branch := or_else (co_sourceBranch options) "" in
    match git_branch_delete_error git branch w with
    | Some err => ([err], w)
    | None => ([], set_branches (without branch (branches w)) w)
    end
  else ([], w).

(** Modelled from the spec: the second half of the cleanup (4.3, step 6),
    absent from the sources: with [deleteWorktreeAfterMerge] the source
    worktree is removed, never the main one; a failure is a warning. *)
Definition remove_worktree (options : WorktreeMergeCleanupOptions) (w : World)
  : list string * World :=
  if flag (co_deleteWorktreeAfterMerge options) && truthy (co_worktreePath options)
     && negb (is_main_path (or_else (co_worktreePath options) "") w) then
    let path := or_else (co_worktreePath options) "" in
    match git_worktree_remove_error git path w with
    | Some err => ([err], w)
    | None =>
        ([], set_worktrees
               (filter (fun x => negb (String.eqb (wt_path x) path)) (worktrees w)) w)
    end
  else ([], w).

(** Modelled from the spec: the cleanup of step 6, absent from the
    sources: the branch first, then the worktree. *)
Definition cleanup (options : option WorktreeMergeCleanupOptions) (w : World)
  : list string * World :=
  match options with
  | None => ([], w)
  | Some o =>
      let '(warned, w1) := delete_branch o w in
      let '(warned', w2) := remove_worktree o w1 in
      (warned ++ warned', w2)
  end.

(** Modelled from the spec: the result of a call that fails (section 7),
    for the absent engine: [success = false] with the error text. *)
Definition failed (error : string) : WorktreeMergeResult :=
  mkMergeResult false false None None (Some error) None None None None None.

(** Modelled from the spec: steps 5 and 6 of 4.3, absent from the sources,
    shared by [merge] and [continueMerge]: the stashes are popped back on
    both trees, then the cleanup runs; this is the only place where the
    engine reports [merged = true]. *)
Definition complete (hash : string) (main source : option string)
    (mainStash worktreeStash : StashStatus)
    (options : option WorktreeMergeCleanupOptions) (w : World)
  : WorktreeMergeResult * World :=
  let '(ms, w1) := restore main mainStash w in
  let '(ws, w2) := restore source worktreeStash w1 in
  let '(warned, w3) := cleanup options w2 in
  (mkMergeResult true true None (Some hash) None
                 (match warned with
                  | [] => None
                  | _ => Some warned
                  end)
                 ms ws main source,
   w3).

(** Modelled from the spec: the repository after the stash pop-back of
    step 5, in which the absent engine starts the cleanup of step 6. *)
Definition restored (main source : option string)
    (mainStash worktreeStash : StashStatus) (w : World) : World :=
  snd (restore source worktreeStash (snd (restore main mainStash w))).

(** Modelled from the spec: the pre-check of step 1 for the absent engine:
    whether the target branch is checked out in the source worktree. *)
Definition targets_itself (source : Worktree) (targetBranch : string) : bool :=
  match wt_branch source with
  | Some b => String.eqb b targetBranch
  | None => false
  end.

(** Modelled from the spec: [merge] (4.3, steps 1 to 6), absent from the
    sources.  A conflicting integration returns [success = true],
    [merged = false] and the conflicts at once and leaves the merge in
    progress; stash pop-back and cleanup come only after a clean one. *)
Definition merge (options : WorktreeMergeOptions) (w : World)
  : WorktreeMergeResult * World :=
  match find wt_isMainWorktree (worktrees w),
        find (fun x => String.eqb (wt_path x) (mo_worktreePath options)) (worktrees w) with
  | Some main, Some source =>
      if targets_itself source (mo_targetBranch options)
      then (failed "Cannot merge a branch into itself", w)
      else
        match stash_phase (flag (mo_autoStash options)) (wt_path main) (wt_path source) w with
        | (Threw err, w1) => (failed err, w1)
        | (Returned (ms, ws), w1) =>
            match git_integrate git source options w1 with
            | IntegrationFailed err => (failed err, w1)
            | Conflicting conflicts =>
                (mkMergeResult true false (Some conflicts) None None None
                               (Some ms) (Some ws)
                               (Some (wt_path main)) (Some (wt_path source)),
                 set_unresolved (Some conflicts) w1)
            | Integrated hash =>
                complete hash (Some (wt_path main)) (Some (wt_path source)) ms ws
                         (Some (mkCleanup (Some (mo_worktreePath options))
                                          (wt_branch source)
                                          (mo_deleteWorktreeAfterMerge options)
                                          (mo_deleteBranchAfterMerge options)))
                         w1
            end
        end
  | _, _ => (failed "Worktree not found", w)
  end.

(** Modelled from the spec: [resolveConflict] (4.3), absent from the
    sources: the resolved file is written and staged, so it is no longer
    among the unresolved paths; nothing else is looked at. *)
Definition resolveConflict (file content : string) (w : World) : World :=
  set_unresolved
    (option_map (filter (fun c => negb (String.eqb (mc_file c) file))) (unresolved w))
    w.

(** Modelled from the spec: the stash status of a tree as derived from the
    repository (section 5: state is re-derived from disk), for the absent
    engine. *)
Definition stash_status (path : string) (w : World) : StashStatus :=
  if has path (stashes w) then Stashed else StashNone.

(** Modelled from the spec: the repository in which a [continueMerge] of
    the absent engine that has committed starts the cleanup: the merge is
    no longer in progress and the stashes are popped back. *)
Definition before_cleanup (cleanupOptions : option WorktreeMergeCleanupOptions)
    (w : World) : World :=
  let main := option_map wt_path (find wt_isMainWorktree (worktrees w)) in
  let source := match cleanupOptions with
                | Some o => co_worktreePath o
                | None => None
                end in
  restored main source
           (stash_status (or_else main "") w)
           (stash_status (or_else source "") w)
           (set_unresolved None w).

(** Modelled from the spec: [continueMerge] (4.3), absent from the
    sources.  While paths are unresolved it returns [merged = false] again
    with the updated list and touches nothing; otherwise it attempts the
    final commit and, on success, runs the steps 5 and 6 with the
    [cleanupOptions] it was given. *)
Definition continueMerge (message : string)
    (cleanupOptions : option WorktreeMergeCleanupOptions) (w : World)
  : WorktreeMergeResult * World :=
  match unresolved w with
  | Some (c :: cs) =>
      (mkMergeResult true false (Some (c :: cs)) None None None None None None None, w)
  | _ =>
      match git_commit git message w with
      | Threw err => (failed err, w)
      | Returned hash =>
          let main := option_map wt_path (find wt_isMainWorktree (worktrees w)) in
          let source := match cleanupOptions with
                        | Some o => co_worktreePath o
                        | None => None
                        end in
          complete hash main source
                   (stash_status (or_else main "") w)
                   (stash_status (or_else source "") w)
                   cleanupOptions (set_unresolved None w)
      end
  end.

(** Modelled from the spec: [abortMerge] (4.3), absent from the sources:
    the in-progress state is discarded and no stash is restored. *)
Definition abortMerge (w : World) : World := set_unresolved None w.

(** Modelled from the spec: the four calls of section 6 that the merge
    handlers reach through the bridge, served by the absent engine for one
    repository; failures come back as results, not as rejections. *)
Definition engine : App.MergeApi World :=
  App.mkApi World
    (fun workdir options w => let '(r, w') := merge options w in (Returned r, w'))
    (fun workdir file content w => (Returned tt, resolveConflict file content w))
    (fun workdir w => (Returned tt, abortMerge w))
    (fun workdir message cleanupOptions w =>
       let '(r, w') := continueMerge message cleanupOptions w in (Returned r, w')).

End Engine.

(** No worktree and no branch was added or deleted between two worlds. *)
Definition same_trees (w w' : World) : Prop :=
  worktrees w' = worktrees w /\ branches w' = branches w.

End MergeEngine.

(** ** Further JavaScript primitives *)

Module JsMore.

(** [s.includes(pat)] *)
Fixpoint includes (pat s : string) : bool :=
  if String.prefix pat s then true
  else match s with
       | EmptyString => false
       | String _ s' => includes pat s'
       end.

(** [s.split(/[...]/)] for a class of one-character separators. *)
Fixpoint split_by (sep : ascii -> bool) (s : string) : list string :=
  match s with
  | EmptyString => [EmptyString]
  | String c s' =>
      if sep c then EmptyString :: split_by sep s'
      else match split_by sep s' with
           | l :: ls => String c l :: ls
           | [] => [String c EmptyString]
           end
  end.

(** The class [[\\/]]. *)
Definition is_slash (c : ascii) : bool :=
  Ascii.eqb c "/" || Ascii.eqb c "\".

(** [path.split(/[\\/]/).pop() || path] *)
Definition last_segment (path : string) : string :=
  let seg := List.last (split_by is_slash path) EmptyString in
  if String.eqb seg "" then path else seg.

(** [s.replace(/\\/g, '/')] *)
Fixpoint backslashes_to_slashes (s : string) : string :=
  match s with
  | EmptyString => EmptyString
  | String c s' =>
      String (if Ascii.eqb c "\" then "/"%char else c) (backslashes_to_slashes s')
  end.

(** [s.endsWith('/')] *)
Fixpoint ends_with_slash (s : string) : bool :=
  match s with
  | EmptyString => false
  | String c EmptyString => Ascii.eqb c "/"
  | String _ s' => ends_with_slash s'
  end.

(** Every character of [s] satisfies [p]. *)
Fixpoint all_chars (p : ascii -> bool) (s : string) : bool :=
  match s with
  | EmptyString => true
  | String c s' => p c && all_chars p s'
  end.

(** [xs.findIndex(p)], with [None] for [-1]. *)
Fixpoint findIndex {A} (p : A -> bool) (xs : list A) : option nat :=
  match xs with
  | [] => None
  | x :: xs' => if p x then Some 0 else option_map S (findIndex p xs')
  end.

(** The index at which [xs.splice(start, ...)] operates on an array of
    length [len]: a negative [start] counts from the end, and the result is
    kept within [0..len]. *)
Definition splice_start (len : nat) (start : Z) : nat :=
  if (start <? 0)%Z then Z.to_nat (Z.max (Z.of_nat len + start) 0)
  else Z.to_nat (Z.min start (Z.of_nat len)).

End JsMore.

(** ** Removing a worktree from the renderer: [handleRemoveWorktree] *)

Module Removal.
Import Js JsMore Async Types.

(** The optional second argument of [handleRemoveWorktree]. *)
Record RemoveChoice : Type := mkChoice {
  ch_deleteBranch : option bool;
  ch_force : option bool
}.

(** The [options] object handed to the remove mutation. *)
Definition remove_request (worktree : Worktree) (options : option RemoveChoice)
  : WorktreeService.WorktreeRemoveOptions :=
  WorktreeService.mkRemove
    (wt_path worktree)
    (if wt_prunable worktree then Some true
     else match options with
          | Some o => ch_force o
          | None => None
          end)
    (match options with
     | Some o => ch_deleteBranch o
     | None => None
     end)
    (if truthy (wt_branch worktree) then wt_branch worktree else None).

(** What the handler does besides updating React state, oldest first; a
    toast is named by the number [toastManager.add] returned for it. *)
Inductive Effect : Type :=
| ToastOpen (id : nat) (type title description : string)
| ToastClose (id : nat)
| IpcRemove (workdir : string) (options : WorktreeService.WorktreeRemoveOptions)
| ClearEditorState (worktreePath : string)
| RefetchBranches.

Record Ui : Type := mkUi {
  selectedRepo : option string;
  activeWorktree : option Worktree;
  toasts : nat;
  effects : list Effect
}.

Definition emit (e : Effect) (u : Ui) : Ui :=
  mkUi (selectedRepo u) (activeWorktree u) (toasts u) (effects u ++ [e]).

(** [toastManager.add(...)]: the toast is shown and its id returned. *)
Definition toast_add (type title description : string) (u : Ui) : nat * Ui :=
  (toasts u,
   mkUi (selectedRepo u) (activeWorktree u) (S (toasts u))
        (effects u ++ [ToastOpen (toasts u) type title description])).

Definition setActiveWorktree (v : option Worktree) (u : Ui) : Ui :=
  mkUi (selectedRepo u) v (toasts u) (effects u).

(** [activeWorktree?.path === worktree.path] *)
Definition is_active (u : Ui) (worktree : Worktree) : bool :=
  match activeWorktree u with
  | Some a => String.eqb (wt_path a) (wt_path worktree)
  | None => false
  end.

(** The message key of the hint for uncommitted changes; it contains
    double quotes. *)
Definition force_hint : string :=
  "This directory contains uncommitted changes. Please check "
    ++ String "034" "Force delete" ++ String "034" ".".

Section Handler.
Variable Main : Type.
(** [useWorktreeRemove]: the remove call served by the main process. *)
Variable api_remove :
  string -> WorktreeService.WorktreeRemoveOptions -> Main -> Outcome unit * Main.
Variable t : string -> string.

(** The handler together with the [then]/[catch] callback that runs when
    the mutation settles. *)
Definition handleRemoveWorktree (worktree : Worktree) (options : option RemoveChoice)
    (s : Ui * Main) : Ui * Main :=
  let '(u, m) := s in
  if negb (truthy (selectedRepo u)) then (u, m)
  else
    let workdir := or_else (selectedRepo u) "" in
    let label := or_else (wt_branch worktree) (wt_path worktree) in
    let '(toastId, u1) := toast_add "loading" (t "Deleting...") label u in
    let request := remove_request worktree options in
    let u2 := emit (IpcRemove workdir request) u1 in
    match api_remove workdir request m with
    | (Returned _, m') =>
        let u3 := emit (ClearEditorState (wt_path worktree)) u2 in
        let u4 := if is_active u3 worktree then setActiveWorktree None u3 else u3 in
        let u5 := emit RefetchBranches u4 in
        let u6 := emit (ToastClose toastId) u5 in
        (snd (toast_add "success" (t "Worktree deleted") label u6), m')
    | (Threw message, m') =>
        let hasUncommitted := includes "modified or untracked" message in
        let u3 := emit (ToastClose toastId) u2 in
        (snd (toast_add "error" (t "Delete failed")
                (if hasUncommitted then t force_hint else message) u3), m')
    end.

End Handler.

Arguments handleRemoveWorktree {Main} api_remove t worktree options s.

(** The toasts left on screen by a sequence of effects, given the ones
    that were there before. *)
Fixpoint on_screen (es : list Effect) (shown : list (nat * string)) : list (nat * string) :=
  match es with
  | [] => shown
  | ToastOpen id type _ _ :: rest => on_screen rest (shown ++ [(id, type)])
  | ToastClose id :: rest =>
      on_screen rest (filter (fun p => negb (Nat.eqb (fst p) id)) shown)
  | _ :: rest => on_screen rest shown
  end.

End Removal.

(** ** The repositories of the workspace: add, clone, remove *)

Module Repositories.
Import Js JsMore Types.

(** [Repository] of [App/constants], as the handlers build it. *)
Record Repository : Type := mkRepository {
  name : string;
  path : string;
  groupId : option string
}.

Record Ui : Type := mkUi {
  repositories : list Repository;
  selectedRepo : option string;
  activeWorktree : option Worktree;
  activeTab : string
}.

(** [repositories.some((r) => r.path === p)] *)
Definition registered (p : string) (rs : list Repository) : bool :=
  existsb (fun r => String.eqb (path r) p) rs.

(** The [newRepo] literal. *)
Definition new_repository (p : string) (group : option string) : Repository :=
  mkRepository (last_segment p) p (if truthy group then group else None).

Definition handleAddLocalRepository (selectedPath : string) (group : option string)
    (u : Ui) : Ui :=
  if registered selectedPath (repositories u) then u
  else mkUi (repositories u ++ [new_repository selectedPath group])
            (Some selectedPath) None "chat".

Definition handleCloneRepository (clonedPath : string) (group : option string)
    (u : Ui) : Ui :=
  if registered clonedPath (repositories u) then
    mkUi (repositories u) (Some clonedPath) (activeWorktree u) (activeTab u)
  else mkUi (repositories u ++ [new_repository clonedPath group])
            (Some clonedPath) None "chat".

(** [selectedRepo === repoPath] *)
Definition is_selected (u : Ui) (repoPath : string) : bool :=
  match selectedRepo u with
  | Some s => String.eqb s repoPath
  | None => false
  end.

Definition handleRemoveRepository (repoPath : string) (u : Ui) : Ui :=
  let updated := filter (fun r => negb (String.eqb (path r) repoPath)) (repositories u) in
  if is_selected u repoPath then mkUi updated None None (activeTab u)
  else mkUi updated (selectedRepo u) (activeWorktree u) (activeTab u).

(** [tempBasePathDisplay] *)
Definition tempBasePathDisplay (effectiveTempBasePath : string) : string :=
  if String.eqb effectiveTempBasePath "" then ""
  else
    let display := backslashes_to_slashes effectiveTempBasePath in
    let display := if String.prefix "/" display then substring_from 1 display else display in
    if negb (ends_with_slash display) then (display ++ "/")%string else display.

End Repositories.

(** ** The editor store: [useEditorStore] *)

Module EditorStore.
Import Js JsMore.

(** The view state is an opaque value ([unknown]) the store only keeps. *)
Definition ViewState : Type := nat.

Record EditorTab : Type := mkTab {
  path : string;
  title : string;
  content : string;
  isDirty : bool;
  encoding : option string;
  viewState : option ViewState;
  isUnsupported : option bool;
  hasExternalChange : option bool;
  externalContent : option string
}.

Inductive PreviewMode : Type := PreviewOff | PreviewSplit | PreviewFullscreen.

Record PendingCursor : Type := mkCursor {
  pc_path : string;
  pc_line : Z;
  pc_column : option Z;
  pc_matchLength : option Z;
  pc_previewMode : option PreviewMode
}.

Record WorktreeEditorState : Type := mkSaved {
  ws_tabs : list EditorTab;
  ws_activeTabPath : option string
}.

(** [Record<string, WorktreeEditorState>]: own properties in insertion order. *)
Definition States : Type := list (string * WorktreeEditorState).

(** [states[key]] *)
Definition lookup (key : string) (states : States) : option WorktreeEditorState :=
  option_map snd (find (fun p => String.eqb (fst p) key) states).

(** [{ ...states, [key]: value }] *)
Definition put (key : string) (value : WorktreeEditorState) (states : States) : States :=
  if existsb (fun p => String.eqb (fst p) key) states
  then map (fun p => if String.eqb (fst p) key then (key, value) else p) states
  else states ++ [(key, value)].

(** [const { [key]: _, ...rest } = states] *)
Definition without (key : string) (states : States) : States :=
  filter (fun p => negb (String.eqb (fst p) key)) states.

Record EditorState : Type := mkState {
  tabs : list EditorTab;
  activeTabPath : option string;
  pendingCursor : option PendingCursor;
  currentCursorLine : option Z;
  worktreeStates : States;
  currentWorktreePath : option string
}.

Definition initial : EditorState := mkState [] None None None [] None.

(** The argument of [openFile]: an optional property is [None] when the
    object does not have it, [Some None] when it has it with [undefined]. *)
Record OpenRequest : Type := mkOpen {
  f_path : string;
  f_content : string;
  f_isDirty : bool;
  f_title : option string;
  f_encoding : option (option string);
  f_isUnsupported : option (option bool);
  f_hasExternalChange : option (option bool);
  f_externalContent : option (option string)
}.

(** A property as [{ ...tab, ...file }] leaves it. *)
Definition spread {A} (own : option (option A)) (old : option A) : option A :=
  match own with
  | Some v => v
  | None => old
  end.

(** [getTabTitle] *)
Definition getTabTitle (p : string) : string := last_segment p.

Definition set_tabs (ts : list EditorTab) (active : option string) (s : EditorState)
  : EditorState :=
  mkState ts active (pendingCursor s) (currentCursorLine s)
          (worktreeStates s) (currentWorktreePath s).

(** [state.tabs.map((tab) => tab.path === p ? f(tab) : tab)] *)
Definition update_tab (p : string) (f : EditorTab -> EditorTab) (s : EditorState)
  : EditorState :=
  set_tabs (map (fun tab => if String.eqb (path tab) p then f tab else tab) (tabs s))
           (activeTabPath s) s.

(** [state.tabs.some((tab) => tab.path === p)] *)
Definition is_open (p : string) (ts : list EditorTab) : bool :=
  existsb (fun tab => String.eqb (path tab) p) ts.

Definition openFile (file : OpenRequest) (s : EditorState) : EditorState :=
  if is_open (f_path file) (tabs s) then
    set_tabs
      (map (fun tab =>
              if String.eqb (path tab) (f_path file) then
                mkTab (f_path file)
                      (match f_title file with Some v => v | None => title tab end)
                      (f_content file) (f_isDirty file)
                      (spread (f_encoding file) (encoding tab))
                      (viewState tab)
                      (spread (f_isUnsupported file) (isUnsupported tab))
                      (Some false) None
              else tab)
           (tabs s))
      (Some (f_path file)) s
  else
    set_tabs
      (tabs s ++
       [mkTab (f_path file)
              (match f_title file with Some v => v | None => getTabTitle (f_path file) end)
              (f_content file) (f_isDirty file)
              (spread (f_encoding file) None) None
              (spread (f_isUnsupported file) None)
              (spread (f_hasExternalChange file) None)
              (spread (f_externalContent file) None)])
      (Some (f_path file)) s.

(** [state.activeTabPath === p] *)
Definition is_active (p : string) (s : EditorState) : bool :=
  match activeTabPath s with
  | Some a => String.eqb a p
  | None => false
  end.

(** [ts[ts.length - 1]?.path ?? null] *)
Definition last_path (ts : list EditorTab) : option string :=
  match ts with
  | [] => None
  | x :: xs => Some (path (List.last xs x))
  end.

(** [ts[0]?.path ?? null] *)
Definition first_path (ts : list EditorTab) : option string :=
  match ts with
  | [] => None
  | x :: _ => Some (path x)
  end.

Definition closeFile (p : string) (s : EditorState) : EditorState :=
  let newTabs := filter (fun tab => negb (String.eqb (path tab) p)) (tabs s) in
  set_tabs newTabs (if is_active p s then last_path newTabs else activeTabPath s) s.

Definition closeOtherFiles (keepPath : string) (s : EditorState) : EditorState :=
  match find (fun tab => String.eqb (path tab) keepPath) (tabs s) with
  | None => s
  | Some keepTab => set_tabs [keepTab] (Some keepPath) s
  end.

(** [state.activeTabPath ? newTabs.some(...) : false] *)
Definition activeStillOpen (newTabs : list EditorTab) (s : EditorState) : bool :=
  if truthy (activeTabPath s)
  then is_open (or_else (activeTabPath s) "") newTabs
  else false.

Definition closeFilesToLeft (p : string) (s : EditorState) : EditorState :=
  match findIndex (fun tab => String.eqb (path tab) p) (tabs s) with
  | None => s
  | Some O => s
  | Some index =>
      let newTabs := skipn index (tabs s) in
      set_tabs newTabs
               (if activeStillOpen newTabs s then activeTabPath s else first_path newTabs) s
  end.

Definition closeFilesToRight (p : string) (s : EditorState) : EditorState :=
  match findIndex (fun tab => String.eqb (path tab) p) (tabs s) with
  | None => s
  | Some index =>
      if Nat.leb (List.length (tabs s) - 1) index then s
      else
        let newTabs := firstn (index + 1) (tabs s) in
        set_tabs newTabs
                 (if activeStillOpen newTabs s then activeTabPath s else last_path newTabs) s
  end.

Definition closeAllFiles (s : EditorState) : EditorState :=
  mkState [] None None None (worktreeStates s) (currentWorktreePath s).

Definition setActiveFile (p : option string) (s : EditorState) : EditorState :=
  set_tabs (tabs s) p s.

(** [isDirty = true] is the default of the third parameter. *)
Definition updateFileContent (p newContent : string) (dirty : option bool)
    (s : EditorState) : EditorState :=
  update_tab p
    (fun tab => mkTab (path tab) (title tab) newContent
                      (match dirty with Some b => b | None => true end)
                      (encoding tab) (viewState tab) (isUnsupported tab)
                      (hasExternalChange tab) (externalContent tab)) s.

Definition markFileSaved (p : string) (s : EditorState) : EditorState :=
  update_tab p
    (fun tab => mkTab (path tab) (title tab) (content tab) false
                      (encoding tab) (viewState tab) (isUnsupported tab)
                      (Some false) None) s.

Definition markExternalChange (p external : string) (s : EditorState) : EditorState :=
  update_tab p
    (fun tab => mkTab (path tab) (title tab) (content tab) (isDirty tab)
                      (encoding tab) (viewState tab) (isUnsupported tab)
                      (Some true) (Some external)) s.

Definition applyExternalChange (p : string) (s : EditorState) : EditorState :=
  update_tab p
    (fun tab => mkTab (path tab) (title tab)
                      (match externalContent tab with
                       | Some v => v
                       | None => content tab
                       end)
                      false
                      (encoding tab) (viewState tab) (isUnsupported tab)
                      (Some false) None) s.

Definition dismissExternalChange (p : string) (s : EditorState) : EditorState :=
  update_tab p
    (fun tab => mkTab (path tab) (title tab) (content tab) (isDirty tab)
                      (encoding tab) (viewState tab) (isUnsupported tab)
                      (Some false) None) s.

Definition setTabViewState (p : string) (v : option ViewState) (s : EditorState)
  : EditorState :=
  update_tab p
    (fun tab => mkTab (path tab) (title tab) (content tab) (isDirty tab)
                      (encoding tab) v (isUnsupported tab)
                      (hasExternalChange tab) (externalContent tab)) s.

(** [reorderTabs]: the two [splice] calls on a copy of the array. *)
Definition reorderTabs (fromIndex toIndex : Z) (s : EditorState) : EditorState :=
  if (fromIndex =? toIndex)%Z then s
  else
    let from := splice_start (List.length (tabs s)) fromIndex in
    match nth_error (tabs s) from with
    | None => s
    | Some moved =>
        let rest := firstn from (tabs s) ++ skipn (S from) (tabs s) in
        let to := splice_start (List.length rest) toIndex in
        set_tabs (firstn to rest ++ moved :: skipn to rest) (activeTabPath s) s
    end.

Definition setPendingCursor (cursor : option PendingCursor) (s : EditorState)
  : EditorState :=
  mkState (tabs s) (activeTabPath s) cursor (currentCursorLine s)
          (worktreeStates s) (currentWorktreePath s).

Definition setCurrentCursorLine (line : option Z) (s : EditorState) : EditorState :=
  mkState (tabs s) (activeTabPath s) (pendingCursor s) line
          (worktreeStates s) (currentWorktreePath s).

Definition switchWorktree (worktreePath : option string) (s : EditorState)
  : EditorState :=
  let newWorktreeStates :=
    if truthy (currentWorktreePath s)
    then put (or_else (currentWorktreePath s) "")
             (mkSaved (tabs s) (activeTabPath s)) (worktreeStates s)
    else worktreeStates s in
  let savedState :=
    if truthy worktreePath then lookup (or_else worktreePath "") newWorktreeStates
    else None in
  mkState (match savedState with Some saved => ws_tabs saved | None => [] end)
          (match savedState with Some saved => ws_activeTabPath saved | None => None end)
          None None newWorktreeStates worktreePath.

Definition clearAllWorktreeStates (s : EditorState) : EditorState := initial.

Definition clearWorktreeState (worktreePath : string) (s : EditorState) : EditorState :=
  mkState (tabs s) (activeTabPath s) (pendingCursor s) (currentCursorLine s)
          (without worktreePath (worktreeStates s)) (currentWorktreePath s).

(** The actions of the store. *)
Inductive Action : Type :=
| OpenFile (file : OpenRequest)
| CloseFile (p : string)
| CloseOtherFiles (keepPath : string)
| CloseFilesToLeft (p : string)
| CloseFilesToRight (p : string)
| CloseAllFiles
| SetActiveFile (p : option string)
| UpdateFileContent (p newContent : string) (dirty : option bool)
| MarkFileSaved (p : string)
| MarkExternalChange (p external : string)
| ApplyExternalChange (p : string)
| DismissExternalChange (p : string)
| SetTabViewState (p : string) (v : option ViewState)
| ReorderTabs (fromIndex toIndex : Z)
| SetPendingCursor (cursor : option PendingCursor)
| SetCurrentCursorLine (line : option Z)
| SwitchWorktree (worktreePath : option string)
| ClearAllWorktreeStates
| ClearWorktreeState (worktreePath : string).

Definition act (a : Action) (s : EditorState) : EditorState :=
  match a with
  | OpenFile file => openFile file s
  | CloseFile p => closeFile p s
  | CloseOtherFiles p => closeOtherFiles p s
  | CloseFilesToLeft p => closeFilesToLeft p s
  | CloseFilesToRight p => closeFilesToRight p s
  | CloseAllFiles => closeAllFiles s
  | SetActiveFile p => setActiveFile p s
  | UpdateFileContent p c d => updateFileContent p c d s
  | MarkFileSaved p => markFileSaved p s
  | MarkExternalChange p e => markExternalChange p e s
  | ApplyExternalChange p => applyExternalChange p s
  | DismissExternalChange p => dismissExternalChange p s
  | SetTabViewState p v => setTabViewState p v s
  | ReorderTabs i j => reorderTabs i j s
  | SetPendingCursor c => setPendingCursor c s
  | SetCurrentCursorLine l => setCurrentCursorLine l s
  | SwitchWorktree p => switchWorktree p s
  | ClearAllWorktreeStates => clearAllWorktreeStates s
  | ClearWorktreeState p => clearWorktreeState p s
  end.

(** The store after a sequence of actions, first action first. *)
Definition run (actions : list Action) (s : EditorState) : EditorState :=
  fold_left (fun st a => act a st) actions s.

(** No two tabs of a list share a path. *)
Definition distinct (ts : list EditorTab) : Prop := NoDup (map path ts).

(** The active path is [null] or the path of one of the tabs. *)
Definition active_valid (ts : list EditorTab) (active : option string) : Prop :=
  match active with
  | None => True
  | Some a => In a (map path ts)
  end.

(** The tabs on screen and the tabs saved for every worktree have
    distinct paths. *)
Definition well_formed (s : EditorState) : Prop :=
  distinct (tabs s) /\
  Forall (fun p => distinct (ws_tabs (snd p))) (worktreeStates s).

(** The active path on screen and the one saved for every worktree are
    valid. *)
Definition consistent (s : EditorState) : Prop :=
  active_valid (tabs s) (activeTabPath s) /\
  Forall (fun p => active_valid (ws_tabs (snd p)) (ws_activeTabPath (snd p)))
         (worktreeStates s).

(** An action that cannot point the store at a tab that is not open. *)
Definition guarded (a : Action) (s : EditorState) : Prop :=
  match a with
  | SetActiveFile (Some p) => In p (map path (tabs s))
  | _ => True
  end.

(** The actions that work on the tabs on screen only. *)
Definition on_tabs (a : Action) : bool :=
  match a with
  | SwitchWorktree _ | ClearAllWorktreeStates | ClearWorktreeState _ => false
  | _ => true
  end.

(** The path whose tab an action rewrites in place, if it is such an action. *)
Definition edited (a : Action) : option string :=
  match a with
  | UpdateFileContent p _ _ | MarkFileSaved p | MarkExternalChange p _
  | ApplyExternalChange p | DismissExternalChange p | SetTabViewState p _ => Some p
  | _ => None
  end.

(** Every action of a run is guarded in the state it is applied to. *)
Fixpoint all_guarded (actions : list Action) (s : EditorState) : Prop :=
  match actions with
  | [] => True
  | a :: rest => guarded a s /\ all_guarded rest (act a s)
  end.

End EditorStore.

(** ** The editor hook: [useEditor] *)

Module UseEditor.
Import Js Async EditorStore.

Section Hook.
(** The files behind [window.electronAPI.file]. *)
Variable Files : Type.
Variable file_read : string -> Files -> Outcome string * Files.
Variable file_write : string -> string -> Files -> Outcome unit * Files.

Definition St : Type := (EditorState * Files)%type.

Local Open Scope async_scope.

Definition store : M St EditorState := fun s => (Returned (fst s), s).

Definition dispatch (a : Action) : M St unit :=
  fun s => (Returned tt, (act a (fst s), snd s)).

Definition read (p : string) : M St string :=
  fun s => let '(r, files) := file_read p (snd s) in (r, (fst s, files)).

Definition write (p text : string) : M St unit :=
  fun s => let '(r, files) := file_write p text (snd s) in (r, (fst s, files)).

Definition throw {A} (err : string) : M St A := fun s => (Threw err, s).

(** The [mutationFn] of [loadFile]. *)
Definition loadFile (p : string) : M St string :=
  text <- read p ;;
  dispatch (OpenFile (mkOpen p text false None None None None None)) ;;;
  ret text.

(** The [mutationFn] of [saveFile]. *)
Definition saveFile (p : string) : M St unit :=
  s <- store ;;
  match find (fun f => String.eqb (path f) p) (tabs s) with
  | None => throw "File not found"
  | Some file =>
      write p (content file) ;;;
      dispatch (MarkFileSaved p)
  end.

(** [if (line !== undefined) setPendingCursor({ path, line, column, matchLength })];
    [line] is [None] when the argument is [undefined]. *)
Definition place_cursor (p : string) (line column matchLength : option Z) : M St unit :=
  match line with
  | Some l => dispatch (SetPendingCursor (Some (mkCursor p l column matchLength None)))
  | None => ret tt
  end.

(** [navigateToFile] as the render that saw [tabs] created it:
    [useCallback] keeps the callback, and with it this array, until a
    render with other [tabs]; [setActiveFile], [openFile] and
    [setPendingCursor] act on the store as it is when they run.  The
    [catch] block returns from the function. *)
Definition navigateToFile (tabs : list EditorTab) (p : string)
    (line column matchLength : option Z) : M St unit :=
  match find (fun f => String.eqb (path f) p) tabs with
  | Some _ =>
      dispatch (SetActiveFile (Some p)) ;;;
      place_cursor p line column matchLength
  | None =>
      fun st =>
        match (text <- read p ;;
               dispatch (OpenFile (mkOpen p text false None None None None None))) st with
        | (Returned _, st') => place_cursor p line column matchLength st'
        | (Threw _, st') => (Returned tt, st')
        end
  end.

End Hook.

Arguments loadFile {Files} file_read p _.
Arguments saveFile {Files} file_write p _.
Arguments navigateToFile {Files} file_read tabs p line column matchLength _.

End UseEditor.

(** ** Vocabulary for the porcelain listing *)

Module Porcelain.
Import Js WorktreeService.

(** The records of a listing, before entry 0 is marked as main. *)
Definition records (lines : list string) : list GitWorktree :=
  emitted (loop lines ([], empty)).

(** A line that none of the tests of the loop recognises. *)
Definition unrecognised (line : string) : bool :=
  negb (startsWith "worktree " line) && negb (startsWith "HEAD " line)
  && negb (startsWith "branch " line) && negb (line =? "bare")
  && negb (line =? "locked") && negb (line =? "prunable").

(** [lines.includes(x)] *)
Definition has_line (x : string) (lines : list string) : bool :=
  existsb (String.eqb x) lines.

(** Every field a consumer of [GitWorktree] reads without a check is set. *)
Definition complete (w : GitWorktree) : Prop :=
  truthy (path w) = true /\
  (exists b, isMainWorktree w = Some b) /\
  (exists b, isLocked w = Some b) /\
  (exists b, prunable w = Some b).

End Porcelain.

(** ** Vocabulary for process runs *)

Module ProcessRun.
Import GitShow.

(** The state of the promise of [gitShowBuffer] once the listeners have
    seen [events]. *)
Definition settle (events : list ProcEvent) : Promise Buffer :=
  promise (fold_left dispatch events (mkExecutor [] Pending)).

End ProcessRun.

(** ** Concrete collaborators used to run the definitions *)

Module Scenario.
Import Js Async Types.

Definition nl : string := String newline "".

(** A two-worktree listing as [git worktree list --porcelain] prints it. *)
Definition listing : string :=
  "worktree /repo" ++ nl ++ "HEAD 1111" ++ nl ++ "branch refs/heads/main" ++ nl ++ nl
  ++ "worktree /repo-feature" ++ nl ++ "HEAD 2222" ++ nl
  ++ "branch refs/heads/feature" ++ nl ++ nl.

(** A small repository: the linked worktrees and the branches that exist. *)
Record Repo : Type := mkRepo {
  repo_worktrees : list string;
  repo_branches : list string
}.

Definition has (x : string) (xs : list string) : bool := existsb (String.eqb x) xs.

Definition without (x : string) (xs : list string) : list string :=
  filter (fun y => negb (String.eqb x y)) xs.

Definition remove_worktree (p : string) (r : Repo) : (string + string) * Repo :=
  if has p (repo_worktrees r)
  then (inr "", mkRepo (without p (repo_worktrees r)) (repo_branches r))
  else (inl "fatal: not a working tree", r).

(** A [git] that knows the four invocations of [WorktreeService]. *)
Definition git (args : list string) (r : Repo) : (string + string) * Repo :=
  match args with
  | ["worktree"; "list"; "--porcelain"] => (inr listing, r)
  | ["worktree"; "remove"; p] => remove_worktree p r
  | ["worktree"; "remove"; "--force"; p] => remove_worktree p r
  | ["branch"; "-D"; b] =>
      if has b (repo_branches r)
      then (inr "", mkRepo (repo_worktrees r) (without b (repo_branches r)))
      else (inl "error: branch not found", r)
  | _ => (inl "git: unknown command", r)
  end.

Definition repo0 : Repo := mkRepo ["/repo-feature"] ["main"].

(** A listing in which a later record carries the [bare] marker. *)
Definition bare_second : string :=
  "worktree /repo" ++ nl ++ "HEAD 1111" ++ nl ++ "branch refs/heads/main" ++ nl ++ nl
  ++ "worktree /mirror" ++ nl ++ "bare" ++ nl.

(** A runner that prints a canned text whatever it is asked. *)
Definition canned (text : string) (args : list string) (w : unit)
  : (string + string) * unit := (inr text, w).

(** [git show] on an index stage that does not exist: nothing on stdout,
    exit code 128. *)
Definition spawn_absent (workdir : string) (args : list string)
    (options : GitShow.SpawnOptions) : GitShow.Spawn :=
  GitShow.Spawned [GitShow.Close (Some 128%Z)].

(** A [git] binary that cannot be started: [error], then [close]. *)
Definition spawn_failed (workdir : string) (args : list string)
    (options : GitShow.SpawnOptions) : GitShow.Spawn :=
  GitShow.Spawned [GitShow.ProcError; GitShow.Close None].

Definition detect_none (buffer : GitShow.Buffer) : option string := None.

(** [git show] printing [hi] in two chunks, then a last event after [close]. *)
Definition spawn_hi (workdir : string) (args : list string)
    (options : GitShow.SpawnOptions) : GitShow.Spawn :=
  GitShow.Spawned
    [GitShow.StdoutData [Byte.x68]; GitShow.StdoutData [Byte.x69];
     GitShow.Close (Some 0%Z); GitShow.ProcError].

(** A process that is still running: output, but no [close] yet. *)
Definition spawn_running (workdir : string) (args : list string)
    (options : GitShow.SpawnOptions) : GitShow.Spawn :=
  GitShow.Spawned [GitShow.StdoutData [Byte.x68]].

(** A decoder that knows every encoding and answers with its name. *)
Definition decode_stub (buffer : GitShow.Buffer) (encoding : string) : Outcome string :=
  Returned encoding.

(** [spawn] refuses an argument with a NUL byte, as for the ref [HEAD:a\0b]. *)
Definition spawn_nul (workdir : string) (args : list string)
    (options : GitShow.SpawnOptions) : GitShow.Spawn :=
  GitShow.SpawnThrew "The argument 'args[1]' must be a string without null bytes".

(** A blob of HZ text, [~{<:~}], printed by [git show] with exit code 0. *)
Definition hz_blob : GitShow.Buffer :=
  [Byte.x7e; Byte.x7b; Byte.x3c; Byte.x3a; Byte.x7e; Byte.x7d].

Definition spawn_hz (workdir : string) (args : list string)
    (options : GitShow.SpawnOptions) : GitShow.Spawn :=
  GitShow.Spawned [GitShow.StdoutData hz_blob; GitShow.Close (Some 0%Z)].

(** The detector reports HZ for that blob. *)
Definition detect_hz (buffer : GitShow.Buffer) : option string := Some "HZ-GB-2312".

(** A decoder that, like iconv-lite, does not know HZ. *)
Definition decode_no_hz (buffer : GitShow.Buffer) (encoding : string) : Outcome string :=
  if String.eqb encoding "HZ-GB-2312"
  then Threw "Encoding not recognized: 'HZ-GB-2312' (searched as: 'hzgb2312')"
  else Returned "decoded".

(** A merge of [/repo-feature] into [main] that asks for both deletions. *)
Definition request : WorktreeMergeOptions :=
  mkMergeOptions "/repo-feature" "main" StrategyMerge None None
                 (Some true) (Some true) (Some true).

Definition conflicted : WorktreeMergeResult :=
  mkMergeResult true false (Some [mkConflict "README.md" CtContent]) None None None
                (Some StashNone) (Some Stashed) (Some "/repo") (Some "/repo-feature").

Definition still_conflicted : WorktreeMergeResult :=
  mkMergeResult false false (Some [mkConflict "README.md" CtContent]) None
                (Some "unresolved conflicts remain") None None None None None.

Definition merged_ok : WorktreeMergeResult :=
  mkMergeResult true true None (Some "abc1234") None None
                (Some StashNone) (Some StashApplied) (Some "/repo") (Some "/repo-feature").

(** A main process that only counts the files still in conflict:
    [continueMerge] fails while the count is positive. *)
Definition engine : App.MergeApi nat :=
  App.mkApi nat
    (fun _ _ n => (Returned conflicted, 1))
    (fun _ _ _ n => (Returned tt, pred n))
    (fun _ n => (Returned tt, 0))
    (fun _ _ _ n =>
       match n with
       | O => (Returned merged_ok, 0)
       | S _ => (Returned still_conflicted, n)
       end).

(** A main process that keeps the [cleanupOptions] it was handed, latest
    first. *)
Definition engine_recording
  : App.MergeApi (list (option WorktreeMergeCleanupOptions)) :=
  App.mkApi (list (option WorktreeMergeCleanupOptions))
    (fun _ _ seen => (Returned conflicted, seen))
    (fun _ _ _ seen => (Returned tt, seen))
    (fun _ seen => (Returned tt, seen))
    (fun _ _ cleanupOptions seen => (Returned merged_ok, cleanupOptions :: seen)).

Definition feature_worktree : Worktree :=
  mkWt "/repo-feature" "2222" (Some "feature") false false false.

Definition main_worktree : Worktree :=
  mkWt "/repo" "1111" (Some "main") true false false.

(** [/repo] with the linked worktree [/repo-feature], which has
    uncommitted changes. *)
Definition world0 : MergeEngine.World :=
  MergeEngine.mkWorld [main_worktree; feature_worktree] ["main"; "feature"] None
                      ["/repo-feature"] [].

(** A Git in which merging [feature] conflicts in [README.md] and every
    other command goes through. *)
Definition git_conflicting : MergeEngine.Runner :=
  MergeEngine.mkRunner
    (fun _ _ _ => MergeEngine.Conflicting [mkConflict "README.md" CtContent])
    (fun _ _ => None)
    (fun _ _ => false)
    (fun _ _ => Returned "abc1234")
    (fun _ _ => None)
    (fun _ _ => None).

(** The merge dialog is open on [/repo-feature] of the selected [/repo]. *)
Definition ui0 : App.Ui :=
  App.mkUi (Some "/repo") true (Some feature_worktree) None None [].

(** Nothing is selected. *)
Definition ui_idle : App.Ui := App.mkUi None false None None None [].

Definition tr (key : string) : string := key.

(** A main process that rejects every call. *)
Definition engine_down : App.MergeApi nat :=
  App.mkApi nat
    (fun _ _ n => (Threw "ipc failed", n))
    (fun _ _ _ n => (Threw "ipc failed", n))
    (fun _ n => (Threw "ipc failed", n))
    (fun _ _ _ n => (Threw "ipc failed", n)).

(** A main process that serves the remove call with [WorktreeService]. *)
Definition remove_service (workdir : string)
    (options : WorktreeService.WorktreeRemoveOptions) (st : Git.St Repo)
  : Outcome unit * Git.St Repo :=
  WorktreeService.remove git options st.

(** A linked worktree whose directory is gone. *)
Definition stale_worktree : Worktree :=
  mkWt "/repo-feature" "2222" (Some "feature") false false true.

(** [/repo] is selected and [/repo-feature] is the active worktree. *)
Definition ui_removal : Removal.Ui :=
  Removal.mkUi (Some "/repo") (Some feature_worktree) 0 [].

(** A [git] that refuses to remove a dirty worktree. *)
Definition refuse_dirty (workdir : string)
    (options : WorktreeService.WorktreeRemoveOptions) (st : unit)
  : Outcome unit * unit :=
  (Threw "fatal: '/repo-feature' contains modified or untracked files, use --force to delete it", st).

(** A disk that holds one file and accepts every write: the files written
    so far, latest first. *)
Definition disk_read (p : string) (written : list (string * string))
  : Outcome string * list (string * string) :=
  if String.eqb p "/repo/a.ts" then (Returned "let a", written)
  else (Threw "ENOENT", written).

Definition disk_write (p text : string) (written : list (string * string))
  : Outcome unit * list (string * string) :=
  (Returned tt, (p, text) :: written).

(** One tab with unsaved text. *)
Definition editing : EditorStore.EditorState :=
  EditorStore.updateFileContent "/repo/a.ts" "let b" None
    (EditorStore.openFile
       (EditorStore.mkOpen "/repo/a.ts" "let a" false None None None None None)
       EditorStore.initial).

(** Three clean tabs; the one opened last is active. *)
Definition three_tabs : EditorStore.EditorState :=
  EditorStore.openFile
    (EditorStore.mkOpen "/repo/c.ts" "let c" false None None None None None)
    (EditorStore.openFile
       (EditorStore.mkOpen "/repo/b.ts" "let b" false None None None None None)
       (EditorStore.openFile
          (EditorStore.mkOpen "/repo/a.ts" "let a" false None None None None None)
          EditorStore.initial)).

(** A workspace with one repository. *)
Definition workspace : Repositories.Ui :=
  Repositories.mkUi [Repositories.mkRepository "repo" "/home/me/repo" None]
                    (Some "/home/me/repo") None "terminal".

(** The snapshot [handleMergeConflicts] stores for [request] in [ui0]. *)
Definition snapshot : WorktreeMergeCleanupOptions :=
  mkCleanup (Some "/repo-feature") (Some "feature") (Some true) (Some true).

(** The conflict editor is open; the merge dialog has since been pointed
    at nothing. *)
Definition ui_conflicted : App.Ui :=
  App.mkUi (Some "/repo") false None (Some conflicted) (Some snapshot) [].

(** A listing whose [HEAD] points at a ref outside [refs/heads/]. *)
Definition odd_ref : string :=
  "worktree /repo" ++ nl ++ "HEAD 1111" ++ nl
  ++ "branch refs/remotes/refs/heads/topic" ++ nl.

End Scenario.

(** * Properties *)

(** ** String primitives *)

Section JsFacts.
Import Js.

Lemma split_nonempty sep s : split sep s <> [].
Proof.
  destruct s as [|c s]; simpl; [discriminate|].
  destruct (Ascii.eqb c sep); [discriminate|].
  destruct (split sep s); discriminate.
Qed.

(** Splitting a text with a separator inserted splits both halves. *)
Lemma split_app sep a b :
  split sep (a ++ String sep b) = split sep a ++ split sep b.
Proof.
  induction a as [|c a IH]; simpl.
  - now rewrite Ascii.eqb_refl.
  - destruct (Ascii.eqb c sep); [now rewrite IH|].
    rewrite IH. destruct (split sep a) eqn:E; [|reflexivity].
    now apply split_nonempty in E.
Qed.

Lemma substring_from_append p s :
  substring_from (String.length p) (p ++ s) = s.
Proof. induction p; simpl; auto. Qed.

Lemma prefix_append p s : String.prefix p (p ++ s) = true.
Proof.
  induction p as [|c p IH]; simpl; [now destruct s|].
  destruct (ascii_dec c c); [assumption|congruence].
Qed.

Lemma replace_unfold pat rep s :
  replace pat rep s =
  if String.prefix pat s then (rep ++ substring_from (String.length pat) s)%string
  else match s with
       | EmptyString => EmptyString
       | String c s' => String c (replace pat rep s')
       end.
Proof. destruct s; reflexivity. Qed.

(** A pattern at the very start is the occurrence [replace] removes. *)
Lemma replace_leading pat s : replace pat "" (pat ++ s) = s.
Proof.
  rewrite replace_unfold, prefix_append. simpl. apply substring_from_append.
Qed.

End JsFacts.

(** ** The porcelain parser *)

Section ParserFacts.
Import Js WorktreeService.

Lemma nonmain_not_main w : nonmain w -> is_main w = false.
Proof. unfold nonmain, is_main. now intros ->. Qed.

(** A [worktree ] line closes the current record and opens a fresh one;
    any other line leaves the array and the current path alone, and only
    [bare] touches [isMainWorktree]. *)
Lemma step_cases st l :
  (startsWith "worktree " l = true /\
   step st l = (emitted st, fresh (substring_from 9 l)))
  \/
  (startsWith "worktree " l = false /\
   fst (step st l) = fst st /\
   path (snd (step st l)) = path (snd st) /\
   (l <> "bare" -> isMainWorktree (snd (step st l)) = isMainWorktree (snd st))).
Proof.
  destruct st as [wts c]. unfold step, emitted.
  destruct (startsWith "worktree " l); [left; auto|right].
  split; [reflexivity|].
  destruct (startsWith "HEAD " l); [simpl; auto|].
  destruct (startsWith "branch " l); [simpl; auto|].
  destruct (String.eqb_spec l "bare"); [simpl; intuition congruence|].
  destruct (l =? "locked"); [simpl; auto|].
  destruct (l =? "prunable"); simpl; auto.
Qed.

Lemma record_line_prefix l : is_record_line l = true -> startsWith "worktree " l = true.
Proof. unfold is_record_line. now intros [H _]%andb_prop. Qed.

Lemma record_line_truthy l :
  startsWith "worktree " l = true ->
  truthy (Some (substring_from 9 l)) = is_record_line l.
Proof. unfold is_record_line. now intros ->. Qed.

Lemma emitted_paths wts c c' :
  path c' = path c ->
  map path (push_current wts c') = map path (push_current wts c).
Proof.
  unfold push_current. intros H. rewrite H.
  destruct (truthy (path c)); [|reflexivity].
  rewrite !map_app. simpl. congruence.
Qed.

(** Each line adds at most the path it announces. *)
Lemma step_paths st l :
  map path (emitted (step st l)) =
  map path (emitted st)
    ++ (if is_record_line l then [Some (substring_from 9 l)] else []).
Proof.
  destruct (step_cases st l) as [[Hp ->]|(Hp & Hf & Hc & _)].
  - rewrite <- (record_line_truthy l Hp).
    unfold emitted at 1. unfold push_current at 1. cbn [fst snd path fresh].
    destruct (truthy (Some (substring_from 9 l))).
    + now rewrite map_app.
    + now rewrite app_nil_r.
  - unfold is_record_line. rewrite Hp. cbn [andb]. rewrite app_nil_r.
    unfold emitted. rewrite Hf. now apply emitted_paths.
Qed.

Lemma loop_paths lines : forall st,
  map path (emitted (loop lines st)) =
  map path (emitted st)
    ++ map (fun l => Some (substring_from 9 l)) (filter is_record_line lines).
Proof.
  induction lines as [|l ls IH]; intros st; cbn [loop fold_left filter map].
  - now rewrite app_nil_r.
  - fold (loop ls (step st l)). rewrite IH, step_paths.
    rewrite <- app_assoc. f_equal.
    now destruct (is_record_line l).
Qed.

Lemma mark_first_paths wts : map path (mark_first wts) = map path wts.
Proof. now destruct wts. Qed.

Lemma parse_lines_paths lines :
  map path (parse_lines lines) =
  map (fun l => Some (substring_from 9 l)) (filter is_record_line lines).
Proof.
  unfold parse_lines, finish. fold (emitted (loop lines ([], empty))).
  now rewrite mark_first_paths, loop_paths.
Qed.

(** Lines read while no record with a path is open leave no trace. *)
Lemma loop_pathless pre : forall wts c,
  truthy (path c) = false ->
  Forall (fun l => is_record_line l = false) pre ->
  exists c', loop pre (wts, c) = (wts, c') /\ truthy (path c') = false.
Proof.
  induction pre as [|l ls IH]; intros wts c Hc Hpre; cbn [loop fold_left].
  - eauto.
  - inversion Hpre as [|? ? Hl Hls]; subst.
    fold (loop ls (step (wts, c) l)).
    destruct (step_cases (wts, c) l) as [[Hp ->]|(Hp & Hf & Hpath & _)].
    + unfold emitted, push_current. cbn [fst snd]. rewrite Hc.
      apply IH; [|assumption].
      cbn [path fresh]. rewrite (record_line_truthy l Hp). exact Hl.
    + destruct (step (wts, c) l) as [wts' c'] eqn:E. cbn [fst snd] in *. subst wts'.
      apply IH; [|assumption]. now rewrite Hpath.
Qed.

Lemma emitted_pathless_irrelevant lines : forall wts c1 c2,
  truthy (path c1) = false -> truthy (path c2) = false ->
  emitted (loop lines (wts, c1)) = emitted (loop lines (wts, c2)).
Proof.
  induction lines as [|l ls IH]; intros wts c1 c2 H1 H2; cbn [loop fold_left].
  - unfold emitted, push_current. cbn [fst snd]. now rewrite H1, H2.
  - fold (loop ls (step (wts, c1) l)). fold (loop ls (step (wts, c2) l)).
    destruct (step_cases (wts, c1) l) as [[Hp E1]|(Hp & Hf1 & Hq1 & _)];
      destruct (step_cases (wts, c2) l) as [[Hp' E2]|(Hp' & Hf2 & Hq2 & _)];
      try congruence.
    + rewrite E1, E2. unfold emitted, push_current. cbn [fst snd].
      now rewrite H1, H2.
    + destruct (step (wts, c1) l) as [w1 d1]. destruct (step (wts, c2) l) as [w2 d2].
      cbn [fst snd] in *. subst w1 w2. apply IH; congruence.
Qed.

Lemma parse_lines_discard pre rest :
  Forall (fun l => is_record_line l = false) pre ->
  parse_lines (pre ++ rest) = parse_lines rest.
Proof.
  intros Hpre. unfold parse_lines, finish, loop. rewrite fold_left_app.
  destruct (loop_pathless pre [] empty eq_refl Hpre) as (c' & E & Hc').
  unfold loop in E. rewrite E.
  change (mark_first (emitted (loop rest ([], c'))) =
          mark_first (emitted (loop rest ([], empty)))).
  f_equal. now apply emitted_pathless_irrelevant.
Qed.

End ParserFacts.

(** ** Which entries are marked as main *)

Section MainFacts.
Import Js WorktreeService.

Lemma push_current_prefix p wts c :
  push_current (p ++ wts) c = p ++ push_current wts c.
Proof. unfold push_current. destruct (truthy (path c)); auto using app_assoc. Qed.

(** Entries already in the array are never revisited by the loop. *)
Lemma loop_prefix lines : forall p wts c,
  loop lines (p ++ wts, c) =
  (p ++ fst (loop lines (wts, c)), snd (loop lines (wts, c))).
Proof.
  induction lines as [|l ls IH]; intros p wts c; cbn [loop fold_left].
  - reflexivity.
  - fold (loop ls (step (p ++ wts, c) l)). fold (loop ls (step (wts, c) l)).
    assert (E : step (p ++ wts, c) l = (p ++ fst (step (wts, c) l), snd (step (wts, c) l))).
    { unfold step.
      repeat match goal with
             | |- context [if ?b then _ else _] => destruct b
             end; cbn [fst snd]; try reflexivity.
      now rewrite push_current_prefix. }
    rewrite E. destruct (step (wts, c) l) as [w1 c1]. cbn [fst snd]. apply IH.
Qed.

Lemma emitted_prefix lines p c :
  emitted (loop lines (p, c)) = p ++ emitted (loop lines ([], c)).
Proof.
  rewrite <- (app_nil_r p) at 1. rewrite loop_prefix.
  unfold emitted. cbn [fst snd]. apply push_current_prefix.
Qed.

Lemma fresh_nonmain p : nonmain (fresh p).
Proof. reflexivity. Qed.

(** Without a [bare] line no record becomes main inside the loop. *)
Lemma loop_nonmain lines : forall wts c,
  Forall (fun l => l <> "bare") lines ->
  Forall nonmain wts -> nonmain c ->
  Forall nonmain (emitted (loop lines (wts, c))).
Proof.
  induction lines as [|l ls IH]; intros wts c Hl Hw Hc; cbn [loop fold_left].
  - unfold emitted, push_current. cbn [fst snd].
    destruct (truthy (path c)); [|assumption].
    apply Forall_app. split; [assumption|now constructor].
  - inversion Hl as [|? ? Hb Hls]; subst.
    fold (loop ls (step (wts, c) l)).
    destruct (step_cases (wts, c) l) as [[_ ->]|(_ & Hf & _ & Hm)].
    + apply IH; [assumption| |apply fresh_nonmain].
      unfold emitted, push_current. cbn [fst snd].
      destruct (truthy (path c)); [|assumption].
      apply Forall_app. split; [assumption|now constructor].
    + destruct (step (wts, c) l) as [w1 c1]. cbn [fst snd] in *. subst w1.
      apply IH; [assumption|assumption|].
      unfold nonmain in *. now rewrite (Hm Hb).
Qed.

(** An open record with a path is emitted ahead of everything that
    follows; the entries after it are non-main once the [bare] lines are
    confined to its own block. *)
Lemma loop_open lines : forall c,
  truthy (path c) = true ->
  exists x xs,
    emitted (loop lines ([], c)) = x :: xs /\ path x = path c /\
    (forall block rest,
        lines = block ++ rest ->
        Forall (fun l => startsWith "worktree " l = false) block ->
        Forall (fun l => l <> "bare") rest ->
        Forall nonmain xs).
Proof.
  induction lines as [|l ls IH]; intros c Hc; cbn [loop fold_left].
  - exists c, []. unfold emitted, push_current. cbn [fst snd]. rewrite Hc.
    repeat split; auto.
  - fold (loop ls (step ([], c) l)).
    destruct (step_cases ([], c) l) as [[Hp ->]|(Hp & Hf & Hq & _)].
    + assert (Ec : emitted ([], c) = [c]).
      { unfold emitted, push_current. cbn [fst snd]. now rewrite Hc. }
      rewrite Ec, emitted_prefix. cbn [app].
      exists c, (emitted (loop ls ([], fresh (substring_from 9 l)))).
      repeat split; auto.
      intros block rest E Hblock Hrest.
      destruct block as [|b bs]; cbn [app] in E.
      * subst rest. inversion Hrest; subst.
        apply loop_nonmain; auto. apply fresh_nonmain.
      * injection E as -> _. inversion Hblock; subst. congruence.
    + destruct (step ([], c) l) as [w1 c1]. cbn [fst snd] in *. subst w1.
      destruct (IH c1) as (x & xs & E & Hx & Hrest); [now rewrite Hq|].
      exists x, xs. repeat split; [assumption|congruence|].
      intros block rest E' Hblock Hnb.
      destruct block as [|b bs]; cbn [app] in E'.
      * subst rest. inversion Hnb; subst. now apply (Hrest [] ls).
      * injection E' as _ ->. inversion Hblock; subst. now apply (Hrest bs rest).
Qed.

Lemma filter_nonmain xs : Forall nonmain xs -> filter is_main xs = [].
Proof.
  induction 1 as [|x xs Hx _ IH]; [reflexivity|].
  cbn [filter]. now rewrite (nonmain_not_main x Hx).
Qed.

(** The parse of a listing whose first record line is [wl]. *)
Lemma parse_lines_first pre wl tail :
  Forall (fun l => is_record_line l = false) pre ->
  is_record_line wl = true ->
  exists x xs,
    parse_lines (pre ++ wl :: tail) = set_main x :: xs /\
    path x = Some (substring_from 9 wl) /\
    (forall block rest,
        tail = block ++ rest ->
        Forall (fun l => startsWith "worktree " l = false) block ->
        Forall (fun l => l <> "bare") rest ->
        Forall nonmain xs).
Proof.
  intros Hpre Hwl. rewrite (parse_lines_discard pre _ Hpre).
  unfold parse_lines, finish. cbn [loop fold_left].
  fold (loop tail (step ([], empty) wl)).
  destruct (step_cases ([], empty) wl) as [[Hp ->]|(Hp & _)];
    [|rewrite (record_line_prefix wl Hwl) in Hp; discriminate].
  change (emitted ([], empty)) with (@nil GitWorktree).
  destruct (loop_open tail (fresh (substring_from 9 wl))) as (x & xs & E & Hx & Hxs).
  { cbn [path fresh]. now rewrite (record_line_truthy wl Hp). }
  exists x, xs. fold (emitted (loop tail ([], fresh (substring_from 9 wl)))).
  rewrite E. repeat split; auto.
Qed.

End MainFacts.

(** ** [WorktreeService.list] *)

Section ListFacts.
Import Js Async WorktreeService.
Variable World : Type.
Variable exec : list string -> World -> (string + string) * World.

(** Once [git] has printed [result], [list()] returns its parse. *)
Lemma list_returns w w' log result :
  exec list_args w = (inr result, w') ->
  list_ exec (w, log) = (Returned (parse result), (w', log ++ [list_args])).
Proof.
  intros E. unfold list_, bind, Git.raw, ret. now rewrite E.
Qed.

(** A rejected [git] call rejects [list()]. *)
Lemma list_throws w w' log err :
  exec list_args w = (inl err, w') ->
  list_ exec (w, log) = (Threw err, (w', log ++ [list_args])).
Proof.
  intros E. unfold list_, bind, Git.raw, ret. now rewrite E.
Qed.

(** C10: [list()] emits one record per input line that begins with
    [worktree ] and has a non-empty remainder, in input order, the path of
    each being that remainder; whatever lines precede the first such line
    (among them [HEAD ], [branch ], [bare], [locked], [prunable] and
    [worktree ] lines with an empty path) are discarded: the result is the
    one obtained without them. *)
Theorem list_emits_record_lines w w' log result :
  exec list_args w = (inr result, w') ->
  list_ exec (w, log) = (Returned (parse result), (w', log ++ [list_args])) /\
  List.length (parse result)
    = List.length (filter is_record_line (split newline result)) /\
  map path (parse result) =
    map (fun l => Some (substring_from 9 l))
        (filter is_record_line (split newline result)) /\
  (forall pre rest,
      result = (pre ++ String newline rest)%string ->
      Forall (fun l => is_record_line l = false) (split newline pre) ->
      parse result = parse rest).
Proof.
  intros E. split; [now apply list_returns|]. split; [|split].
  - rewrite <- (length_map path), <- (length_map (fun l => Some (substring_from 9 l))).
    f_equal. apply parse_lines_paths.
  - apply parse_lines_paths.
  - intros pre rest -> Hpre. unfold parse. rewrite split_app.
    now apply parse_lines_discard.
Qed.

(** C2 (amended): for a listing with at least one record, [list()] returns
    the first record first and with [isMainWorktree = true], wherever
    [bare] lines stand; and exactly one entry has [isMainWorktree = true]
    when no [bare] line stands in a later record, that is, after the next
    [worktree ] line that follows the first record's line. *)
Theorem list_first_record_is_main w w' log result pre wl tail :
  exec list_args w = (inr result, w') ->
  split newline result = pre ++ wl :: tail ->
  Forall (fun l => is_record_line l = false) pre ->
  is_record_line wl = true ->
  exists first others,
    list_ exec (w, log) = (Returned (first :: others), (w', log ++ [list_args])) /\
    path first = Some (substring_from 9 wl) /\
    isMainWorktree first = Some true /\
    (forall block rest,
        tail = block ++ rest ->
        Forall (fun l => startsWith "worktree " l = false) block ->
        Forall (fun l => l <> "bare") rest ->
        List.length (filter is_main (first :: others)) = 1).
Proof.
  intros E Hsplit Hpre Hwl.
  destruct (parse_lines_first pre wl tail Hpre Hwl) as (x & xs & Hp & Hx & Hxs).
  exists (set_main x), xs. rewrite (list_returns w w' log result E).
  unfold parse. rewrite Hsplit, Hp. repeat split; auto.
  intros block rest Ht Hb Hr. cbn [filter].
  change (is_main (set_main x)) with true. cbn [List.length].
  now rewrite (filter_nonmain xs (Hxs block rest Ht Hb Hr)).
Qed.

End ListFacts.

(** A stray [HEAD ] line ahead of the scenario's listing. *)
Lemma list_emits_record_lines_witness :
  map WorktreeService.path
      (WorktreeService.parse ("HEAD 0000" ++ String Js.newline Scenario.listing))
    = [Some "/repo"; Some "/repo-feature"] /\
  WorktreeService.parse ("HEAD 0000" ++ String Js.newline Scenario.listing)
    = WorktreeService.parse Scenario.listing.
Proof.
  destruct (list_emits_record_lines unit
              (Scenario.canned ("HEAD 0000" ++ String Js.newline Scenario.listing))
              tt tt [] _ eq_refl)
    as (_ & _ & Hpaths & Hdiscard).
  split.
  - rewrite Hpaths. reflexivity.
  - apply (Hdiscard "HEAD 0000" Scenario.listing eq_refl). repeat constructor.
Defined.

Ltac forall_lines :=
  repeat first
    [ apply Forall_nil
    | apply Forall_cons; [first [reflexivity | discriminate]|] ].

(** The scenario's listing has no [bare] line at all. *)
Lemma list_first_record_is_main_witness :
  exists first others,
    WorktreeService.list_ Scenario.git (Scenario.repo0, [])
      = (Async.Returned (first :: others),
         (Scenario.repo0, [WorktreeService.list_args])) /\
    WorktreeService.path first = Some "/repo" /\
    WorktreeService.isMainWorktree first = Some true /\
    List.length (filter WorktreeService.is_main (first :: others)) = 1.
Proof.
  destruct (list_first_record_is_main Scenario.Repo Scenario.git
              Scenario.repo0 Scenario.repo0 [] Scenario.listing
              [] "worktree /repo"
              ["HEAD 1111"; "branch refs/heads/main"; "";
               "worktree /repo-feature"; "HEAD 2222";
               "branch refs/heads/feature"; ""; ""]
              eq_refl eq_refl (Forall_nil _) eq_refl)
    as (first & others & E & Hp & Hm & Hone).
  exists first, others. repeat split; try assumption.
  apply (Hone ["HEAD 1111"; "branch refs/heads/main"; ""]
              ["worktree /repo-feature"; "HEAD 2222";
               "branch refs/heads/feature"; ""; ""] eq_refl); forall_lines.
Defined.

(** C2 (as stated) fails: with a [bare] line in the second record, the
    listing has records, yet two entries of the returned array have
    [isMainWorktree = true]. *)
Lemma list_bare_in_later_record :
  WorktreeService.list_ (Scenario.canned Scenario.bare_second) (tt, [])
    = (Async.Returned (WorktreeService.parse Scenario.bare_second),
       (tt, [WorktreeService.list_args])) /\
  map WorktreeService.path (WorktreeService.parse Scenario.bare_second)
    = [Some "/repo"; Some "/mirror"] /\
  map WorktreeService.isMainWorktree (WorktreeService.parse Scenario.bare_second)
    = [Some true; Some true] /\
  List.length (filter WorktreeService.is_main
                 (WorktreeService.parse Scenario.bare_second)) <> 1.
Proof. repeat split; try reflexivity. vm_compute. discriminate. Qed.

(** ** The stored branch name *)

Section BranchFacts.
Import Js WorktreeService.

(** A ref under [refs/heads/] is stored without that prefix. *)
Lemma branch_of_line_leading name :
  branch_of_line ("branch refs/heads/" ++ name) = name.
Proof.
  unfold branch_of_line.
  change (substring_from 7 ("branch refs/heads/" ++ name))
    with ("refs/heads/" ++ name)%string.
  apply replace_leading.
Qed.

(** The record open at a [branch ] line takes the name computed from it. *)
Lemma step_branch wts c l :
  startsWith "worktree " l = false -> startsWith "HEAD " l = false ->
  startsWith "branch " l = true ->
  step (wts, c) l = (wts, set_branch (branch_of_line l) c).
Proof. intros H1 H2 H3. unfold step. now rewrite H1, H2, H3. Qed.

End BranchFacts.

(** C7 (the code at the failing input): the ref of this [branch ] line does
    not start with [refs/heads/], yet it is not stored unchanged: the
    occurrence of [refs/heads/] inside it is removed. *)
Lemma list_branch_inner_occurrence :
  Js.startsWith "refs/heads/" "refs/remotes/refs/heads/topic" = false /\
  WorktreeService.branch_of_line "branch refs/remotes/refs/heads/topic"
    = "refs/remotes/topic" /\
  WorktreeService.list_ (Scenario.canned Scenario.odd_ref) (tt, [])
    = (Async.Returned
         [WorktreeService.mkWorktree (Some "/repo") (Some "1111")
            (Some "refs/remotes/topic") (Some true) (Some false) (Some false)],
       (tt, [WorktreeService.list_args])).
Proof. repeat split; reflexivity. Qed.

(** ** [WorktreeService.remove] *)

Section RemoveFacts.
Import Js Async WorktreeService.
Variable World : Type.
Variable exec : list string -> World -> (string + string) * World.

Lemma remove_args_shape options :
  remove_args options =
  if truthyb (rm_force options)
  then ["worktree"; "remove"; "--force"; rm_path options]
  else ["worktree"; "remove"; rm_path options].
Proof. unfold remove_args. now destruct (truthyb (rm_force options)). Qed.

Lemma wants_branch_delete_iff options :
  wants_branch_delete options = true <->
  rm_deleteBranch options = Some true /\
  exists b, rm_branch options = Some b /\ b <> "".
Proof.
  unfold wants_branch_delete, truthyb, truthy.
  destruct (rm_deleteBranch options) as [[|]|], (rm_branch options) as [b|];
    cbn [andb]; split;
    try (intros H; discriminate H);
    try (intros [H _]; discriminate H);
    try (intros [_ (b' & H & _)]; discriminate H).
  - intros H. split; [reflexivity|]. exists b. split; [reflexivity|].
    intros ->. discriminate H.
  - intros [_ (b' & [= <-] & Hb)].
    destruct (String.eqb_spec b ""); [contradiction|reflexivity].
Qed.

(** C4: [remove(options)] first runs [worktree remove [--force] path]; a
    failure of that command is rethrown and nothing else is run.  After it
    succeeded, [branch -D branch] is run exactly when [options.deleteBranch]
    and [options.branch] are both set.  The two commands are not atomic:
    when the branch deletion fails, its error is rethrown, the repository is
    the one the failed command left behind after the removal, and no
    further command is issued to restore the worktree. *)
Theorem remove_then_delete_branch options w log :
  let cmd := if truthyb (rm_force options)
             then ["worktree"; "remove"; "--force"; rm_path options]
             else ["worktree"; "remove"; rm_path options] in
  (forall err w1,
      exec cmd w = (inl err, w1) ->
      remove exec options (w, log) = (Threw err, (w1, log ++ [cmd]))) /\
  (forall out w1,
      exec cmd w = (inr out, w1) ->
      (~ (rm_deleteBranch options = Some true /\
          exists b, rm_branch options = Some b /\ b <> "") ->
       remove exec options (w, log) = (Returned tt, (w1, log ++ [cmd]))) /\
      (forall b,
          rm_deleteBranch options = Some true ->
          rm_branch options = Some b -> b <> "" ->
          (forall out2 w2,
              exec ["branch"; "-D"; b] w1 = (inr out2, w2) ->
              remove exec options (w, log)
                = (Returned tt, (w2, log ++ [cmd; ["branch"; "-D"; b]]))) /\
          (forall err w2,
              exec ["branch"; "-D"; b] w1 = (inl err, w2) ->
              remove exec options (w, log)
                = (Threw err, (w2, log ++ [cmd; ["branch"; "-D"; b]]))))).
Proof.
  intros cmd. subst cmd. rewrite <- remove_args_shape.
  split; [|intros out w1 H; split].
  - intros err w1 E. unfold remove, bind, Git.raw. now rewrite E.
  - intros Hno. unfold remove, bind, Git.raw. rewrite H.
    destruct (wants_branch_delete options) eqn:Ew; [|reflexivity].
    now apply wants_branch_delete_iff in Ew.
  - intros b Hd Hb Hne.
    assert (Ew : wants_branch_delete options = true).
    { apply wants_branch_delete_iff. eauto. }
    assert (Eb : or_else (rm_branch options) "" = b).
    { unfold or_else, truthy. rewrite Hb.
      destruct (String.eqb_spec b ""); [contradiction|reflexivity]. }
    split; intros r w2 E2; unfold remove, bind, Git.raw;
      rewrite H, Ew, Eb; unfold branch_delete_args; rewrite E2;
      unfold ret; now rewrite <- app_assoc.
Qed.

End RemoveFacts.

(** In the scenario the branch [feature] does not exist: the worktree is
    removed, the branch deletion fails, and the worktree stays removed. *)
Lemma remove_then_delete_branch_witness :
  WorktreeService.remove Scenario.git
    (WorktreeService.mkRemove "/repo-feature" None (Some true) (Some "feature"))
    (Scenario.repo0, [])
  = (Async.Threw "error: branch not found",
     (Scenario.mkRepo [] ["main"],
      [["worktree"; "remove"; "/repo-feature"]; ["branch"; "-D"; "feature"]])).
Proof.
  destruct (remove_then_delete_branch Scenario.Repo Scenario.git
              (WorktreeService.mkRemove "/repo-feature" None (Some true) (Some "feature"))
              Scenario.repo0 []) as (_ & Hok).
  destruct (Hok "" (Scenario.mkRepo [] ["main"]) eq_refl) as (_ & Hdel).
  destruct (Hdel "feature" eq_refl eq_refl) as (_ & Hfail); [discriminate|].
  exact (Hfail "error: branch not found" (Scenario.mkRepo [] ["main"]) eq_refl).
Defined.

(** ** [gitShowBuffer] and [gitShow] *)

Section ShowFacts.
Import Js Async GitShow.
Variable spawnGit : string -> list string -> SpawnOptions -> Spawn.
Variable detect : Buffer -> option string.
Variable iconv_decode : Buffer -> string -> Outcome string.

(** A settled promise stays as it is whatever the process still emits. *)
Lemma dispatch_settled x ev :
  promise x <> Pending -> promise (dispatch x ev) = promise x.
Proof.
  intros Hs. destruct ev as [chunk|code|]; cbn [dispatch]; unfold on_data, on_close, on_error.
  - reflexivity.
  - destruct (code_nonzero code || Nat.eqb (List.length (chunks x)) 0);
      cbn [promise]; destruct (promise x); try reflexivity; contradiction.
  - cbn [promise]. destruct (promise x); try reflexivity; contradiction.
Qed.

Lemma run_settled evs : forall x,
  promise x <> Pending -> promise (fold_left dispatch evs x) = promise x.
Proof.
  induction evs as [|ev evs IH]; intros x Hs; cbn [fold_left]; [reflexivity|].
  rewrite IH; rewrite dispatch_settled; auto.
Qed.

(** Output is only collected. *)
Lemma run_data cs : forall acc,
  fold_left dispatch (map StdoutData cs) (mkExecutor acc Pending)
  = mkExecutor (acc ++ cs) Pending.
Proof.
  induction cs as [|c cs IH]; intros acc; cbn [map fold_left dispatch].
  - now rewrite app_nil_r.
  - unfold on_data. cbn [chunks promise]. rewrite IH. now rewrite <- app_assoc.
Qed.

(** No listener rejects. *)
Lemma dispatch_not_rejected x ev :
  (forall r, promise x <> Rejected r) ->
  forall r, promise (dispatch x ev) <> Rejected r.
Proof.
  intros Hx r. destruct ev as [chunk|code|]; cbn [dispatch]; unfold on_data, on_close, on_error.
  - apply Hx.
  - destruct (code_nonzero code || Nat.eqb (List.length (chunks x)) 0);
      cbn [promise]; specialize (Hx r); destruct (promise x); cbn [resolve];
      congruence.
  - cbn [promise]. specialize (Hx r). destruct (promise x); cbn [resolve]; congruence.
Qed.

Lemma run_not_rejected evs : forall x,
  (forall r, promise x <> Rejected r) ->
  forall r, promise (fold_left dispatch evs x) <> Rejected r.
Proof.
  induction evs as [|ev evs IH]; intros x Hx; cbn [fold_left]; [assumption|].
  apply IH. now apply dispatch_not_rejected.
Qed.

Lemma run_terminal cs t rest :
  is_terminal t = true ->
  promise (fold_left dispatch (map StdoutData cs ++ t :: rest) (mkExecutor [] Pending))
  = Resolved (settled_with cs t).
Proof.
  intros Ht. rewrite fold_left_app, run_data. cbn [app fold_left].
  rewrite run_settled.
  - destruct t as [chunk|code|]; [discriminate| |]; cbn [dispatch];
      unfold on_close, on_error, settled_with; cbn [chunks promise is_failure orb].
    + now destruct (code_nonzero code || Nat.eqb (List.length cs) 0).
    + reflexivity.
  - destruct t as [chunk|code|]; [discriminate| |]; cbn [dispatch];
      unfold on_close, on_error; cbn [chunks promise].
    + now destruct (code_nonzero code || Nat.eqb (List.length cs) 0).
    + discriminate.
Qed.

(** A run with a [close] or [error] event starts with output chunks
    followed by the first such event. *)
Lemma events_until_terminal evs :
  existsb is_terminal evs = true ->
  exists cs t rest, evs = map StdoutData cs ++ t :: rest /\ is_terminal t = true.
Proof.
  induction evs as [|ev evs IH]; cbn [existsb]; [discriminate|].
  destruct ev as [chunk|code|]; cbn [is_terminal orb].
  - intros (cs & t & rest & -> & Ht)%IH. now exists (chunk :: cs), t, rest.
  - intros _. now exists [], (Close code), evs.
  - intros _. now exists [], ProcError, evs.
Qed.

Lemma settled_with_empty cs t :
  is_failure t = true \/ buffer_concat cs = [] ->
  decodeBuffer detect iconv_decode (settled_with cs t) = Returned "".
Proof.
  unfold settled_with. intros [->| Hc]; [reflexivity|].
  destruct (is_failure t || Nat.eqb (List.length cs) 0); [reflexivity|].
  now rewrite Hc.
Qed.

Lemma settled_with_alloc0 cs t :
  is_failure t = true \/ buffer_concat cs = [] -> settled_with cs t = alloc0.
Proof.
  unfold settled_with. intros [->| Hc]; [reflexivity|].
  now destruct (is_failure t || Nat.eqb (List.length cs) 0).
Qed.

(** The buffer promise is settled by the first [close] or [error] event. *)
Lemma gitShowBuffer_settles workdir ref cs t rest :
  spawnGit workdir ["show"; ref] (mkSpawnOptions workdir true)
    = Spawned (map StdoutData cs ++ t :: rest) ->
  is_terminal t = true ->
  gitShowBuffer spawnGit workdir ref = Resolved (settled_with cs t).
Proof.
  intros E Ht. unfold gitShowBuffer. now rewrite E, (run_terminal cs t rest Ht).
Qed.

(** C6: for every workdir and ref, [gitShow] returns the empty string
    whenever the [git show] process produced no content: it ended with an
    [error] event or a non-zero exit code, or the bytes written to stdout
    before it closed are none. *)
Theorem gitShow_no_content_is_empty workdir ref cs t rest :
  spawnGit workdir ["show"; ref] (mkSpawnOptions workdir true)
    = Spawned (map StdoutData cs ++ t :: rest) ->
  is_terminal t = true ->
  is_failure t = true \/ buffer_concat cs = [] ->
  gitShow spawnGit detect iconv_decode workdir ref = Resolved "".
Proof.
  intros E Ht Hempty. unfold gitShow.
  rewrite (gitShowBuffer_settles workdir ref cs t rest E Ht). cbn [then_].
  now rewrite settled_with_empty.
Qed.

(** Once a process exists, the listeners never reject the buffer promise
    and settle it as soon as the process emits [close] or [error]; a
    failed command and empty output resolve to the empty buffer and the
    empty string. *)
Lemma gitShow_once_spawned workdir ref events :
  spawnGit workdir ["show"; ref] (mkSpawnOptions workdir true) = Spawned events ->
  (forall reason, gitShowBuffer spawnGit workdir ref <> Rejected reason) /\
  (existsb is_terminal events = true ->
   exists buffer, gitShowBuffer spawnGit workdir ref = Resolved buffer) /\
  (forall cs t rest,
      events = map StdoutData cs ++ t :: rest ->
      is_terminal t = true ->
      is_failure t = true \/ buffer_concat cs = [] ->
      gitShowBuffer spawnGit workdir ref = Resolved alloc0 /\
      gitShow spawnGit detect iconv_decode workdir ref = Resolved "").
Proof.
  intros E. split; [|split].
  - unfold gitShowBuffer. rewrite E. apply run_not_rejected. discriminate.
  - intros (cs & t & rest & -> & Ht)%events_until_terminal.
    exists (settled_with cs t). now apply (gitShowBuffer_settles workdir ref cs t rest).
  - intros cs t rest -> Ht Hempty. unfold gitShow.
    rewrite (gitShowBuffer_settles workdir ref cs t rest E Ht). cbn [then_].
    rewrite settled_with_empty by assumption.
    now rewrite settled_with_alloc0.
Qed.

End ShowFacts.

(** An absent stage: [git show :2:file] exits with 128 and prints nothing. *)
Lemma gitShow_no_content_is_empty_witness :
  GitShow.gitShow Scenario.spawn_absent Scenario.detect_none Scenario.decode_stub
    "/repo" ":2:README.md" = GitShow.Resolved "".
Proof.
  apply (gitShow_no_content_is_empty Scenario.spawn_absent Scenario.detect_none
           Scenario.decode_stub "/repo" ":2:README.md" [] (GitShow.Close (Some 128%Z)) []
           eq_refl eq_refl).
  left. reflexivity.
Defined.

(** C8 (the code at the failing inputs): [gitShow] is rejected for a blob
    whose detected encoding the decoder does not know, although [git show]
    exited with code 0; and both promises are rejected when [spawnGit]
    throws in the executor, here for a ref with a NUL byte. *)
Lemma gitShow_rejects_at_the_interface :
  GitShow.gitShowBuffer Scenario.spawn_hz "/repo" ":2:notes.txt"
    = GitShow.Resolved Scenario.hz_blob /\
  GitShow.gitShow Scenario.spawn_hz Scenario.detect_hz Scenario.decode_no_hz
    "/repo" ":2:notes.txt"
    = GitShow.Rejected "Encoding not recognized: 'HZ-GB-2312' (searched as: 'hzgb2312')" /\
  GitShow.gitShowBuffer Scenario.spawn_nul "/repo" ("HEAD:a" ++ String "000" "b")
    = GitShow.Rejected "The argument 'args[1]' must be a string without null bytes" /\
  GitShow.gitShow Scenario.spawn_nul Scenario.detect_none Scenario.decode_stub
    "/repo" ("HEAD:a" ++ String "000" "b")
    = GitShow.Rejected "The argument 'args[1]' must be a string without null bytes".
Proof. repeat split; reflexivity. Qed.

(** ** The merge handlers *)

Section HandlerFacts.
Import Js Async Types App.
Variable Main : Type.
Variable api : MergeApi Main.
Variable t : string -> string.

Lemma handleMergeConflicts_run result options u (m : Main) :
  handleMergeConflicts t result options (u, m) =
  (Returned tt,
   (mkUi (selectedRepo u) false (mergeWorktree u) (Some result)
         (Some (cleanup_snapshot u options)) (effects u ++ stash_toast t result),
    m)).
Proof.
  unfold handleMergeConflicts, stash_toast, bind, ui, set_ui, ret.
  cbn [fst snd].
  destruct (Nat.ltb 0 (List.length (stashedPaths result))); cbn [fst snd].
  - reflexivity.
  - now rewrite app_nil_r.
Qed.

Lemma stash_toast_not_ipc result :
  Forall (fun e => is_ipc e = false) (stash_toast t result).
Proof.
  unfold stash_toast.
  destruct (Nat.ltb 0 (List.length (stashedPaths result))); repeat constructor.
Qed.

Lemma or_else_some repo : repo <> "" -> or_else (Some repo) "" = repo.
Proof.
  intros H. unfold or_else, truthy.
  destruct (String.eqb_spec repo ""); [contradiction|reflexivity].
Qed.

Lemma truthy_some repo : repo <> "" -> truthy (Some repo) = true.
Proof.
  intros H. unfold truthy.
  destruct (String.eqb_spec repo ""); [contradiction|reflexivity].
Qed.

(** Resolving a file touches neither the stored conflicts nor the snapshot. *)
Lemma handleResolveConflict_keeps file content s :
  mergeConflicts (fst (snd (handleResolveConflict api file content s)))
    = mergeConflicts (fst s) /\
  pendingMergeOptions (fst (snd (handleResolveConflict api file content s)))
    = pendingMergeOptions (fst s).
Proof.
  unfold handleResolveConflict, bind, ui, ret, mutateAsync. cbn [fst snd].
  destruct (truthy (selectedRepo (fst s))); cbn [negb fst snd]; [|auto].
  destruct (api_resolveConflict api _ file content (snd s)) as [r m'].
  cbn [fst snd]. auto.
Qed.

(** What [handleCompleteMerge] does once a repository is selected. *)
Lemma handleCompleteMerge_run message u m repo :
  selectedRepo u = Some repo -> repo <> "" ->
  handleCompleteMerge api t message (u, m) =
  match api_continueMerge api repo message (pendingMergeOptions u) m with
  | (Threw err, m') =>
      (Threw err, (emit (IpcContinueMerge repo message (pendingMergeOptions u)) u, m'))
  | (Returned result, m') =>
      let called := emit (IpcContinueMerge repo message (pendingMergeOptions u)) u in
      if mr_success result then
        (Returned tt,
         (mkUi (selectedRepo u) (mergeDialogOpen u) (mergeWorktree u) None None
               (effects called
                  ++ (if has_warnings result
                      then [ToastAdd "warning" (t "Merge completed with warnings")
                              (join (String newline "")
                                    (match mr_warnings result with
                                     | Some ws => ws
                                     | None => []
                                     end))]
                      else [])
                  ++ [Refetch; RefetchBranches]),
          m'))
      else (Returned tt, (called, m'))
  end.
Proof.
  intros Hrepo Hne.
  unfold handleCompleteMerge, bind, ui, set_ui, ret, mutateAsync. cbn [fst snd].
  rewrite Hrepo, (truthy_some repo Hne), (or_else_some repo Hne).
  cbn [negb fst snd].
  destruct (api_continueMerge api repo message (pendingMergeOptions u) m)
    as [[result|err] m']; [|reflexivity].
  destruct (mr_success result); [|reflexivity].
  destruct (has_warnings result); cbn [fst snd];
    unfold emit, setMergeConflicts, setPendingMergeOptions;
    cbn [selectedRepo mergeDialogOpen mergeWorktree mergeConflicts
         pendingMergeOptions effects];
    rewrite ?Hrepo, <- ?app_assoc; reflexivity.
Qed.

Lemma handleCompleteMerge_idle message u m :
  truthy (selectedRepo u) = false ->
  handleCompleteMerge api t message (u, m) = (Returned tt, (u, m)).
Proof.
  intros H. unfold handleCompleteMerge, bind, ui, ret. cbn [fst snd].
  now rewrite H.
Qed.

Lemma truthy_inv o : truthy o = true -> exists repo, o = Some repo /\ repo <> "".
Proof.
  destruct o as [repo|]; [|discriminate]. unfold truthy.
  destruct (String.eqb_spec repo ""); [discriminate|]. eauto.
Qed.

(** An attempt that does not reach the success branch keeps both. *)
Lemma handleCompleteMerge_keeps message s :
  completes api message s = false ->
  mergeConflicts (fst (snd (handleCompleteMerge api t message s)))
    = mergeConflicts (fst s) /\
  pendingMergeOptions (fst (snd (handleCompleteMerge api t message s)))
    = pendingMergeOptions (fst s).
Proof.
  destruct s as [u m]. unfold completes. cbn [fst snd].
  destruct (truthy (selectedRepo u)) eqn:Hsel.
  - destruct (truthy_inv _ Hsel) as (repo & Hrepo & Hne).
    rewrite (handleCompleteMerge_run message u m repo Hrepo Hne).
    rewrite Hrepo, (or_else_some repo Hne). cbn [andb].
    destruct (api_continueMerge api repo message (pendingMergeOptions u) m)
      as [[result|err] m']; [intros ->|]; cbn [fst snd]; auto.
  - intros _. rewrite (handleCompleteMerge_idle message u m Hsel). auto.
Qed.

(** On the success branch both the stored conflicts and the snapshot go. *)
Lemma handleCompleteMerge_success_clears message s :
  completes api message s = true ->
  mergeConflicts (fst (snd (handleCompleteMerge api t message s))) = None /\
  pendingMergeOptions (fst (snd (handleCompleteMerge api t message s))) = None.
Proof.
  destruct s as [u m]. unfold completes. cbn [fst snd].
  intros [Hsel Hok]%andb_prop.
  destruct (truthy_inv _ Hsel) as (repo & Hrepo & Hne).
  rewrite (handleCompleteMerge_run message u m repo Hrepo Hne).
  rewrite Hrepo, (or_else_some repo Hne) in Hok.
  destruct (api_continueMerge api repo message (pendingMergeOptions u) m)
    as [[result|err] m']; [|discriminate].
  cbv zeta. rewrite Hok. cbn [fst snd mergeConflicts pendingMergeOptions]. auto.
Qed.

(** Aborting keeps the stored conflicts and the snapshot, or drops both. *)
Lemma handleAbortMerge_keeps_or_clears s :
  (mergeConflicts (fst (snd (handleAbortMerge api s))) = mergeConflicts (fst s) /\
   pendingMergeOptions (fst (snd (handleAbortMerge api s))) = pendingMergeOptions (fst s))
  \/
  (mergeConflicts (fst (snd (handleAbortMerge api s))) = None /\
   pendingMergeOptions (fst (snd (handleAbortMerge api s))) = None).
Proof.
  destruct s as [u m].
  unfold handleAbortMerge, bind, ui, set_ui, ret, mutateAsync. cbn [fst snd].
  destruct (truthy (selectedRepo u)); cbn [negb fst snd]; [|left; auto].
  destruct (api_abortMerge api _ m) as [[[]|err] m']; cbn [fst snd];
    [right|left]; auto.
Qed.

(** Whatever the conflict editor does, the stored conflicts and the
    snapshot are those [handleMergeConflicts] stored, or both are gone. *)
Lemma session_keeps s1 s :
  session api t s1 s ->
  (mergeConflicts (fst s) = mergeConflicts (fst s1) /\
   pendingMergeOptions (fst s) = pendingMergeOptions (fst s1))
  \/
  (mergeConflicts (fst s) = None /\ pendingMergeOptions (fst s) = None).
Proof.
  induction 1 as [s|s s' file content _ IH
                  |s s' message _ IH
                  |s s' _ IH
                  |s s' u' m' _ IH Hc Hp].
  - left. auto.
  - destruct (handleResolveConflict_keeps file content s') as [-> ->]. exact IH.
  - destruct (completes api message s') eqn:Hok.
    + right. now apply handleCompleteMerge_success_clears.
    + destruct (handleCompleteMerge_keeps message s' Hok) as [-> ->]. exact IH.
  - destruct (handleAbortMerge_keeps_or_clears s') as [[-> ->]|Hgone];
      [exact IH|right; exact Hgone].
  - cbn [fst]. rewrite Hc, Hp. exact IH.
Qed.

(** While the conflict editor is shown, the snapshot is the stored one. *)
Lemma session_snapshot s1 s snap :
  session api t s1 s ->
  pendingMergeOptions (fst s1) = Some snap ->
  editor_shown (fst s) = true ->
  pendingMergeOptions (fst s) = Some snap.
Proof.
  intros Hs Hsnap Hshown.
  destruct (session_keeps s1 s Hs) as [[_ Hp]|[Hc _]].
  - now rewrite Hp.
  - unfold editor_shown in Hshown. rewrite Hc in Hshown. discriminate.
Qed.

End HandlerFacts.

Section MergeFlow.
Import Js Async Types App.
Variable Main : Type.
Variable api : MergeApi Main.
Variable t : string -> string.

(** The first thing [handleCompleteMerge] does for a selected repository is
    the [continueMerge] call, with the stored snapshot as [cleanupOptions];
    nothing after it reaches the main process. *)
Lemma handleCompleteMerge_call message u (m : Main) repo :
  selectedRepo u = Some repo -> repo <> "" ->
  exists later,
    effects (fst (snd (handleCompleteMerge api t message (u, m))))
      = effects u ++ IpcContinueMerge repo message (pendingMergeOptions u) :: later /\
    Forall (fun e => is_ipc e = false) later.
Proof.
  intros Hrepo Hne. rewrite (handleCompleteMerge_run Main api t message u m repo Hrepo Hne).
  destruct (api_continueMerge api repo message (pendingMergeOptions u) m)
    as [[result|err] m'].
  - cbv zeta. destruct (mr_success result); cbn [fst snd effects emit].
    + destruct (has_warnings result); rewrite <- app_assoc; cbn [app];
        eexists; (split; [reflexivity|]); repeat constructor.
    + exists []. split; [reflexivity|constructor].
  - cbn [fst snd effects emit]. exists []. split; [reflexivity|constructor].
Qed.

(** C5: with no repository selected, [handleMerge] returns at once
    [{ success: false, merged: false, error: 'No repository selected' }];
    no call reaches the main process and neither the handler's state nor
    the repository behind the bridge changes. *)
Theorem handleMerge_no_repository options u (m : Main) :
  truthy (selectedRepo u) = false ->
  handleMerge api options (u, m) =
  (Returned (mkMergeResult false false None None (Some "No repository selected")
                           None None None None None),
   (u, m)).
Proof.
  intros H. unfold handleMerge, bind, ui, ret. cbn [fst snd]. now rewrite H.
Qed.

(** C3: after a conflicted merge, whatever the conflict editor has done
    since and whatever else has changed in the meantime, a
    [handleCompleteMerge] issued while the editor is shown calls
    [continueMerge] with the object stored when the conflicts were
    reported as [cleanupOptions]: [worktreePath] and the two deletion flags
    of the merge request, and as [sourceBranch] the branch of the worktree
    the merge dialog was open on at that moment.  The outcome of the
    handler is that of this call. *)
Theorem continueMerge_receives_snapshot result options u0 (m0 : Main) s message repo :
  session api t (snd (handleMergeConflicts t result options (u0, m0))) s ->
  editor_shown (fst s) = true ->
  selectedRepo (fst s) = Some repo -> repo <> "" ->
  let snap :=
    mkCleanup (Some (mo_worktreePath options))
              (Some (or_else (match mergeWorktree u0 with
                              | Some w => wt_branch w
                              | None => None
                              end) ""))
              (mo_deleteWorktreeAfterMerge options)
              (mo_deleteBranchAfterMerge options) in
  pendingMergeOptions (fst s) = Some snap /\
  handleCompleteMerge api t message s =
  match api_continueMerge api repo message (Some snap) (snd s) with
  | (Threw err, m') =>
      (Threw err, (emit (IpcContinueMerge repo message (Some snap)) (fst s), m'))
  | (Returned outcome, m') =>
      let called := emit (IpcContinueMerge repo message (Some snap)) (fst s) in
      if mr_success outcome then
        (Returned tt,
         (mkUi (selectedRepo (fst s)) (mergeDialogOpen (fst s)) (mergeWorktree (fst s))
               None None
               (effects called
                  ++ (if has_warnings outcome
                      then [ToastAdd "warning" (t "Merge completed with warnings")
                              (join (String newline "")
                                    (match mr_warnings outcome with
                                     | Some ws => ws
                                     | None => []
                                     end))]
                      else [])
                  ++ [Refetch; RefetchBranches]),
          m'))
      else (Returned tt, (called, m'))
  end.
Proof.
  intros Hsession Hshown Hrepo Hne snap.
  assert (Hp : pendingMergeOptions (fst s) = Some snap).
  { apply (session_snapshot Main api t _ s snap Hsession); [|exact Hshown].
    now rewrite (handleMergeConflicts_run Main t result options u0 m0). }
  split; [exact Hp|].
  destruct s as [u m]. cbn [fst snd] in *.
  rewrite (handleCompleteMerge_run Main api t message u m repo Hrepo Hne).
  now rewrite Hp.
Qed.

(** C9: when [continueMerge] returns a result with [success = false],
    [handleCompleteMerge] changes nothing but the record of the call just
    made: the stored conflict list and the pending snapshot are what they
    were, and the next attempt passes the same snapshot again. *)
Theorem handleCompleteMerge_failure_keeps_state message u (m : Main) repo result m' :
  selectedRepo u = Some repo -> repo <> "" ->
  api_continueMerge api repo message (pendingMergeOptions u) m = (Returned result, m') ->
  mr_success result = false ->
  handleCompleteMerge api t message (u, m) =
    (Returned tt, (emit (IpcContinueMerge repo message (pendingMergeOptions u)) u, m')) /\
  mergeConflicts (fst (snd (handleCompleteMerge api t message (u, m))))
    = mergeConflicts u /\
  pendingMergeOptions (fst (snd (handleCompleteMerge api t message (u, m))))
    = pendingMergeOptions u /\
  (forall again, exists later,
      effects (fst (snd (handleCompleteMerge api t again
                           (snd (handleCompleteMerge api t message (u, m))))))
        = effects u
            ++ IpcContinueMerge repo message (pendingMergeOptions u)
            :: IpcContinueMerge repo again (pendingMergeOptions u) :: later).
Proof.
  intros Hrepo Hne Hcall Hfail.
  rewrite (handleCompleteMerge_run Main api t message u m repo Hrepo Hne).
  rewrite Hcall. cbv zeta. rewrite Hfail. cbn [fst snd].
  repeat split.
  intros again.
  destruct (handleCompleteMerge_call again
              (emit (IpcContinueMerge repo message (pendingMergeOptions u)) u) m' repo
              Hrepo Hne) as (later & E & _).
  exists later. rewrite E. cbn [emit effects pendingMergeOptions].
  now rewrite <- app_assoc.
Qed.

End MergeFlow.

(** Nothing selected: the request never leaves the renderer. *)
Lemma handleMerge_no_repository_witness :
  App.handleMerge Scenario.engine Scenario.request (Scenario.ui_idle, 3) =
  (Async.Returned
     (Types.mkMergeResult false false None None (Some "No repository selected")
                          None None None None None),
   (Scenario.ui_idle, 3)).
Proof.
  apply (handleMerge_no_repository nat Scenario.engine Scenario.request
           Scenario.ui_idle 3).
  reflexivity.
Defined.

(** The dialog's worktree has changed since the conflicts were reported;
    the main process still receives the stored snapshot. *)
Lemma continueMerge_receives_snapshot_witness :
  snd (snd (App.handleCompleteMerge Scenario.engine_recording Scenario.tr "merge"
              (Scenario.ui_conflicted, [])))
  = [Some Scenario.snapshot].
Proof.
  destruct (continueMerge_receives_snapshot _ Scenario.engine_recording Scenario.tr
              Scenario.conflicted Scenario.request Scenario.ui0 []
              (Scenario.ui_conflicted, []) "merge" "/repo") as [_ E].
  - apply (App.session_other _ Scenario.engine_recording Scenario.tr _ _
             Scenario.ui_conflicted []
             (App.session_refl _ Scenario.engine_recording Scenario.tr _));
      reflexivity.
  - reflexivity.
  - reflexivity.
  - discriminate.
  - rewrite E. reflexivity.
Defined.

(** One file is still in conflict: the attempt fails and nothing is lost. *)
Lemma handleCompleteMerge_failure_keeps_state_witness :
  App.mergeConflicts
    (fst (snd (App.handleCompleteMerge Scenario.engine Scenario.tr "merge"
                 (Scenario.ui_conflicted, 1))))
    = Some Scenario.conflicted /\
  App.pendingMergeOptions
    (fst (snd (App.handleCompleteMerge Scenario.engine Scenario.tr "merge"
                 (Scenario.ui_conflicted, 1))))
    = Some Scenario.snapshot.
Proof.
  destruct (handleCompleteMerge_failure_keeps_state nat Scenario.engine Scenario.tr
              "merge" Scenario.ui_conflicted 1 "/repo" Scenario.still_conflicted 1
              eq_refl) as (_ & Hc & Hp & _);
    [discriminate|reflexivity|reflexivity|].
  split; [exact Hc|exact Hp].
Defined.

(** ** The merge engine behind the handlers *)

Section EngineFacts.
Import Js Async Types App MergeEngine.
Variable git : Runner.
Variable t : string -> string.

Lemma same_trees_refl w : same_trees w w.
Proof. split; reflexivity. Qed.

Lemma same_trees_trans w1 w2 w3 :
  same_trees w1 w2 -> same_trees w2 w3 -> same_trees w1 w3.
Proof. intros [E1 E2] [E3 E4]. split; congruence. Qed.

Lemma stashIfDirty_trees path w : same_trees w (snd (stashIfDirty git path w)).
Proof.
  unfold stashIfDirty. destruct (git_stash_error git path w); [apply same_trees_refl|].
  destruct (has path (dirty w)); split; reflexivity.
Qed.

Lemma popStash_trees path w : same_trees w (snd (popStash git path w)).
Proof.
  unfold popStash. destruct (has path (stashes w)); [|apply same_trees_refl].
  destruct (git_pop_conflicts git path w); split; reflexivity.
Qed.

Lemma stash_phase_trees autoStash main source w :
  same_trees w (snd (stash_phase git autoStash main source w)).
Proof.
  unfold stash_phase. destruct autoStash; [|apply same_trees_refl].
  pose proof (stashIfDirty_trees main w) as H1.
  destruct (stashIfDirty git main w) as [[ms|err] w1]; cbn [snd] in *; [|exact H1].
  pose proof (stashIfDirty_trees source w1) as H2.
  destruct (stashIfDirty git source w1) as [[ws|err] w2]; cbn [snd] in *;
    exact (same_trees_trans _ _ _ H1 H2).
Qed.

Lemma restore_trees path status w : same_trees w (snd (restore git path status w)).
Proof.
  unfold restore. destruct path as [p|]; [|apply same_trees_refl].
  destruct status; try apply same_trees_refl.
  pose proof (popStash_trees p w) as H.
  now destruct (popStash git p w) as [st w'].
Qed.

Lemma restored_trees main source ms ws w :
  same_trees w (restored git main source ms ws w).
Proof.
  unfold restored.
  exact (same_trees_trans _ _ _ (restore_trees main ms w) (restore_trees source ws _)).
Qed.

(** [complete] is where the cleanup runs, and it always reports a merge. *)
Lemma complete_run hash main source ms ws options w :
  mr_merged (fst (complete git hash main source ms ws options w)) = true /\
  mr_conflicts (fst (complete git hash main source ms ws options w)) = None /\
  snd (complete git hash main source ms ws options w)
    = snd (cleanup git options (restored git main source ms ws w)).
Proof.
  unfold complete, restored.
  destruct (restore git main ms w) as [ms' w1]. cbn [snd].
  destruct (restore git source ws w1) as [ws' w2]. cbn [snd].
  destruct (cleanup git options w2) as [warned w3]. cbn [fst snd mr_merged mr_conflicts].
  auto.
Qed.

(** A merge attempt that does not report [merged = true] has deleted
    nothing. *)
Lemma merge_unmerged_trees options w :
  mr_merged (fst (merge git options w)) = false ->
  same_trees w (snd (merge git options w)).
Proof.
  unfold merge.
  destruct (find wt_isMainWorktree (worktrees w)) as [main|];
    [|intros _; apply same_trees_refl].
  destruct (find _ (worktrees w)) as [source|]; [|intros _; apply same_trees_refl].
  destruct (targets_itself source (mo_targetBranch options));
    [intros _; apply same_trees_refl|].
  pose proof (stash_phase_trees (flag (mo_autoStash options)) (wt_path main)
                (wt_path source) w) as Hs.
  destruct (stash_phase git _ _ _ w) as [[[ms ws]|err] w1]; cbn [snd] in Hs;
    [|intros _; exact Hs].
  destruct (git_integrate git source options w1) as [hash|conflicts|err].
  - destruct (complete_run hash (Some (wt_path main)) (Some (wt_path source)) ms ws
                (Some (mkCleanup (Some (mo_worktreePath options)) (wt_branch source)
                                 (mo_deleteWorktreeAfterMerge options)
                                 (mo_deleteBranchAfterMerge options))) w1) as [-> _].
    discriminate.
  - intros _. cbn [snd]. destruct Hs as [E1 E2]. split; assumption.
  - intros _. exact Hs.
Qed.

(** A result that lists conflicts is not a merged one, and the merge is
    left in progress with these paths unresolved. *)
Lemma merge_conflicts_unmerged options w conflicts :
  mr_conflicts (fst (merge git options w)) = Some conflicts ->
  mr_merged (fst (merge git options w)) = false /\
  unresolved (snd (merge git options w)) = Some conflicts.
Proof.
  unfold merge.
  destruct (find wt_isMainWorktree (worktrees w)) as [main|]; [|discriminate].
  destruct (find _ (worktrees w)) as [source|]; [|discriminate].
  destruct (targets_itself source (mo_targetBranch options)); [discriminate|].
  destruct (stash_phase git _ _ _ w) as [[[ms ws]|err] w1]; [|discriminate].
  destruct (git_integrate git source options w1) as [hash|cs|err].
  - destruct (complete_run hash (Some (wt_path main)) (Some (wt_path source)) ms ws
                (Some (mkCleanup (Some (mo_worktreePath options)) (wt_branch source)
                                 (mo_deleteWorktreeAfterMerge options)
                                 (mo_deleteBranchAfterMerge options))) w1)
      as (_ & -> & _).
    discriminate.
  - cbn [fst snd mr_conflicts mr_merged unresolved set_unresolved].
    intros [= ->]. auto.
  - discriminate.
Qed.

(** A [continueMerge] that does not merge leaves the repository alone. *)
Lemma continueMerge_unmerged message options w :
  mr_merged (fst (continueMerge git message options w)) = false ->
  snd (continueMerge git message options w) = w.
Proof.
  unfold continueMerge.
  assert (Hcommit :
    mr_merged (fst (match git_commit git message w with
                    | Threw err => (failed err, w)
                    | Returned hash =>
                        complete git hash
                          (option_map wt_path (find wt_isMainWorktree (worktrees w)))
                          (match options with
                           | Some o => co_worktreePath o
                           | None => None
                           end)
                          (stash_status
                             (or_else (option_map wt_path
                                         (find wt_isMainWorktree (worktrees w))) "") w)
                          (stash_status
                             (or_else (match options with
                                       | Some o => co_worktreePath o
                                       | None => None
                                       end) "") w)
                          options (set_unresolved None w)
                    end)) = false ->
    snd (match git_commit git message w with
         | Threw err => (failed err, w)
         | Returned hash =>
             complete git hash
               (option_map wt_path (find wt_isMainWorktree (worktrees w)))
               (match options with
                | Some o => co_worktreePath o
                | None => None
                end)
               (stash_status
                  (or_else (option_map wt_path
                              (find wt_isMainWorktree (worktrees w))) "") w)
               (stash_status
                  (or_else (match options with
                            | Some o => co_worktreePath o
                            | None => None
                            end) "") w)
               options (set_unresolved None w)
         end) = w).
  { destruct (git_commit git message w) as [hash|err]; [|reflexivity].
    destruct (complete_run hash
                (option_map wt_path (find wt_isMainWorktree (worktrees w)))
                (match options with
                 | Some o => co_worktreePath o
                 | None => None
                 end)
                (stash_status
                   (or_else (option_map wt_path
                               (find wt_isMainWorktree (worktrees w))) "") w)
                (stash_status
                   (or_else (match options with
                             | Some o => co_worktreePath o
                             | None => None
                             end) "") w)
                options (set_unresolved None w)) as [-> _].
    discriminate. }
  destruct (unresolved w) as [[|c cs]|]; [exact Hcommit|reflexivity|exact Hcommit].
Qed.

(** A [continueMerge] that merges restores the stashes and then runs the
    cleanup with the options it was given. *)
Lemma continueMerge_merged message options w :
  mr_merged (fst (continueMerge git message options w)) = true ->
  snd (continueMerge git message options w)
    = snd (cleanup git options (before_cleanup git options w)).
Proof.
  unfold continueMerge, before_cleanup.
  destruct (unresolved w) as [[|c cs]|]; [|discriminate|];
    (destruct (git_commit git message w) as [hash|err]; [|discriminate]);
    intros _; apply complete_run.
Qed.

Lemma before_cleanup_trees options w : same_trees w (before_cleanup git options w).
Proof.
  unfold before_cleanup.
  apply (same_trees_trans _ (set_unresolved None w)); [split; reflexivity|].
  apply restored_trees.
Qed.

(** The handlers over the engine. *)
Lemma handleResolveConflict_trees file content s :
  same_trees (snd s) (snd (snd (handleResolveConflict (engine git) file content s))).
Proof.
  destruct s as [u w].
  unfold handleResolveConflict, bind, ui, ret, mutateAsync. cbn [fst snd].
  destruct (truthy (selectedRepo u)); cbn [negb fst snd];
    [split; reflexivity|apply same_trees_refl].
Qed.

Lemma handleAbortMerge_trees s :
  same_trees (snd s) (snd (snd (handleAbortMerge (engine git) s))).
Proof.
  destruct s as [u w].
  unfold handleAbortMerge, bind, ui, set_ui, ret, mutateAsync. cbn [fst snd].
  destruct (truthy (selectedRepo u)); cbn [negb fst snd];
    [split; reflexivity|apply same_trees_refl].
Qed.

Lemma engine_continueMerge workdir message options w :
  api_continueMerge (engine git) workdir message options w
  = (Returned (fst (continueMerge git message options w)),
     snd (continueMerge git message options w)).
Proof.
  cbn [engine api_continueMerge].
  now destruct (continueMerge git message options w).
Qed.

(** The repository after [handleCompleteMerge] is the one [continueMerge]
    leaves. *)
Lemma handleCompleteMerge_world message u w repo :
  selectedRepo u = Some repo -> repo <> "" ->
  snd (snd (handleCompleteMerge (engine git) t message (u, w)))
  = snd (continueMerge git message (pendingMergeOptions u) w).
Proof.
  intros Hrepo Hne.
  rewrite (handleCompleteMerge_run World (engine git) t message u w repo Hrepo Hne).
  rewrite engine_continueMerge. cbv zeta.
  now destruct (mr_success (fst (continueMerge git message (pendingMergeOptions u) w))).
Qed.

Lemma handleCompleteMerge_unmerged_trees message s :
  merges (engine git) message s = false ->
  same_trees (snd s) (snd (snd (handleCompleteMerge (engine git) t message s))).
Proof.
  destruct s as [u w]. unfold merges. cbn [fst snd].
  destruct (truthy (selectedRepo u)) eqn:Hsel.
  - destruct (truthy_inv _ Hsel) as (repo & Hrepo & Hne).
    rewrite (handleCompleteMerge_world message u w repo Hrepo Hne).
    rewrite Hrepo, (or_else_some repo Hne), engine_continueMerge. cbn [andb].
    intros Hm. rewrite (continueMerge_unmerged _ _ _ Hm). apply same_trees_refl.
  - intros _. rewrite (handleCompleteMerge_idle World (engine git) t message u w Hsel).
    apply same_trees_refl.
Qed.

(** Nothing is deleted as long as no [continueMerge] has merged. *)
Lemma unmerged_trees s1 s :
  unmerged (engine git) t s1 s -> same_trees (snd s1) (snd s).
Proof.
  induction 1 as [s|s s' file content _ IH
                  |s s' message _ IH Hm
                  |s s' _ IH
                  |s s' u' _ IH].
  - apply same_trees_refl.
  - exact (same_trees_trans _ _ _ IH (handleResolveConflict_trees file content s')).
  - exact (same_trees_trans _ _ _ IH (handleCompleteMerge_unmerged_trees message s' Hm)).
  - exact (same_trees_trans _ _ _ IH (handleAbortMerge_trees s')).
  - exact IH.
Qed.

(** What [handleMerge] returns with conflicts comes from the engine. *)
Lemma handleMerge_conflicts options u w result s0 conflicts :
  handleMerge (engine git) options (u, w) = (Returned result, s0) ->
  mr_conflicts result = Some conflicts ->
  result = fst (merge git options w) /\
  snd s0 = snd (merge git options w) /\
  mergeWorktree (fst s0) = mergeWorktree u.
Proof.
  unfold handleMerge, bind, ui, ret, mutateAsync. cbn [fst snd].
  destruct (truthy (selectedRepo u)); cbn [negb].
  - cbn [engine api_merge fst snd]. destruct (merge git options w) as [r w'].
    intros H _. injection H as <- <-.
    cbn [fst snd emit mergeWorktree]. auto.
  - intros H. injection H as <- <-. discriminate.
Qed.


End EngineFacts.


(** * Further properties *)

(** ** More on the porcelain parser *)

Section ListingFacts.
Import Js Async WorktreeService Porcelain.

Lemma parse_lines_records lines : parse_lines lines = mark_first (records lines).
Proof. reflexivity. Qed.

Lemma set_main_complete w : complete w -> complete (set_main w).
Proof.
  intros (Hp & _ & Hl & Hq). repeat split; try assumption. now exists true.
Qed.

Lemma fresh_complete p : truthy (Some p) = true -> complete (fresh p).
Proof. intros H. repeat split; [exact H|now exists false..]. Qed.

(** The record being built is complete as soon as it has a path. *)
Lemma step_complete st l :
  Forall complete (fst st) ->
  (truthy (path (snd st)) = true -> complete (snd st)) ->
  Forall complete (fst (step st l)) /\
  (truthy (path (snd (step st l))) = true -> complete (snd (step st l))).
Proof.
  destruct st as [wts c]. cbn [fst snd]. intros Hw Hc.
  assert (Hpush : Forall complete (push_current wts c)).
  { unfold push_current. destruct (truthy (path c)) eqn:E; [|assumption].
    apply Forall_app. split; [assumption|].
    apply Forall_cons; [now apply Hc|apply Forall_nil]. }
  assert (Hset : forall c',
            path c' = path c ->
            (forall b, isMainWorktree c = Some b -> exists b', isMainWorktree c' = Some b') ->
            (forall b, isLocked c = Some b -> exists b', isLocked c' = Some b') ->
            (forall b, prunable c = Some b -> exists b', prunable c' = Some b') ->
            truthy (path c') = true -> complete c').
  { intros c' Hp Hm Hl Hq Ht. rewrite Hp in Ht.
    destruct (Hc Ht) as (_ & [bm Em] & [bl El] & [bq Eq]).
    split; [now rewrite Hp|].
    repeat split; [eapply Hm|eapply Hl|eapply Hq]; eassumption. }
  unfold step.
  destruct (startsWith "worktree " l);
    [cbn [fst snd]; split; [exact Hpush|apply fresh_complete]|].
  destruct (startsWith "HEAD " l); [cbn [fst snd]; split; [assumption|apply Hset; eauto]|].
  destruct (startsWith "branch " l); [cbn [fst snd]; split; [assumption|apply Hset; eauto]|].
  destruct (l =? "bare"); [cbn [fst snd]; split; [assumption|apply Hset; cbn; eauto]|].
  destruct (l =? "locked"); [cbn [fst snd]; split; [assumption|apply Hset; cbn; eauto]|].
  destruct (l =? "prunable"); cbn [fst snd]; (split; [assumption|]);
    [apply Hset; cbn; eauto|assumption].
Qed.

Lemma loop_complete lines : forall st,
  Forall complete (fst st) ->
  (truthy (path (snd st)) = true -> complete (snd st)) ->
  Forall complete (emitted (loop lines st)).
Proof.
  induction lines as [|l ls IH]; intros st Hw Hc; cbn [loop fold_left].
  - unfold emitted, push_current. destruct (truthy (path (snd st))) eqn:E; [|assumption].
    apply Forall_app. split; [assumption|]. constructor; [now apply Hc|constructor].
  - fold (loop ls (step st l)). destruct (step_complete st l Hw Hc). now apply IH.
Qed.

(** A line the loop does not recognise changes nothing. *)
Lemma step_unrecognised st l : unrecognised l = true -> step st l = st.
Proof.
  unfold unrecognised. destruct st as [wts c]. unfold step.
  destruct (startsWith "worktree " l); [discriminate|].
  destruct (startsWith "HEAD " l); [discriminate|].
  destruct (startsWith "branch " l); [discriminate|].
  destruct (l =? "bare"); [discriminate|].
  destruct (l =? "locked"); [discriminate|].
  destruct (l =? "prunable"); [discriminate|reflexivity].
Qed.

Lemma parse_lines_drop a l b :
  step (loop a ([], empty)) l = loop a ([], empty) ->
  parse_lines (a ++ l :: b) = parse_lines (a ++ b).
Proof.
  intros H. unfold parse_lines, loop in *. rewrite !fold_left_app.
  cbn [fold_left]. now rewrite H.
Qed.

(** X1: a listing without a line that opens a record, the empty output of
    [git] among them, makes [list()] return the empty array, not an error. *)
Theorem list_without_records_is_empty (World : Type)
    (exec : list string -> World -> (string + string) * World) w w' log result :
  exec list_args w = (inr result, w') ->
  Forall (fun l => is_record_line l = false) (split newline result) ->
  list_ exec (w, log) = (Returned [], (w', log ++ [list_args])).
Proof.
  intros E Hnone. rewrite (list_returns World exec w w' log result E).
  unfold parse. rewrite <- (app_nil_r (split newline result)).
  now rewrite (parse_lines_discard _ [] Hnone).
Qed.

(** X2: every record [list()] returns has a non-empty path and its three
    flags set, so reading them needs no check; only [head] and [branch] can
    be missing. *)
Theorem list_records_complete result :
  Forall complete (parse result).
Proof.
  unfold parse, parse_lines, finish.
  fold (emitted (loop (split newline result) ([], empty))).
  assert (H : Forall complete (emitted (loop (split newline result) ([], empty)))).
  { apply loop_complete; [constructor|discriminate]. }
  destruct (emitted (loop (split newline result) ([], empty))) as [|x xs]; [constructor|].
  inversion H; subst. constructor; [now apply set_main_complete|assumption].
Qed.

(** X3: a line the parser does not recognise ([detached], a blank line,
    anything else) can stand anywhere in the listing: the result is the one
    obtained without it. *)
Theorem list_ignores_unrecognised_lines a l b :
  unrecognised l = true ->
  parse_lines (a ++ l :: b) = parse_lines (a ++ b).
Proof. intros H. apply parse_lines_drop. now apply step_unrecognised. Qed.

(** X4: [locked] and [prunable] are only recognised as whole lines: when
    [git] appends the reason, the line is ignored and the flag stays
    [false]. *)
Theorem list_ignores_flags_with_reason a reason b :
  parse_lines (a ++ ("locked " ++ reason)%string :: b) = parse_lines (a ++ b) /\
  parse_lines (a ++ ("prunable " ++ reason)%string :: b) = parse_lines (a ++ b).
Proof.
  split; apply parse_lines_drop, step_unrecognised; reflexivity.
Qed.

End ListingFacts.

(** A detached worktree: the [detached] line leaves no trace. *)
Lemma list_ignores_unrecognised_lines_witness :
  WorktreeService.parse_lines ["worktree /repo"; "HEAD 1111"; "detached"; ""]
  = WorktreeService.parse_lines ["worktree /repo"; "HEAD 1111"; ""].
Proof.
  apply (list_ignores_unrecognised_lines ["worktree /repo"; "HEAD 1111"] "detached" [""]).
  reflexivity.
Defined.

(** An empty output of [git]. *)
Lemma list_without_records_is_empty_witness :
  WorktreeService.list_ (Scenario.canned "") (tt, [])
  = (Async.Returned [], (tt, [WorktreeService.list_args])).
Proof.
  apply (list_without_records_is_empty unit (Scenario.canned "") tt tt [] "" eq_refl).
  repeat constructor.
Defined.

Section BlockFacts.
Import Js WorktreeService Porcelain.

Lemma records_open w b :
  startsWith "worktree " w = true ->
  records (w :: b) = emitted (loop b ([], fresh (substring_from 9 w))).
Proof.
  intros Hw. unfold records. cbn [loop fold_left].
  destruct (step_cases ([], empty) w) as [[_ ->]|[Hp _]]; [reflexivity|congruence].
Qed.

(** X5: records do not depend on one another: the records of a listing
    followed by further records are those of the listing followed by those
    of the rest, and [list()] marks only the very first of them as main on
    top of what [bare] lines say. *)
Theorem list_records_are_local a w b :
  startsWith "worktree " w = true ->
  records (a ++ w :: b) = records a ++ records (w :: b) /\
  parse_lines (a ++ w :: b) = mark_first (records a ++ records (w :: b)) /\
  (records a <> [] -> parse_lines (a ++ w :: b) = parse_lines a ++ records (w :: b)).
Proof.
  intros Hw.
  assert (E : records (a ++ w :: b) = records a ++ records (w :: b)).
  { rewrite (records_open w b Hw). unfold records, loop.
    rewrite fold_left_app. cbn [fold_left].
    destruct (step_cases (fold_left step a ([], empty)) w) as [[_ ->]|[Hp _]];
      [|congruence].
    apply emitted_prefix. }
  split; [exact E|]. split.
  - now rewrite parse_lines_records, E.
  - intros Hne. rewrite !parse_lines_records, E.
    destruct (records a); [contradiction|reflexivity].
Qed.

Lemma has_line_cons x l ls : has_line x (l :: ls) = (l =? x) || has_line x ls.
Proof. unfold has_line. cbn [existsb]. now rewrite String.eqb_sym. Qed.

(** What a line that does not open a record does to the three flags. *)
Lemma step_flags wts c l :
  startsWith "worktree " l = false ->
  exists c',
    step (wts, c) l = (wts, c') /\ path c' = path c /\
    isMainWorktree c' = (if l =? "bare" then Some true else isMainWorktree c) /\
    isLocked c' = (if l =? "locked" then Some true else isLocked c) /\
    prunable c' = (if l =? "prunable" then Some true else prunable c).
Proof.
  intros Hw. unfold step. rewrite Hw.
  destruct (startsWith "HEAD " l) eqn:Hh.
  { eexists. split; [reflexivity|]. cbn [path isMainWorktree isLocked prunable set_head].
    destruct (String.eqb_spec l "bare"); [subst; discriminate|].
    destruct (String.eqb_spec l "locked"); [subst; discriminate|].
    destruct (String.eqb_spec l "prunable"); [subst; discriminate|]. auto. }
  destruct (startsWith "branch " l) eqn:Hb.
  { eexists. split; [reflexivity|]. cbn [path isMainWorktree isLocked prunable set_branch].
    destruct (String.eqb_spec l "bare"); [subst; discriminate|].
    destruct (String.eqb_spec l "locked"); [subst; discriminate|].
    destruct (String.eqb_spec l "prunable"); [subst; discriminate|]. auto. }
  destruct (String.eqb_spec l "bare"); [subst; eexists; split; [reflexivity|]; cbn; auto|].
  destruct (String.eqb_spec l "locked"); [subst; eexists; split; [reflexivity|]; cbn; auto|].
  destruct (String.eqb_spec l "prunable"); [subst|]; eexists; (split; [reflexivity|]); cbn; auto.
Qed.

Lemma loop_flags attrs : forall wts c m k q,
  Forall (fun l => startsWith "worktree " l = false) attrs ->
  isMainWorktree c = Some m -> isLocked c = Some k -> prunable c = Some q ->
  exists c',
    loop attrs (wts, c) = (wts, c') /\ path c' = path c /\
    isMainWorktree c' = Some (m || has_line "bare" attrs) /\
    isLocked c' = Some (k || has_line "locked" attrs) /\
    prunable c' = Some (q || has_line "prunable" attrs).
Proof.
  induction attrs as [|l ls IH]; intros wts c m k q Hno Hm Hk Hq; cbn [loop fold_left].
  - exists c. unfold has_line. cbn [existsb]. rewrite !orb_false_r. auto.
  - inversion Hno as [|? ? Hl Hls]; subst. fold (loop ls (step (wts, c) l)).
    destruct (step_flags wts c l Hl) as (c1 & -> & Hp1 & Hm1 & Hk1 & Hq1).
    rewrite !has_line_cons.
    destruct (IH wts c1 (m || (l =? "bare")) (k || (l =? "locked")) (q || (l =? "prunable")) Hls)
      as (c' & E & Hp & Hm' & Hk' & Hq').
    + rewrite Hm1, Hm. now destruct (l =? "bare"), m.
    + rewrite Hk1, Hk. now destruct (l =? "locked"), k.
    + rewrite Hq1, Hq. now destruct (l =? "prunable"), q.
    + exists c'. rewrite E, Hm', Hk', Hq', !orb_assoc. repeat split; congruence.
Qed.

(** X6: the record of one block, a [worktree ] line with a path followed by
    lines up to the next [worktree ] line, has that path; it is locked
    exactly when the block has a line [locked], prunable exactly when it has
    a line [prunable], and (before entry 0 is marked) main exactly when it
    has a line [bare]. *)
Theorem list_block_flags w attrs :
  is_record_line w = true ->
  Forall (fun l => startsWith "worktree " l = false) attrs ->
  exists r,
    records (w :: attrs) = [r] /\
    path r = Some (substring_from 9 w) /\
    isMainWorktree r = Some (has_line "bare" attrs) /\
    isLocked r = Some (has_line "locked" attrs) /\
    prunable r = Some (has_line "prunable" attrs).
Proof.
  intros Hw Hno. pose proof (record_line_prefix w Hw) as Hp.
  rewrite (records_open w attrs Hp).
  destruct (loop_flags attrs [] (fresh (substring_from 9 w)) false false false Hno
              eq_refl eq_refl eq_refl) as (r & E & Hpath & Hm & Hk & Hq).
  exists r. rewrite E. unfold emitted, push_current. cbn [fst snd].
  rewrite Hpath. cbn [path fresh]. rewrite (record_line_truthy w Hp), Hw.
  repeat split; assumption.
Qed.

End BlockFacts.

(** A main worktree followed by a linked one. *)
Lemma list_records_are_local_witness :
  WorktreeService.parse_lines
    (["worktree /repo"; "HEAD 1111"] ++ "worktree /wt" :: ["locked"])
  = WorktreeService.parse_lines ["worktree /repo"; "HEAD 1111"]
      ++ Porcelain.records ("worktree /wt" :: ["locked"]).
Proof.
  destruct (list_records_are_local ["worktree /repo"; "HEAD 1111"] "worktree /wt"
              ["locked"] eq_refl) as (_ & _ & H).
  apply H. discriminate.
Defined.

(** A locked, prunable worktree. *)
Lemma list_block_flags_witness :
  exists r,
    Porcelain.records ["worktree /wt"; "HEAD 2222"; "locked"; "prunable"] = [r] /\
    WorktreeService.isLocked r = Some true /\
    WorktreeService.prunable r = Some true /\
    WorktreeService.isMainWorktree r = Some false.
Proof.
  destruct (list_block_flags "worktree /wt" ["HEAD 2222"; "locked"; "prunable"] eq_refl)
    as (r & E & _ & Hm & Hk & Hq); [forall_lines|].
  exists r. repeat split; assumption.
Defined.

(** ** More on [gitShowBuffer] and [gitShow] *)

Section RunFacts.
Import Js Async GitShow ProcessRun.
Variable spawnGit : string -> list string -> SpawnOptions -> Spawn.
Variable detect : Buffer -> option string.
Variable iconv_decode : Buffer -> string -> Outcome string.

Lemma gitShowBuffer_settle workdir ref events :
  spawnGit workdir ["show"; ref] (mkSpawnOptions workdir true) = Spawned events ->
  gitShowBuffer spawnGit workdir ref = settle events.
Proof. intros E. unfold gitShowBuffer. now rewrite E. Qed.

Lemma settled_with_success cs : settled_with cs (Close (Some 0%Z)) = buffer_concat cs.
Proof.
  unfold settled_with. cbn [is_failure code_nonzero Z.eqb negb orb].
  now destruct cs.
Qed.

(** Events without [close] or [error] are output chunks. *)
Lemma events_all_data evs :
  existsb is_terminal evs = false -> exists cs, evs = map StdoutData cs.
Proof.
  induction evs as [|ev evs IH]; cbn [existsb]; [now exists []|].
  destruct ev as [chunk|code|]; cbn [is_terminal orb]; try discriminate.
  intros [cs ->]%IH. now exists (chunk :: cs).
Qed.

(** X7: when [git show] exits with code 0 the buffer is the bytes written
    to stdout before [close], in order, however they were split into
    chunks.  For non-empty content [gitShow] hands them to the decoder with
    the detected encoding, or with utf-8 when detection reports none: it
    resolves to the decoded text, and is rejected when the decoder throws. *)
Theorem gitShowBuffer_success workdir ref cs rest :
  spawnGit workdir ["show"; ref] (mkSpawnOptions workdir true)
    = Spawned (map StdoutData cs ++ Close (Some 0%Z) :: rest) ->
  gitShowBuffer spawnGit workdir ref = Resolved (buffer_concat cs) /\
  (buffer_concat cs <> [] ->
   gitShow spawnGit detect iconv_decode workdir ref
   = match iconv_decode (buffer_concat cs)
             (match detect (buffer_concat cs) with
              | Some "" | None => "utf-8"
              | Some encoding => encoding
              end) with
     | Returned text => Resolved text
     | Threw err => Rejected err
     end).
Proof.
  intros E.
  assert (Hb : gitShowBuffer spawnGit workdir ref = Resolved (buffer_concat cs)).
  { rewrite (gitShowBuffer_settles spawnGit workdir ref cs _ rest E eq_refl).
    now rewrite settled_with_success. }
  split; [exact Hb|]. intros Hne. unfold gitShow. rewrite Hb. cbn [then_].
  unfold decodeBuffer, or_else, truthy.
  destruct (buffer_concat cs) as [|b bs] eqn:Ec; [contradiction|].
  cbn [List.length Nat.eqb].
  destruct (detect (b :: bs)) as [enc|]; [|reflexivity].
  destruct (String.eqb_spec enc ""); [now subst|].
  destruct enc; [contradiction|reflexivity].
Qed.

(** X8: once [spawnGit] has returned a process, the promise stays pending
    exactly as long as the process has emitted neither [close] nor
    [error]: output alone never settles it.  When [spawnGit] throws, the
    promise is rejected at once. *)
Theorem gitShowBuffer_pending_iff workdir ref :
  (forall events,
      spawnGit workdir ["show"; ref] (mkSpawnOptions workdir true) = Spawned events ->
      (gitShowBuffer spawnGit workdir ref = Pending <->
       existsb is_terminal events = false)) /\
  (forall reason,
      spawnGit workdir ["show"; ref] (mkSpawnOptions workdir true) = SpawnThrew reason ->
      gitShowBuffer spawnGit workdir ref = Rejected reason).
Proof.
  split.
  - intros events E. split.
    + intros Hp. destruct (existsb is_terminal events) eqn:Ex; [|reflexivity].
      destruct (events_until_terminal _ Ex) as (cs & t & rest & -> & Ht).
      rewrite (gitShowBuffer_settles spawnGit workdir ref cs t rest E Ht) in Hp.
      discriminate.
    + intros [cs ->]%events_all_data. unfold gitShowBuffer. rewrite E.
      now rewrite run_data.
  - intros reason E. unfold gitShowBuffer. now rewrite E.
Qed.

(** A [close] or [error] event always settles the promise. *)
Lemma dispatch_terminal_settles x t :
  is_terminal t = true -> promise (dispatch x t) <> Pending.
Proof.
  destruct t as [chunk|code|]; [discriminate| |]; intros _; cbn [dispatch];
    unfold on_close, on_error.
  - destruct (code_nonzero code || Nat.eqb (List.length (chunks x)) 0);
      cbn [promise]; destruct (promise x); discriminate.
  - cbn [promise]. destruct (promise x); discriminate.
Qed.

(** X9: the promise is settled once: whatever the process emits after a
    [close] or [error] event, a second [close] after [error] or late
    output, does not change the result. *)
Theorem gitShowBuffer_settles_once workdir ref before t after :
  spawnGit workdir ["show"; ref] (mkSpawnOptions workdir true)
    = Spawned (before ++ t :: after) ->
  is_terminal t = true ->
  gitShowBuffer spawnGit workdir ref = settle (before ++ [t]) /\
  settle (before ++ [t]) <> Pending.
Proof.
  intros E Ht. rewrite (gitShowBuffer_settle workdir ref _ E). unfold settle.
  rewrite !fold_left_app. cbn [fold_left].
  pose proof (dispatch_terminal_settles
                (fold_left dispatch before (mkExecutor [] Pending)) t Ht) as Hs.
  split; [now apply run_settled|exact Hs].
Qed.

End RunFacts.

(** Two chunks, exit code 0, and a stray event afterwards: the text is
    decoded as utf-8.  A blob detected as HZ, which the decoder does not
    know: the buffer resolves and [gitShow] is rejected. *)
Lemma gitShowBuffer_success_witness :
  GitShow.gitShowBuffer Scenario.spawn_hi "/repo" "HEAD:README.md"
    = GitShow.Resolved [Byte.x68; Byte.x69] /\
  GitShow.gitShow Scenario.spawn_hi Scenario.detect_none Scenario.decode_stub
    "/repo" "HEAD:README.md" = GitShow.Resolved "utf-8" /\
  GitShow.gitShow Scenario.spawn_hz Scenario.detect_hz Scenario.decode_no_hz
    "/repo" ":2:notes.txt"
    = GitShow.Rejected "Encoding not recognized: 'HZ-GB-2312' (searched as: 'hzgb2312')".
Proof.
  destruct (gitShowBuffer_success Scenario.spawn_hi Scenario.detect_none
              Scenario.decode_stub "/repo" "HEAD:README.md"
              [[Byte.x68]; [Byte.x69]] [GitShow.ProcError] eq_refl) as [Hb Hs].
  destruct (gitShowBuffer_success Scenario.spawn_hz Scenario.detect_hz
              Scenario.decode_no_hz "/repo" ":2:notes.txt"
              [Scenario.hz_blob] [] eq_refl) as [_ Hz].
  split; [exact Hb|]. split; [apply Hs; discriminate|apply Hz; discriminate].
Defined.

(** A process that has not closed yet, and a [spawn] that throws. *)
Lemma gitShowBuffer_pending_iff_witness :
  GitShow.gitShowBuffer Scenario.spawn_running "/repo" "HEAD:README.md"
    = GitShow.Pending /\
  GitShow.gitShowBuffer Scenario.spawn_nul "/repo" ("HEAD:a" ++ String "000" "b")
    = GitShow.Rejected "The argument 'args[1]' must be a string without null bytes".
Proof.
  destruct (gitShowBuffer_pending_iff Scenario.spawn_running "/repo" "HEAD:README.md")
    as [Hspawned _].
  destruct (gitShowBuffer_pending_iff Scenario.spawn_nul "/repo"
              ("HEAD:a" ++ String "000" "b")) as [_ Hthrew].
  split.
  - apply (Hspawned [GitShow.StdoutData [Byte.x68]] eq_refl). reflexivity.
  - apply Hthrew. reflexivity.
Defined.

(** The [error] event after [close] changes nothing. *)
Lemma gitShowBuffer_settles_once_witness :
  GitShow.gitShowBuffer Scenario.spawn_hi "/repo" "HEAD:README.md"
  = ProcessRun.settle
      [GitShow.StdoutData [Byte.x68]; GitShow.StdoutData [Byte.x69];
       GitShow.Close (Some 0%Z)].
Proof.
  apply (gitShowBuffer_settles_once Scenario.spawn_hi "/repo" "HEAD:README.md"
           [GitShow.StdoutData [Byte.x68]; GitShow.StdoutData [Byte.x69]]
           (GitShow.Close (Some 0%Z)) [GitShow.ProcError] eq_refl eq_refl).
Defined.

(** ** More on the merge handlers *)

Section AbortFacts.
Import Js Async Types App.
Variable Main : Type.
Variable api : MergeApi Main.
Variable t : string -> string.

(** What [handleAbortMerge] does once a repository is selected. *)
Lemma handleAbortMerge_run u (m : Main) repo :
  selectedRepo u = Some repo -> repo <> "" ->
  handleAbortMerge api (u, m) =
  match api_abortMerge api repo m with
  | (Returned _, m') =>
      (Returned tt,
       (mkUi (selectedRepo u) (mergeDialogOpen u) (mergeWorktree u) None None
             (effects u ++ [IpcAbortMerge repo; Refetch]), m'))
  | (Threw err, m') => (Threw err, (emit (IpcAbortMerge repo) u, m'))
  end.
Proof.
  intros Hrepo Hne.
  unfold handleAbortMerge, bind, ui, set_ui, ret, mutateAsync. cbn [fst snd].
  rewrite Hrepo, (truthy_some repo Hne), (or_else_some repo Hne).
  cbn [negb fst snd].
  destruct (api_abortMerge api repo m) as [[[]|err] m']; [|reflexivity].
  cbn [fst snd]. unfold emit, setMergeConflicts, setPendingMergeOptions.
  cbn [selectedRepo mergeDialogOpen mergeWorktree mergeConflicts
       pendingMergeOptions effects].
  now rewrite ?Hrepo, <- app_assoc.
Qed.

(** X10: [handleAbortMerge] forgets the stored conflicts and the cleanup
    snapshot only after the main process has aborted the merge: if the
    abort is rejected, the rejection reaches the caller, both are kept and
    no refetch is requested. *)
Theorem handleAbortMerge_clears_after_abort u (m : Main) repo :
  selectedRepo u = Some repo -> repo <> "" ->
  (forall m',
      api_abortMerge api repo m = (Returned tt, m') ->
      fst (handleAbortMerge api (u, m)) = Returned tt /\
      snd (snd (handleAbortMerge api (u, m))) = m' /\
      mergeConflicts (fst (snd (handleAbortMerge api (u, m)))) = None /\
      pendingMergeOptions (fst (snd (handleAbortMerge api (u, m)))) = None /\
      effects (fst (snd (handleAbortMerge api (u, m))))
        = effects u ++ [IpcAbortMerge repo; Refetch]) /\
  (forall err m',
      api_abortMerge api repo m = (Threw err, m') ->
      fst (handleAbortMerge api (u, m)) = Threw err /\
      snd (snd (handleAbortMerge api (u, m))) = m' /\
      mergeConflicts (fst (snd (handleAbortMerge api (u, m)))) = mergeConflicts u /\
      pendingMergeOptions (fst (snd (handleAbortMerge api (u, m))))
        = pendingMergeOptions u /\
      effects (fst (snd (handleAbortMerge api (u, m))))
        = effects u ++ [IpcAbortMerge repo]).
Proof.
  intros Hrepo Hne. rewrite (handleAbortMerge_run u m repo Hrepo Hne).
  split.
  - intros m' ->. cbn [fst snd mergeConflicts pendingMergeOptions effects]. auto.
  - intros err m' ->. cbn [fst snd emit mergeConflicts pendingMergeOptions effects]. auto.
Qed.

(** X11: a merge that was aborted leaves nothing behind for a later
    [continueMerge]: after the conflicts of a merge were stored and the
    merge was aborted, [handleCompleteMerge] passes no cleanup options, so
    the deletions asked for with the aborted merge cannot be carried out by
    a later call. *)
Theorem aborted_merge_leaves_no_cleanup result options u (m : Main) repo m' message :
  selectedRepo u = Some repo -> repo <> "" ->
  api_abortMerge api repo m = (Returned tt, m') ->
  let s1 := snd (handleMergeConflicts t result options (u, m)) in
  let s2 := snd (handleAbortMerge api s1) in
  pendingMergeOptions (fst s1)
    = Some (mkCleanup (Some (mo_worktreePath options))
                      (Some (or_else (match mergeWorktree u with
                                      | Some w => wt_branch w
                                      | None => None
                                      end) ""))
                      (mo_deleteWorktreeAfterMerge options)
                      (mo_deleteBranchAfterMerge options)) /\
  pendingMergeOptions (fst s2) = None /\
  mergeConflicts (fst s2) = None /\
  exists later,
    effects (fst (snd (handleCompleteMerge api t message s2)))
      = effects (fst s2) ++ IpcContinueMerge repo message None :: later.
Proof.
  intros Hrepo Hne Habort s1 s2. subst s1 s2.
  rewrite (handleMergeConflicts_run Main t result options u m). cbn [fst snd].
  split; [reflexivity|].
  match goal with
  | |- context [handleAbortMerge api (?u1, m)] =>
      rewrite (handleAbortMerge_run u1 m repo Hrepo Hne), Habort
  end.
  cbn [fst snd pendingMergeOptions mergeConflicts]. split; [reflexivity|].
  split; [reflexivity|].
  match goal with
  | |- context [handleCompleteMerge api t message (?u2, m')] =>
      destruct (handleCompleteMerge_call Main api t message u2 m' repo Hrepo Hne)
        as (later & E & _)
  end.
  exists later. exact E.
Qed.

(** X12: when the [continueMerge] call itself is rejected,
    [handleCompleteMerge] passes the rejection on and keeps the stored
    conflicts and the snapshot; nothing is refetched and no toast is shown. *)
Theorem handleCompleteMerge_rejection_keeps_state message u (m : Main) repo err m' :
  selectedRepo u = Some repo -> repo <> "" ->
  api_continueMerge api repo message (pendingMergeOptions u) m = (Threw err, m') ->
  handleCompleteMerge api t message (u, m)
    = (Threw err, (emit (IpcContinueMerge repo message (pendingMergeOptions u)) u, m')) /\
  mergeConflicts (fst (snd (handleCompleteMerge api t message (u, m))))
    = mergeConflicts u /\
  pendingMergeOptions (fst (snd (handleCompleteMerge api t message (u, m))))
    = pendingMergeOptions u.
Proof.
  intros Hrepo Hne Hcall.
  rewrite (handleCompleteMerge_run Main api t message u m repo Hrepo Hne), Hcall.
  cbn [fst snd emit mergeConflicts pendingMergeOptions]. auto.
Qed.

End AbortFacts.

(** The editor is open on the scenario's conflict and the merge is aborted. *)
Lemma handleAbortMerge_clears_after_abort_witness :
  App.mergeConflicts
    (fst (snd (App.handleAbortMerge Scenario.engine (Scenario.ui_conflicted, 1)))) = None /\
  App.pendingMergeOptions
    (fst (snd (App.handleAbortMerge Scenario.engine (Scenario.ui_conflicted, 1)))) = None.
Proof.
  destruct (handleAbortMerge_clears_after_abort nat Scenario.engine
              Scenario.ui_conflicted 1 "/repo" eq_refl) as [Hok _]; [discriminate|].
  destruct (Hok 0 eq_refl) as (_ & _ & Hc & Hp & _). split; assumption.
Defined.

(** Both deletions were requested, the merge conflicted and was aborted. *)
Lemma aborted_merge_leaves_no_cleanup_witness :
  exists later,
    App.effects
      (fst (snd (App.handleCompleteMerge Scenario.engine Scenario.tr "merge"
                   (snd (App.handleAbortMerge Scenario.engine
                           (snd (App.handleMergeConflicts Scenario.tr Scenario.conflicted
                                   Scenario.request (Scenario.ui0, 1))))))))
    = App.effects
        (fst (snd (App.handleAbortMerge Scenario.engine
                     (snd (App.handleMergeConflicts Scenario.tr Scenario.conflicted
                             Scenario.request (Scenario.ui0, 1))))))
        ++ App.IpcContinueMerge "/repo" "merge" None :: later.
Proof.
  destruct (aborted_merge_leaves_no_cleanup nat Scenario.engine Scenario.tr
              Scenario.conflicted Scenario.request Scenario.ui0 1 "/repo" 0 "merge"
              eq_refl) as (_ & _ & _ & later & E); [discriminate|reflexivity|].
  exists later. exact E.
Defined.

(** ** The editor store *)

Section StoreFacts.
Import Js JsMore EditorStore.

Lemma is_open_In p ts : is_open p ts = true <-> In p (map path ts).
Proof.
  unfold is_open. rewrite existsb_exists, in_map_iff. split.
  - intros (x & Hx & E). apply String.eqb_eq in E. eauto.
  - intros (x & E & Hx). exists x. split; [assumption|]. now apply String.eqb_eq.
Qed.

(** Rewriting the tabs of one path in place keeps the paths. *)
Lemma map_path_update p f ts :
  (forall tab, String.eqb (path tab) p = true -> path (f tab) = path tab) ->
  map path (map (fun tab => if String.eqb (path tab) p then f tab else tab) ts)
  = map path ts.
Proof.
  intros Hf. rewrite map_map. apply map_ext_in. intros tab _.
  destruct (String.eqb (path tab) p) eqn:E; [now apply Hf|reflexivity].
Qed.

Lemma update_tab_paths p f s :
  (forall tab, path (f tab) = path tab) ->
  map path (tabs (update_tab p f s)) = map path (tabs s).
Proof. intros Hf. unfold update_tab. cbn [tabs set_tabs]. now apply map_path_update. Qed.

Lemma NoDup_map_filter {A B} (g : A -> B) (q : A -> bool) xs :
  NoDup (map g xs) -> NoDup (map g (filter q xs)).
Proof.
  induction xs as [|x xs IH]; cbn [map filter]; [auto|].
  intros H. inversion H as [|? ? Hn Hd]; subst.
  destruct (q x); [|now apply IH]. cbn [map]. constructor; [|now apply IH].
  intros Hin. apply Hn. apply in_map_iff in Hin as (y & E & Hy).
  apply filter_In in Hy as [Hy _]. apply in_map_iff. eauto.
Qed.

Lemma NoDup_app_l {A} (xs ys : list A) : NoDup (xs ++ ys) -> NoDup xs.
Proof.
  induction xs as [|x xs IH]; cbn [app]; [constructor|].
  intros H. inversion H as [|? ? Hn Hd]; subst. constructor; [|now apply IH].
  intros Hin. apply Hn. apply in_or_app. now left.
Qed.

Lemma NoDup_app_r {A} (xs ys : list A) : NoDup (xs ++ ys) -> NoDup ys.
Proof.
  induction xs as [|x xs IH]; cbn [app]; [auto|].
  intros H. inversion H; subst. now apply IH.
Qed.

Lemma distinct_firstn n ts : distinct ts -> distinct (firstn n ts).
Proof.
  unfold distinct. intros H. rewrite <- (firstn_skipn n ts), map_app in H.
  now apply NoDup_app_l in H.
Qed.

Lemma distinct_skipn n ts : distinct ts -> distinct (skipn n ts).
Proof.
  unfold distinct. intros H. rewrite <- (firstn_skipn n ts), map_app in H.
  now apply NoDup_app_r in H.
Qed.

(** Taking one tab out and putting it back elsewhere permutes the tabs. *)
Lemma reorder_permutation (ts : list EditorTab) from to moved :
  nth_error ts from = Some moved ->
  let rest := firstn from ts ++ skipn (S from) ts in
  Permutation.Permutation ts (firstn to rest ++ moved :: skipn to rest).
Proof.
  intros Hn rest.
  assert (E : ts = firstn from ts ++ moved :: skipn (S from) ts).
  { clear rest. revert ts Hn. induction from as [|k IH]; intros [|x xs] Hn;
      try discriminate; cbn in *.
    - now injection Hn as ->.
    - f_equal. now apply IH. }
  rewrite E at 1.
  apply Permutation.Permutation_trans with (moved :: rest).
  - subst rest. symmetry. apply Permutation.Permutation_middle.
  - rewrite <- (firstn_skipn to rest) at 1. apply Permutation.Permutation_middle.
Qed.

Lemma reorderTabs_permutation i j s :
  Permutation.Permutation (tabs s) (tabs (reorderTabs i j s)).
Proof.
  unfold reorderTabs. destruct (i =? j)%Z; [reflexivity|].
  destruct (nth_error (tabs s) (splice_start (List.length (tabs s)) i)) as [moved|] eqn:E;
    [|reflexivity].
  cbn [tabs set_tabs]. now apply reorder_permutation.
Qed.

Lemma find_path keep ts tab :
  find (fun x => String.eqb (path x) keep) ts = Some tab ->
  path tab = keep /\ In tab ts.
Proof.
  intros H. apply find_some in H as [Hin E]. now apply String.eqb_eq in E.
Qed.

Lemma put_Forall (P : string * WorktreeEditorState -> Prop) key value states :
  P (key, value) -> Forall P states -> Forall P (put key value states).
Proof.
  intros Hv Hs. unfold put.
  destruct (existsb (fun p => String.eqb (fst p) key) states).
  - apply Forall_map. eapply Forall_impl; [|exact Hs].
    intros p Hp. now destruct (String.eqb (fst p) key).
  - apply Forall_app. split; [assumption|now constructor].
Qed.

Lemma lookup_Forall (P : string * WorktreeEditorState -> Prop) key states saved :
  Forall P states -> lookup key states = Some saved -> exists k, P (k, saved).
Proof.
  intros Hs. unfold lookup.
  destruct (find (fun p => String.eqb (fst p) key) states) as [[k v]|] eqn:E;
    [|discriminate].
  intros [= <-]. apply find_some in E as [Hin _].
  exists k. rewrite Forall_forall in Hs. now apply Hs.
Qed.

Lemma without_Forall (P : string * WorktreeEditorState -> Prop) key states :
  Forall P states -> Forall P (without key states).
Proof.
  intros Hs. unfold without. rewrite Forall_forall in *.
  intros p [Hp _]%filter_In. now apply Hs.
Qed.

(** No action of the store makes two tabs share a path. *)
Lemma act_well_formed a s : well_formed s -> well_formed (act a s).
Proof.
  intros [Ht Hs]. unfold well_formed.
  destruct a; cbn [act].
  - (* openFile *)
    unfold openFile. destruct (is_open (f_path file) (tabs s)) eqn:Eo;
      cbn [tabs worktreeStates set_tabs]; (split; [|assumption]); unfold distinct.
    + rewrite map_path_update; [assumption|].
      intros tab E. cbn [path]. symmetry. now apply String.eqb_eq.
    + rewrite map_app. cbn [map path].
      apply NoDup_Add with (a := f_path file) (l := map path (tabs s)).
      * rewrite <- (app_nil_r (map path (tabs s))) at 1. apply Add_app.
      * split; [assumption|]. intros Hin. apply is_open_In in Hin. congruence.
  - unfold closeFile. cbn [tabs worktreeStates set_tabs].
    split; [now apply NoDup_map_filter|assumption].
  - unfold closeOtherFiles.
    destruct (find (fun tab => String.eqb (path tab) keepPath) (tabs s)); [|now split].
    cbn [tabs worktreeStates set_tabs]. split; [|assumption].
    unfold distinct. cbn [map]. constructor; [intros []|constructor].
  - unfold closeFilesToLeft.
    destruct (findIndex (fun tab => String.eqb (path tab) p) (tabs s)) as [[|k]|];
      try (now split).
    cbn [tabs worktreeStates set_tabs]. split; [now apply distinct_skipn|assumption].
  - unfold closeFilesToRight.
    destruct (findIndex (fun tab => String.eqb (path tab) p) (tabs s)) as [k|];
      [|now split].
    destruct (Nat.leb (List.length (tabs s) - 1) k); [now split|].
    cbn [tabs worktreeStates set_tabs]. split; [now apply distinct_firstn|assumption].
  - unfold closeAllFiles. cbn [tabs worktreeStates]. split; [constructor|assumption].
  - now split.
  - split; [|assumption]. unfold distinct, updateFileContent.
    now rewrite update_tab_paths.
  - split; [|assumption]. unfold distinct, markFileSaved. now rewrite update_tab_paths.
  - split; [|assumption]. unfold distinct, markExternalChange.
    now rewrite update_tab_paths.
  - split; [|assumption]. unfold distinct, applyExternalChange.
    now rewrite update_tab_paths.
  - split; [|assumption]. unfold distinct, dismissExternalChange.
    now rewrite update_tab_paths.
  - split; [|assumption]. unfold distinct, setTabViewState.
    now rewrite update_tab_paths.
  - (* reorderTabs *)
    split.
    + unfold distinct. eapply Permutation.Permutation_NoDup; [|exact Ht].
      apply Permutation.Permutation_map, reorderTabs_permutation.
    + unfold reorderTabs. destruct (fromIndex =? toIndex)%Z; [assumption|].
      now destruct (nth_error (tabs s) _).
  - now split.
  - now split.
  - (* switchWorktree *)
    unfold switchWorktree. cbn [tabs worktreeStates].
    set (states := if truthy (currentWorktreePath s) then _ else _).
    assert (Hstates : Forall (fun p => distinct (ws_tabs (snd p))) states).
    { subst states. destruct (truthy (currentWorktreePath s)); [|assumption].
      now apply put_Forall. }
    split; [|assumption].
    destruct (truthy worktreePath); [|constructor].
    destruct (lookup (or_else worktreePath "") states) as [saved|] eqn:El; [|constructor].
    now destruct (lookup_Forall _ _ _ _ Hstates El) as [k Hk].
  - split; constructor.
  - unfold clearWorktreeState. cbn [tabs worktreeStates].
    split; [assumption|now apply without_Forall].
Qed.

(** X14: whatever sequence of store actions is run from the initial state,
    no two open tabs share a path, on screen and in the tabs saved for each
    worktree: [openFile] on an open path updates the tab in place. *)
Theorem store_tabs_have_distinct_paths actions :
  well_formed (run actions initial).
Proof.
  unfold run.
  assert (H : forall s, well_formed s -> well_formed (fold_left (fun st a => act a st) actions s)).
  { induction actions as [|a rest IH]; intros s Hs; cbn [fold_left]; [assumption|].
    apply IH. now apply act_well_formed. }
  apply H. split; constructor.
Qed.

End StoreFacts.

Section StoreActive.
Import Js JsMore EditorStore.

Lemma active_valid_paths ts ts' active :
  map path ts' = map path ts -> active_valid ts active -> active_valid ts' active.
Proof. unfold active_valid. intros ->. auto. Qed.

Lemma last_path_valid ts : active_valid ts (last_path ts).
Proof.
  destruct ts as [|x xs]; [exact I|]. cbn [last_path active_valid].
  apply in_map.
  induction xs as [|y ys IH]; [now left|].
  destruct ys as [|z zs]; [right; now left|].
  change (List.last (y :: z :: zs) x) with (List.last (z :: zs) x).
  destruct IH as [<-|Hin]; [now left|right; now right].
Qed.

Lemma first_path_valid ts : active_valid ts (first_path ts).
Proof. destruct ts as [|x xs]; [exact I|]. now left. Qed.

Lemma activeStillOpen_valid newTabs s :
  activeStillOpen newTabs s = true -> active_valid newTabs (activeTabPath s).
Proof.
  unfold activeStillOpen, or_else.
  destruct (truthy (activeTabPath s)) eqn:Et; [|discriminate].
  destruct (activeTabPath s) as [a|]; [|discriminate].
  intros H. now apply is_open_In.
Qed.

(** A guarded action keeps the active path on an open tab. *)
Lemma act_consistent a s : consistent s -> guarded a s -> consistent (act a s).
Proof.
  intros [Ha Hs] Hg. unfold consistent.
  destruct a; cbn [act guarded] in *.
  - unfold openFile. destruct (is_open (f_path file) (tabs s)) eqn:Eo;
      cbn [tabs activeTabPath worktreeStates set_tabs]; (split; [|assumption]);
      cbn [active_valid].
    + rewrite map_path_update; [now apply is_open_In|].
      intros tab E. cbn [path]. symmetry. now apply String.eqb_eq.
    + rewrite map_app. apply in_or_app. right. now left.
  - unfold closeFile. cbn [tabs activeTabPath worktreeStates set_tabs].
    split; [|assumption]. unfold is_active.
    destruct (activeTabPath s) as [a|]; [|exact I].
    destruct (String.eqb a p) eqn:E; [apply last_path_valid|].
    cbn [active_valid] in *. apply in_map_iff in Ha as (tab & Et & Hin).
    apply in_map_iff. exists tab. split; [assumption|].
    apply filter_In. split; [assumption|]. now rewrite Et, E.
  - unfold closeOtherFiles.
    destruct (find (fun tab => String.eqb (path tab) keepPath) (tabs s)) as [keep|] eqn:E;
      [|now split].
    cbn [tabs activeTabPath worktreeStates set_tabs]. split; [|assumption].
    destruct (find_path _ _ _ E) as [Hp _]. left. exact Hp.
  - unfold closeFilesToLeft.
    destruct (findIndex (fun tab => String.eqb (path tab) p) (tabs s)) as [[|k]|];
      try (now split).
    cbn [tabs activeTabPath worktreeStates set_tabs]. split; [|assumption].
    destruct (activeStillOpen (skipn (S k) (tabs s)) s) eqn:E;
      [now apply activeStillOpen_valid|apply first_path_valid].
  - unfold closeFilesToRight.
    destruct (findIndex (fun tab => String.eqb (path tab) p) (tabs s)) as [k|];
      [|now split].
    destruct (Nat.leb (List.length (tabs s) - 1) k); [now split|].
    cbn [tabs activeTabPath worktreeStates set_tabs]. split; [|assumption].
    destruct (activeStillOpen (firstn (k + 1) (tabs s)) s) eqn:E;
      [now apply activeStillOpen_valid|apply last_path_valid].
  - unfold closeAllFiles. cbn [tabs activeTabPath worktreeStates]. now split.
  - unfold setActiveFile. cbn [tabs activeTabPath worktreeStates set_tabs].
    split; [|assumption]. now destruct p.
  - split; [|assumption]. eapply active_valid_paths; [|exact Ha].
    unfold updateFileContent. now apply update_tab_paths.
  - split; [|assumption]. eapply active_valid_paths; [|exact Ha].
    unfold markFileSaved. now apply update_tab_paths.
  - split; [|assumption]. eapply active_valid_paths; [|exact Ha].
    unfold markExternalChange. now apply update_tab_paths.
  - split; [|assumption]. eapply active_valid_paths; [|exact Ha].
    unfold applyExternalChange. now apply update_tab_paths.
  - split; [|assumption]. eapply active_valid_paths; [|exact Ha].
    unfold dismissExternalChange. now apply update_tab_paths.
  - split; [|assumption]. eapply active_valid_paths; [|exact Ha].
    unfold setTabViewState. now apply update_tab_paths.
  - pose proof (reorderTabs_permutation fromIndex toIndex s) as Hperm.
    unfold reorderTabs in *. destruct (fromIndex =? toIndex)%Z; [now split|].
    destruct (nth_error (tabs s) _) as [moved|]; [|now split].
    cbn [tabs activeTabPath worktreeStates set_tabs] in *. split; [|assumption].
    destruct (activeTabPath s) as [a|]; [|exact I]. cbn [active_valid] in *.
    eapply Permutation_in; [|exact Ha]. now apply Permutation_map.
  - now split.
  - now split.
  - unfold switchWorktree. cbn [tabs activeTabPath worktreeStates].
    set (states := if truthy (currentWorktreePath s) then _ else _).
    assert (Hstates : Forall (fun p => active_valid (ws_tabs (snd p))
                                         (ws_activeTabPath (snd p))) states).
    { subst states. destruct (truthy (currentWorktreePath s)); [|assumption].
      now apply put_Forall. }
    split; [|assumption].
    destruct (truthy worktreePath); [|exact I].
    destruct (lookup (or_else worktreePath "") states) as [saved|] eqn:El; [|exact I].
    now destruct (lookup_Forall _ _ _ _ Hstates El) as [k Hk].
  - split; [exact I|constructor].
  - unfold clearWorktreeState. cbn [tabs activeTabPath worktreeStates].
    split; [assumption|now apply without_Forall].
Qed.

(** X15: as long as [setActiveFile] is only given [null] or the path of an
    open tab, the active path of the store is always [null] or the path of
    an open tab, through every close, reorder and worktree switch. *)
Theorem store_active_tab_is_open actions :
  all_guarded actions initial ->
  consistent (run actions initial) /\
  active_valid (tabs (run actions initial)) (activeTabPath (run actions initial)).
Proof.
  assert (H : forall s, consistent s -> all_guarded actions s -> consistent (run actions s)).
  { unfold run. induction actions as [|a rest IH]; intros s Hs Hgs; cbn [fold_left];
      [assumption|].
    destruct Hgs as [Ha Hrest]. apply IH; [now apply act_consistent|assumption]. }
  intros Hg.
  assert (Hc : consistent (run actions initial)).
  { apply H; [|assumption]. split; [exact I|constructor]. }
  split; [exact Hc|apply Hc].
Qed.

(** X16: [reorderTabs] never loses or duplicates a tab: for all indices,
    negative and out of range included, the tabs afterwards are a
    permutation of the tabs before, and the active tab stays the same. *)
Theorem reorderTabs_permutes fromIndex toIndex s :
  Permutation (tabs s) (tabs (reorderTabs fromIndex toIndex s)) /\
  List.length (tabs (reorderTabs fromIndex toIndex s)) = List.length (tabs s) /\
  activeTabPath (reorderTabs fromIndex toIndex s) = activeTabPath s /\
  ((Z.of_nat (List.length (tabs s)) <= fromIndex)%Z ->
   reorderTabs fromIndex toIndex s = s).
Proof.
  pose proof (reorderTabs_permutation fromIndex toIndex s) as Hperm.
  split; [exact Hperm|]. split; [symmetry; now apply Permutation_length|]. split.
  - unfold reorderTabs. destruct (fromIndex =? toIndex)%Z; [reflexivity|].
    now destruct (nth_error (tabs s) _).
  - intros Hout. unfold reorderTabs. destruct (fromIndex =? toIndex)%Z; [reflexivity|].
    assert (E : splice_start (List.length (tabs s)) fromIndex = List.length (tabs s)).
    { unfold splice_start. destruct (Z.ltb_spec fromIndex 0); [lia|].
      rewrite Z.min_r by lia. apply Nat2Z.id. }
    rewrite E. now rewrite (proj2 (nth_error_None (tabs s) _) (le_n _)).
Qed.

End StoreActive.

Section StoreTabs.
Import Js JsMore EditorStore.

Lemma filter_none p ts :
  ~ In p (map path ts) ->
  filter (fun tab => negb (String.eqb (path tab) p)) ts = ts.
Proof.
  induction ts as [|x xs IH]; cbn [map filter]; [reflexivity|].
  intros Hn. destruct (String.eqb_spec (path x) p) as [E|E].
  - exfalso. apply Hn. now left.
  - cbn [negb]. f_equal. apply IH. intros Hin. apply Hn. now right.
Qed.

Lemma filter_removes p ts :
  ~ In p (map path (filter (fun tab => negb (String.eqb (path tab) p)) ts)).
Proof.
  intros (tab & E & Hin)%in_map_iff. apply filter_In in Hin as [_ Hne].
  rewrite E, String.eqb_refl in Hne. discriminate.
Qed.

Lemma filter_one p ts :
  distinct ts -> In p (map path ts) ->
  S (List.length (filter (fun tab => negb (String.eqb (path tab) p)) ts))
  = List.length ts.
Proof.
  unfold distinct. induction ts as [|x xs IH]; cbn [map filter List.length]; [intros _ []|].
  intros Hd Hin. inversion Hd as [|? ? Hn Hd']; subst.
  destruct (String.eqb_spec (path x) p) as [E|E]; cbn [negb List.length].
  - subst p. now rewrite (filter_none (path x) xs Hn).
  - f_equal. apply IH; [assumption|]. destruct Hin; [contradiction|assumption].
Qed.

(** X17: [closeFile] leaves no tab with the closed path and, tabs having
    distinct paths, takes exactly one tab away when the path was open;
    closing a path that is neither open nor active changes nothing. *)
Theorem closeFile_removes_the_tab p s :
  ~ In p (map path (tabs (closeFile p s))) /\
  (distinct (tabs s) -> In p (map path (tabs s)) ->
   S (List.length (tabs (closeFile p s))) = List.length (tabs s)) /\
  (~ In p (map path (tabs s)) -> activeTabPath s <> Some p -> closeFile p s = s).
Proof.
  unfold closeFile. cbn [tabs set_tabs]. split; [apply filter_removes|]. split.
  - apply filter_one.
  - intros Hn Ha. rewrite (filter_none p (tabs s) Hn). unfold is_active.
    destruct s as [ts [a|] pc cl ws cw]; cbn in *; [|reflexivity].
    destruct (String.eqb_spec a p); [congruence|reflexivity].
Qed.

(** X18: opening a file that was not open and closing it again restores
    the tabs exactly; the active tab, however, becomes the last tab, not
    the one that was active before. *)
Theorem openFile_closeFile_restores_tabs file s :
  is_open (f_path file) (tabs s) = false ->
  tabs (closeFile (f_path file) (openFile file s)) = tabs s /\
  activeTabPath (closeFile (f_path file) (openFile file s)) = last_path (tabs s).
Proof.
  intros Hno.
  assert (Hn : ~ In (f_path file) (map path (tabs s))).
  { intros Hin. apply is_open_In in Hin. congruence. }
  unfold openFile. rewrite Hno. unfold closeFile, is_active.
  cbn [tabs activeTabPath set_tabs]. rewrite String.eqb_refl.
  rewrite filter_app. cbn [filter path]. rewrite String.eqb_refl. cbn [negb].
  rewrite app_nil_r, (filter_none _ _ Hn). auto.
Qed.

(** X19: the actions that rewrite a tab in place (content, saved and
    external-change marks, view state) keep the number, the order and the
    paths of the tabs and the active tab, and leave the tabs of every other
    path untouched. *)
Theorem editing_keeps_the_tab_strip a p s :
  edited a = Some p ->
  map path (tabs (act a s)) = map path (tabs s) /\
  activeTabPath (act a s) = activeTabPath s /\
  filter (fun tab => negb (String.eqb (path tab) p)) (tabs (act a s))
  = filter (fun tab => negb (String.eqb (path tab) p)) (tabs s).
Proof.
  assert (H : forall f,
             (forall tab, path (f tab) = path tab) ->
             map path (tabs (update_tab p f s)) = map path (tabs s) /\
             activeTabPath (update_tab p f s) = activeTabPath s /\
             filter (fun tab => negb (String.eqb (path tab) p)) (tabs (update_tab p f s))
             = filter (fun tab => negb (String.eqb (path tab) p)) (tabs s)).
  { intros f Hf. split; [now apply update_tab_paths|]. split; [reflexivity|].
    unfold update_tab. cbn [tabs set_tabs].
    induction (tabs s) as [|x xs IH]; cbn [map filter]; [reflexivity|].
    destruct (String.eqb (path x) p) eqn:E.
    - rewrite Hf, E. cbn [negb]. exact IH.
    - rewrite E. cbn [negb]. now rewrite IH. }
  destruct a; cbn [edited]; try discriminate; intros [= ->]; cbn [act];
    apply H; reflexivity.
Qed.

(** X20: a recorded external change can be taken or refused: taking it
    replaces the content by the external one and clears the dirty flag,
    refusing it keeps the content and the dirty flag; both clear the
    record, and no other tab changes. *)
Theorem external_change_apply_or_dismiss p external s :
  tabs (applyExternalChange p (markExternalChange p external s))
  = map (fun tab =>
           if String.eqb (path tab) p
           then mkTab (path tab) (title tab) external false (encoding tab)
                      (viewState tab) (isUnsupported tab) (Some false) None
           else tab) (tabs s) /\
  tabs (dismissExternalChange p (markExternalChange p external s))
  = map (fun tab =>
           if String.eqb (path tab) p
           then mkTab (path tab) (title tab) (content tab) (isDirty tab) (encoding tab)
                      (viewState tab) (isUnsupported tab) (Some false) None
           else tab) (tabs s).
Proof.
  unfold applyExternalChange, dismissExternalChange, markExternalChange, update_tab.
  cbn [tabs set_tabs]. rewrite !map_map.
  split; apply map_ext; intros tab;
    destruct (String.eqb (path tab) p) eqn:E; cbn [path]; now rewrite E.
Qed.

End StoreTabs.

(** One tab is open and active; it is closed. *)
Lemma closeFile_removes_the_tab_witness :
  S (List.length
       (EditorStore.tabs
          (EditorStore.closeFile "/repo/a.ts"
             (EditorStore.openFile
                (EditorStore.mkOpen "/repo/a.ts" "let a" false None None None None None)
                EditorStore.initial)))) = 1.
Proof.
  destruct (closeFile_removes_the_tab "/repo/a.ts"
              (EditorStore.openFile
                 (EditorStore.mkOpen "/repo/a.ts" "let a" false None None None None None)
                 EditorStore.initial)) as (_ & Hlen & _).
  apply Hlen; [repeat constructor; intros []|now left].
Defined.

(** A file is opened in the empty store and closed again. *)
Lemma openFile_closeFile_restores_tabs_witness :
  EditorStore.tabs
    (EditorStore.closeFile "/repo/a.ts"
       (EditorStore.openFile
          (EditorStore.mkOpen "/repo/a.ts" "let a" false None None None None None)
          EditorStore.initial)) = EditorStore.tabs EditorStore.initial.
Proof.
  apply (openFile_closeFile_restores_tabs
           (EditorStore.mkOpen "/repo/a.ts" "let a" false None None None None None)
           EditorStore.initial).
  reflexivity.
Defined.

(** Typing into the only tab. *)
Lemma editing_keeps_the_tab_strip_witness :
  map EditorStore.path
    (EditorStore.tabs
       (EditorStore.updateFileContent "/repo/a.ts" "let b" None
          (EditorStore.openFile
             (EditorStore.mkOpen "/repo/a.ts" "let a" false None None None None None)
             EditorStore.initial)))
  = ["/repo/a.ts"].
Proof.
  destruct (editing_keeps_the_tab_strip
              (EditorStore.UpdateFileContent "/repo/a.ts" "let b" None) "/repo/a.ts"
              (EditorStore.openFile
                 (EditorStore.mkOpen "/repo/a.ts" "let a" false None None None None None)
                 EditorStore.initial) eq_refl) as (H & _).
  exact H.
Defined.

(** Opening a file and selecting it again is guarded. *)
Lemma store_active_tab_is_open_witness :
  EditorStore.active_valid
    (EditorStore.tabs
       (EditorStore.run
          [EditorStore.OpenFile
             (EditorStore.mkOpen "/repo/a.ts" "let a" false None None None None None);
           EditorStore.SetActiveFile (Some "/repo/a.ts");
           EditorStore.CloseFile "/repo/a.ts"]
          EditorStore.initial))
    (EditorStore.activeTabPath
       (EditorStore.run
          [EditorStore.OpenFile
             (EditorStore.mkOpen "/repo/a.ts" "let a" false None None None None None);
           EditorStore.SetActiveFile (Some "/repo/a.ts");
           EditorStore.CloseFile "/repo/a.ts"]
          EditorStore.initial)).
Proof.
  apply (store_active_tab_is_open
           [EditorStore.OpenFile
              (EditorStore.mkOpen "/repo/a.ts" "let a" false None None None None None);
            EditorStore.SetActiveFile (Some "/repo/a.ts");
            EditorStore.CloseFile "/repo/a.ts"]).
  cbn. repeat split. now left.
Defined.

Section StoreWorktrees.
Import Js JsMore EditorStore.

Lemma lookup_put_eq key value states : lookup key (put key value states) = Some value.
Proof.
  unfold put, lookup.
  destruct (existsb (fun p => String.eqb (fst p) key) states) eqn:Ex.
  - induction states as [|[k v] rest IH]; [discriminate|].
    cbn [existsb map find fst] in *.
    destruct (String.eqb k key) eqn:E; cbn [fst]; [now rewrite String.eqb_refl|].
    rewrite E. apply IH. exact Ex.
  - induction states as [|[k v] rest IH]; cbn [app find fst existsb] in *.
    + now rewrite String.eqb_refl.
    + apply orb_false_elim in Ex as [E Ex]. rewrite E. now apply IH.
Qed.

Lemma lookup_put_ne key other value states :
  key <> other -> lookup other (put key value states) = lookup other states.
Proof.
  intros Hne. unfold put, lookup.
  assert (Hk : String.eqb key other = false) by now apply String.eqb_neq.
  destruct (existsb (fun p => String.eqb (fst p) key) states).
  - induction states as [|[k v] rest IH]; [reflexivity|].
    cbn [map find fst].
    destruct (String.eqb_spec k key) as [->|Hkk]; cbn [fst].
    + rewrite Hk. exact IH.
    + destruct (String.eqb k other); [reflexivity|exact IH].
  - induction states as [|[k v] rest IH]; cbn [app find fst].
    + now rewrite Hk.
    + destruct (String.eqb k other); [reflexivity|exact IH].
Qed.

Lemma lookup_without_eq key states : lookup key (without key states) = None.
Proof.
  unfold lookup, without.
  induction states as [|[k v] rest IH]; cbn [filter find fst]; [reflexivity|].
  destruct (String.eqb k key) eqn:E; cbn [negb find fst]; [exact IH|].
  now rewrite E.
Qed.

(** Actions on the tabs leave the saved worktree states alone. *)
Lemma on_tabs_keeps_worktrees a s :
  on_tabs a = true ->
  worktreeStates (act a s) = worktreeStates s /\
  currentWorktreePath (act a s) = currentWorktreePath s.
Proof.
  destruct a; cbn [on_tabs act]; try discriminate; intros _;
    try (now split).
  - unfold openFile. now destruct (is_open (f_path file) (tabs s)).
  - unfold closeOtherFiles. now destruct (find _ (tabs s)).
  - unfold closeFilesToLeft. now destruct (findIndex _ (tabs s)) as [[|k]|].
  - unfold closeFilesToRight. destruct (findIndex _ (tabs s)) as [k|]; [|now split].
    now destruct (Nat.leb (List.length (tabs s) - 1) k).
  - unfold reorderTabs. destruct (fromIndex =? toIndex)%Z; [now split|].
    now destruct (nth_error (tabs s) _).
Qed.

Lemma run_keeps_worktrees actions : forall s,
  Forall (fun a => on_tabs a = true) actions ->
  worktreeStates (run actions s) = worktreeStates s /\
  currentWorktreePath (run actions s) = currentWorktreePath s.
Proof.
  unfold run. induction actions as [|a rest IH]; intros s Hall; cbn [fold_left];
    [now split|].
  inversion Hall as [|? ? Ha Hrest]; subst.
  destruct (IH (act a s) Hrest) as [-> ->]. now apply on_tabs_keeps_worktrees.
Qed.

(** X21: the tabs of a worktree survive whatever is done in another one:
    after switching away from worktree [cur], opening, editing, closing and
    reordering tabs there and switching back, the tabs of [cur] and its
    active tab are the ones it was left with. *)
Theorem switchWorktree_restores_tabs cur other actions s :
  currentWorktreePath s = Some cur -> cur <> "" ->
  other <> Some cur ->
  Forall (fun a => on_tabs a = true) actions ->
  let back := switchWorktree (Some cur) (run actions (switchWorktree other s)) in
  tabs back = tabs s /\
  activeTabPath back = activeTabPath s /\
  currentWorktreePath back = Some cur.
Proof.
  intros Hcur Hne Hother Hall back. subst back.
  set (s1 := switchWorktree other s).
  destruct (run_keeps_worktrees actions s1 Hall) as [Hw Hc].
  assert (Hw1 : worktreeStates s1
                = put cur (mkSaved (tabs s) (activeTabPath s)) (worktreeStates s)).
  { subst s1. unfold switchWorktree. cbn [worktreeStates].
    now rewrite Hcur, (truthy_some cur Hne), (or_else_some cur Hne). }
  assert (Hc1 : currentWorktreePath s1 = other) by reflexivity.
  unfold switchWorktree at 1 2 3.
  cbn [tabs activeTabPath currentWorktreePath].
  rewrite Hw, Hc, Hw1, Hc1, (truthy_some cur Hne), (or_else_some cur Hne).
  assert (El : lookup cur
                 (if truthy other
                  then put (or_else other "")
                           (mkSaved (tabs (run actions s1)) (activeTabPath (run actions s1)))
                           (put cur (mkSaved (tabs s) (activeTabPath s)) (worktreeStates s))
                  else put cur (mkSaved (tabs s) (activeTabPath s)) (worktreeStates s))
               = Some (mkSaved (tabs s) (activeTabPath s))).
  { destruct (truthy other) eqn:Et; [|apply lookup_put_eq].
    destruct (truthy_inv other Et) as (o & -> & Ho).
    rewrite (or_else_some o Ho), lookup_put_ne; [apply lookup_put_eq|congruence]. }
  rewrite El. auto.
Qed.

(** X22: [clearWorktreeState] forgets what was saved for a worktree that is
    not the current one: switching to it afterwards shows no tab.  For the
    current worktree it forgets nothing for long: the tabs stay on screen
    and are saved again by the next switch. *)
Theorem clearWorktreeState_forgets_saved_tabs p s :
  (currentWorktreePath s <> Some p ->
   tabs (switchWorktree (Some p) (clearWorktreeState p s)) = [] /\
   activeTabPath (switchWorktree (Some p) (clearWorktreeState p s)) = None) /\
  (currentWorktreePath s = Some p -> p <> "" ->
   tabs (clearWorktreeState p s) = tabs s /\
   forall other,
     lookup p (worktreeStates (switchWorktree other (clearWorktreeState p s)))
     = Some (mkSaved (tabs s) (activeTabPath s))).
Proof.
  split.
  - intros Hcur. unfold switchWorktree, clearWorktreeState.
    cbn [tabs activeTabPath worktreeStates currentWorktreePath].
    assert (El : (if truthy (Some p)
                  then lookup (or_else (Some p) "")
                         (if truthy (currentWorktreePath s)
                          then put (or_else (currentWorktreePath s) "")
                                   (mkSaved (tabs s) (activeTabPath s))
                                   (without p (worktreeStates s))
                          else without p (worktreeStates s))
                  else None) = None).
    { destruct (truthy (Some p)) eqn:Ep; [|reflexivity].
      destruct (truthy_inv _ Ep) as (p' & [= <-] & Hp).
      rewrite (or_else_some p Hp).
      destruct (truthy (currentWorktreePath s)) eqn:Ec; [|apply lookup_without_eq].
      destruct (truthy_inv _ Ec) as (c & Hc & Hcne). rewrite Hc, (or_else_some c Hcne).
      rewrite lookup_put_ne; [apply lookup_without_eq|congruence]. }
    rewrite El. auto.
  - intros Hcur Hp. split; [reflexivity|]. intros other.
    unfold switchWorktree, clearWorktreeState.
    cbn [tabs activeTabPath worktreeStates currentWorktreePath].
    rewrite Hcur, (truthy_some p Hp), (or_else_some p Hp). apply lookup_put_eq.
Qed.

End StoreWorktrees.

(** Worktree [/repo] has a tab; a file is opened in [/repo-feature]. *)
Lemma switchWorktree_restores_tabs_witness :
  let s := EditorStore.openFile
             (EditorStore.mkOpen "/repo/a.ts" "let a" false None None None None None)
             (EditorStore.switchWorktree (Some "/repo") EditorStore.initial) in
  EditorStore.tabs
    (EditorStore.switchWorktree (Some "/repo")
       (EditorStore.run
          [EditorStore.OpenFile
             (EditorStore.mkOpen "/repo-feature/b.ts" "let b" false None None None None None)]
          (EditorStore.switchWorktree (Some "/repo-feature") s)))
  = EditorStore.tabs s.
Proof.
  intros s.
  destruct (switchWorktree_restores_tabs "/repo" (Some "/repo-feature")
              [EditorStore.OpenFile
                 (EditorStore.mkOpen "/repo-feature/b.ts" "let b" false
                    None None None None None)] s eq_refl) as (H & _);
    [discriminate|discriminate|repeat constructor|exact H].
Defined.

(** The saved tabs of [/repo] are cleared while [/repo-feature] is current. *)
Lemma clearWorktreeState_forgets_saved_tabs_witness :
  let s := EditorStore.switchWorktree (Some "/repo-feature")
             (EditorStore.openFile
                (EditorStore.mkOpen "/repo/a.ts" "let a" false None None None None None)
                (EditorStore.switchWorktree (Some "/repo") EditorStore.initial)) in
  EditorStore.tabs
    (EditorStore.switchWorktree (Some "/repo") (EditorStore.clearWorktreeState "/repo" s))
  = [].
Proof.
  intros s.
  destruct (clearWorktreeState_forgets_saved_tabs "/repo" s) as [H _].
  apply H. discriminate.
Defined.

(** The main process is down: the attempt is rejected and nothing is lost. *)
Lemma handleCompleteMerge_rejection_keeps_state_witness :
  App.pendingMergeOptions
    (fst (snd (App.handleCompleteMerge Scenario.engine_down Scenario.tr "merge"
                 (Scenario.ui_conflicted, 1))))
  = Some Scenario.snapshot.
Proof.
  destruct (handleCompleteMerge_rejection_keeps_state nat Scenario.engine_down
              Scenario.tr "merge" Scenario.ui_conflicted 1 "/repo" "ipc failed" 1
              eq_refl) as (_ & _ & Hp);
    [discriminate|reflexivity|exact Hp].
Defined.

(** ** Removing a worktree *)

Section RemovalFacts.
Import Js JsMore Async Types Removal.

(** X23: the request [handleRemoveWorktree] builds makes
    [WorktreeService.remove] force the removal of a prunable worktree
    whatever the user chose, and never delete a branch for a detached
    worktree or when no choice was passed: then the one command it runs is
    the worktree removal. *)
Theorem removal_request_commands (World : Type)
    (exec : list string -> World -> (string + string) * World)
    worktree options w log :
  (wt_prunable worktree = true ->
   WorktreeService.remove_args (remove_request worktree options)
   = ["worktree"; "remove"; "--force"; wt_path worktree]) /\
  (truthy (wt_branch worktree) = false \/ options = None ->
   snd (snd (WorktreeService.remove exec (remove_request worktree options) (w, log)))
   = log ++ [WorktreeService.remove_args (remove_request worktree options)]).
Proof.
  split.
  - intros Hp. unfold WorktreeService.remove_args, remove_request.
    cbn [WorktreeService.rm_force WorktreeService.rm_path]. now rewrite Hp.
  - intros Hno.
    assert (Hw : WorktreeService.wants_branch_delete (remove_request worktree options)
                 = false).
    { unfold WorktreeService.wants_branch_delete, remove_request.
      cbn [WorktreeService.rm_deleteBranch WorktreeService.rm_branch].
      destruct Hno as [Hb | ->]; [|reflexivity].
      rewrite Hb. cbn [truthy]. apply andb_false_r. }
    unfold WorktreeService.remove, bind, Git.raw, ret. rewrite Hw.
    destruct (exec (WorktreeService.remove_args (remove_request worktree options)) w)
      as [[err|out] w1]; reflexivity.
Qed.

Section Handler.
Variable Main : Type.
Variable api_remove :
  string -> WorktreeService.WorktreeRemoveOptions -> Main -> Outcome unit * Main.
Variable t : string -> string.

(** X24: when the main process has removed the worktree,
    [handleRemoveWorktree] clears the editor state saved for it, drops the
    selection exactly when the removed worktree was the active one,
    refetches the branches, and replaces the loading toast by a success
    toast: no loading toast stays on screen. *)
Theorem handleRemoveWorktree_success worktree options u (m : Main) repo m' :
  selectedRepo u = Some repo -> repo <> "" ->
  api_remove repo (remove_request worktree options) m = (Returned tt, m') ->
  let after := handleRemoveWorktree api_remove t worktree options (u, m) in
  let label := or_else (wt_branch worktree) (wt_path worktree) in
  snd after = m' /\
  effects (fst after)
  = effects u ++
    [ToastOpen (toasts u) "loading" (t "Deleting...") label;
     IpcRemove repo (remove_request worktree options);
     ClearEditorState (wt_path worktree);
     RefetchBranches;
     ToastClose (toasts u);
     ToastOpen (S (toasts u)) "success" (t "Worktree deleted") label] /\
  activeWorktree (fst after)
  = (if is_active u worktree then None else activeWorktree u) /\
  forall shown,
    on_screen (skipn (List.length (effects u)) (effects (fst after))) shown
    = filter (fun p => negb (Nat.eqb (fst p) (toasts u))) shown
        ++ [(S (toasts u), "success")].
Proof.
  intros Hrepo Hne Hcall after label. subst after label.
  unfold handleRemoveWorktree. rewrite Hrepo, (truthy_some repo Hne), (or_else_some repo Hne).
  cbn [negb toast_add]. unfold emit at 1. cbn [selectedRepo activeWorktree toasts effects].
  rewrite Hcall. unfold is_active, emit, toast_add, setActiveWorktree.
  cbn [selectedRepo activeWorktree toasts effects fst snd].
  assert (Hsk : forall (xs ys : list Effect), skipn (List.length xs) (xs ++ ys) = ys).
  { intros xs ys. induction xs; [reflexivity|assumption]. }
  destruct (activeWorktree u) as [a|];
    [destruct (String.eqb (wt_path a) (wt_path worktree))|];
    cbn [selectedRepo activeWorktree toasts effects fst snd];
    rewrite <- !app_assoc; cbn [app];
    (split; [reflexivity|]); (split; [reflexivity|]); (split; [reflexivity|]);
    intros shown; rewrite Hsk; cbn [on_screen];
    rewrite filter_app; cbn [filter fst]; rewrite Nat.eqb_refl; cbn [negb];
    now rewrite app_nil_r.
Qed.

(** X25: when the removal is rejected, nothing is cleared or refetched and
    the selection stays; the loading toast is replaced by an error toast
    that shows the hint to force the deletion when the message speaks of
    modified or untracked files, and the message itself otherwise. *)
Theorem handleRemoveWorktree_failure worktree options u (m : Main) repo message m' :
  selectedRepo u = Some repo -> repo <> "" ->
  api_remove repo (remove_request worktree options) m = (Threw message, m') ->
  let after := handleRemoveWorktree api_remove t worktree options (u, m) in
  snd after = m' /\
  effects (fst after)
  = effects u ++
    [ToastOpen (toasts u) "loading" (t "Deleting...")
       (or_else (wt_branch worktree) (wt_path worktree));
     IpcRemove repo (remove_request worktree options);
     ToastClose (toasts u);
     ToastOpen (S (toasts u)) "error" (t "Delete failed")
       (if includes "modified or untracked" message then t force_hint else message)] /\
  activeWorktree (fst after) = activeWorktree u.
Proof.
  intros Hrepo Hne Hcall after. subst after.
  unfold handleRemoveWorktree. rewrite Hrepo, (truthy_some repo Hne), (or_else_some repo Hne).
  cbn [negb toast_add]. unfold emit at 1. cbn [selectedRepo activeWorktree toasts effects].
  rewrite Hcall. unfold emit, toast_add.
  cbn [selectedRepo activeWorktree toasts effects fst snd].
  rewrite <- !app_assoc. cbn [app]. auto.
Qed.

End Handler.

End RemovalFacts.

(** The stale worktree of the scenario, removed without any choice. *)
Lemma removal_request_commands_witness :
  snd (snd (WorktreeService.remove Scenario.git
              (Removal.remove_request Scenario.stale_worktree None)
              (Scenario.repo0, [])))
  = [["worktree"; "remove"; "--force"; "/repo-feature"]].
Proof.
  destruct (removal_request_commands Scenario.Repo Scenario.git
              Scenario.stale_worktree None Scenario.repo0 []) as [Hforce Hone].
  rewrite (Hone (or_intror eq_refl)), (Hforce eq_refl). reflexivity.
Defined.

(** The active worktree is removed by the scenario's [git]. *)
Lemma handleRemoveWorktree_success_witness :
  Removal.activeWorktree
    (fst (Removal.handleRemoveWorktree Scenario.remove_service Scenario.tr
            Scenario.feature_worktree None (Scenario.ui_removal, (Scenario.repo0, []))))
  = None.
Proof.
  destruct (handleRemoveWorktree_success (Git.St Scenario.Repo) Scenario.remove_service
              Scenario.tr Scenario.feature_worktree None Scenario.ui_removal
              (Scenario.repo0, []) "/repo"
              (Scenario.mkRepo [] ["main"], [["worktree"; "remove"; "/repo-feature"]])
              eq_refl) as (_ & _ & Ha & _);
    [discriminate|reflexivity|exact Ha].
Defined.

(** The worktree has uncommitted changes. *)
Lemma handleRemoveWorktree_failure_witness :
  Removal.activeWorktree
    (fst (Removal.handleRemoveWorktree Scenario.refuse_dirty Scenario.tr
            Scenario.feature_worktree None (Scenario.ui_removal, tt)))
  = Some Scenario.feature_worktree.
Proof.
  destruct (handleRemoveWorktree_failure unit Scenario.refuse_dirty Scenario.tr
              Scenario.feature_worktree None Scenario.ui_removal tt "/repo"
              "fatal: '/repo-feature' contains modified or untracked files, use --force to delete it"
              tt eq_refl) as (_ & _ & Ha);
    [discriminate|reflexivity|exact Ha].
Defined.

(** ** Path segments *)

Section SegmentFacts.
Import Js JsMore.

Lemma split_by_nonempty sep s : split_by sep s <> [].
Proof.
  destruct s as [|c s]; cbn [split_by]; [discriminate|].
  destruct (sep c); [discriminate|]. destruct (split_by sep s); discriminate.
Qed.

Lemma last_cons_nonempty {A} (x : A) xs d : xs <> [] -> List.last (x :: xs) d = List.last xs d.
Proof. destruct xs; [contradiction|reflexivity]. Qed.

(** The last segment is what follows the last separator. *)
Lemma last_of_split sep s :
  exists pre,
    s = (pre ++ List.last (split_by sep s) "")%string /\
    (List.length (split_by sep s) = 1 -> pre = "") /\
    all_chars (fun c => negb (sep c)) (List.last (split_by sep s) "") = true.
Proof.
  induction s as [|c s (pre & E & Hone & Hno)]; cbn [split_by].
  - exists "". repeat split; reflexivity.
  - destruct (sep c) eqn:Ec.
    + rewrite (last_cons_nonempty _ _ _ (split_by_nonempty sep s)).
      exists (String c pre). cbn [String.append]. split; [now rewrite <- E|].
      split; [|assumption]. cbn [List.length]. intros [= Hlen].
      apply length_zero_iff_nil in Hlen. now apply split_by_nonempty in Hlen.
    + destruct (split_by sep s) as [|l ls] eqn:Es; [now apply split_by_nonempty in Es|].
      destruct ls as [|l2 ls].
      * cbn [List.last List.length] in *. specialize (Hone eq_refl). subst pre.
        cbn [String.append] in E. exists "". cbn [String.append all_chars].
        rewrite Ec, Hno. subst s. auto.
      * exists (String c pre). cbn [String.append]. split.
        { rewrite E at 1. reflexivity. }
        split; [discriminate|exact Hno].
Qed.

(** X26: the name taken from a path ([last_segment], used for a new
    repository and for the title of a tab) is a suffix of the path; unless
    it is the whole path it contains neither [/] nor [\]; and it is empty
    only for the empty path. *)
Theorem last_segment_is_a_clean_suffix p :
  (exists pre, p = (pre ++ last_segment p)%string) /\
  (last_segment p = p \/
   all_chars (fun c => negb (is_slash c)) (last_segment p) = true) /\
  (last_segment p = "" -> p = "").
Proof.
  destruct (last_of_split is_slash p) as (pre & E & _ & Hno).
  unfold last_segment.
  destruct (String.eqb_spec (List.last (split_by is_slash p) "") "") as [Hl|Hl].
  - split; [now exists ""|]. split; [now left|auto].
  - split; [now exists pre|]. split; [now right|]. intros H. contradiction.
Qed.

End SegmentFacts.

(** ** The repositories of the workspace *)

Section RepositoryFacts.
Import Js JsMore Repositories.

Lemma registered_In p rs : registered p rs = true <-> In p (map path rs).
Proof.
  unfold registered. rewrite existsb_exists, in_map_iff. split.
  - intros (r & Hr & E). apply String.eqb_eq in E. eauto.
  - intros (r & E & Hr). exists r. split; [assumption|now apply String.eqb_eq].
Qed.

Lemma NoDup_snoc {A} (xs : list A) x : NoDup xs -> ~ In x xs -> NoDup (xs ++ [x]).
Proof.
  intros Hd Hn. apply NoDup_Add with (a := x) (l := xs).
  - rewrite <- (app_nil_r xs) at 1. apply Add_app.
  - now split.
Qed.

Lemma repositories_filter_none p rs :
  ~ In p (map path rs) ->
  filter (fun r => negb (String.eqb (path r) p)) rs = rs.
Proof.
  induction rs as [|r rs IH]; cbn [map filter]; [reflexivity|].
  intros Hn. destruct (String.eqb_spec (path r) p) as [E|E].
  - exfalso. apply Hn. now left.
  - cbn [negb]. f_equal. apply IH. intros Hin. apply Hn. now right.
Qed.

(** X27: adding, cloning and removing keep the repositories of the
    workspace distinct by path; after adding or cloning, the path is
    registered and selected unless adding found it registered already, in
    which case nothing at all changes. *)
Theorem repositories_stay_distinct p group u :
  NoDup (map path (repositories u)) ->
  NoDup (map path (repositories (handleAddLocalRepository p group u))) /\
  NoDup (map path (repositories (handleCloneRepository p group u))) /\
  NoDup (map path (repositories (handleRemoveRepository p u))) /\
  In p (map path (repositories (handleAddLocalRepository p group u))) /\
  In p (map path (repositories (handleCloneRepository p group u))) /\
  selectedRepo (handleCloneRepository p group u) = Some p /\
  (registered p (repositories u) = true -> handleAddLocalRepository p group u = u) /\
  (registered p (repositories u) = false ->
   selectedRepo (handleAddLocalRepository p group u) = Some p).
Proof.
  intros Hd. unfold handleAddLocalRepository, handleCloneRepository, handleRemoveRepository.
  destruct (registered p (repositories u)) eqn:Er.
  - pose proof (proj1 (registered_In p (repositories u)) Er) as Hin.
    cbn [repositories selectedRepo]. repeat split; try assumption; try discriminate.
    destruct (is_selected u p); cbn [repositories]; now apply NoDup_map_filter.
  - assert (Hn : ~ In p (map path (repositories u))).
    { intros Hin. apply registered_In in Hin. congruence. }
    cbn [repositories selectedRepo]. rewrite !map_app. cbn [map path new_repository].
    repeat split; try (now apply NoDup_snoc); try (apply in_or_app; right; now left);
      try discriminate.
    destruct (is_selected u p); cbn [repositories]; now apply NoDup_map_filter.
Qed.

(** X28: [handleRemoveRepository] leaves no repository with the removed
    path, keeps the others in their order, and clears the selection and the
    active worktree exactly when the removed repository was the selected
    one; removing a repository right after adding it restores the list. *)
Theorem handleRemoveRepository_removes p u :
  ~ In p (map path (repositories (handleRemoveRepository p u))) /\
  repositories (handleRemoveRepository p u)
  = filter (fun r => negb (String.eqb (path r) p)) (repositories u) /\
  (selectedRepo u = Some p ->
   selectedRepo (handleRemoveRepository p u) = None /\
   activeWorktree (handleRemoveRepository p u) = None) /\
  (selectedRepo u <> Some p ->
   selectedRepo (handleRemoveRepository p u) = selectedRepo u /\
   activeWorktree (handleRemoveRepository p u) = activeWorktree u) /\
  (forall group,
      registered p (repositories u) = false ->
      repositories (handleRemoveRepository p (handleAddLocalRepository p group u))
      = repositories u).
Proof.
  assert (Hrepos : repositories (handleRemoveRepository p u)
                   = filter (fun r => negb (String.eqb (path r) p)) (repositories u)).
  { unfold handleRemoveRepository. now destruct (is_selected u p). }
  split; [|split; [exact Hrepos|split; [|split]]].
  - rewrite Hrepos. intros (r & E & Hin)%in_map_iff.
    apply filter_In in Hin as [_ Hne]. rewrite E, String.eqb_refl in Hne. discriminate.
  - intros Hs. unfold handleRemoveRepository, is_selected. rewrite Hs, String.eqb_refl.
    now split.
  - intros Hs. unfold handleRemoveRepository, is_selected.
    destruct (selectedRepo u) as [s|]; [|now split].
    destruct (String.eqb_spec s p); [congruence|now split].
  - intros group Hno.
    assert (Hn : ~ In p (map path (repositories u))).
    { intros Hin. apply registered_In in Hin. congruence. }
    unfold handleAddLocalRepository. rewrite Hno.
    unfold handleRemoveRepository, is_selected. cbn [selectedRepo repositories].
    rewrite String.eqb_refl. cbn [repositories].
    rewrite filter_app. cbn [filter path new_repository].
    rewrite String.eqb_refl. cbn [negb].
    now rewrite app_nil_r, (repositories_filter_none p _ Hn).
Qed.

Lemma backslashes_gone s :
  all_chars (fun c => negb (Ascii.eqb c "\")) (backslashes_to_slashes s) = true.
Proof.
  induction s as [|c s IH]; cbn [backslashes_to_slashes all_chars]; [reflexivity|].
  rewrite IH, andb_true_r. destruct (Ascii.eqb c "\") eqn:E; [reflexivity|].
  now rewrite E.
Qed.

Lemma all_chars_append q a b :
  all_chars q (a ++ b) = all_chars q a && all_chars q b.
Proof.
  induction a as [|c a IH]; cbn [String.append all_chars]; [reflexivity|].
  now rewrite IH, andb_assoc.
Qed.

Lemma ends_with_slash_append s : ends_with_slash (s ++ "/") = true.
Proof.
  induction s as [|c s IH]; [reflexivity|].
  cbn [String.append]. destruct s as [|d s]; [reflexivity|]. exact IH.
Qed.

(** X29: the displayed temporary base path of a non-empty base path always
    ends with [/] and contains no backslash; the empty base path is
    displayed as the empty string. *)
Theorem tempBasePathDisplay_is_normalised base :
  tempBasePathDisplay "" = "" /\
  (base <> "" ->
   ends_with_slash (tempBasePathDisplay base) = true /\
   all_chars (fun c => negb (Ascii.eqb c "\")) (tempBasePathDisplay base) = true).
Proof.
  split; [reflexivity|]. intros Hne. unfold tempBasePathDisplay.
  destruct (String.eqb_spec base ""); [contradiction|].
  pose proof (backslashes_gone base) as Hb.
  set (d := backslashes_to_slashes base) in *.
  assert (Hd : all_chars (fun c => negb (Ascii.eqb c "\"))
                 (if String.prefix "/" d then substring_from 1 d else d) = true).
  { destruct (String.prefix "/" d); [|assumption].
    destruct d as [|c d']; [reflexivity|]. cbn [substring_from].
    cbn [all_chars] in Hb. now apply andb_prop in Hb as [_ Hb]. }
  set (d1 := if String.prefix "/" d then substring_from 1 d else d) in *.
  destruct (ends_with_slash d1) eqn:Ee; cbn [negb].
  - now split.
  - split; [apply ends_with_slash_append|].
    now rewrite all_chars_append, Hd.
Qed.

End RepositoryFacts.

(** A second repository joins the scenario's workspace. *)
Lemma repositories_stay_distinct_witness :
  NoDup (map Repositories.path
           (Repositories.repositories
              (Repositories.handleAddLocalRepository "/home/me/other" None
                 Scenario.workspace))).
Proof.
  destruct (repositories_stay_distinct "/home/me/other" None Scenario.workspace)
    as (H & _).
  - repeat constructor. intros [].
  - exact H.
Defined.

(** A repository is added to the scenario's workspace and removed again. *)
Lemma handleRemoveRepository_removes_witness :
  Repositories.repositories
    (Repositories.handleRemoveRepository "/home/me/other"
       (Repositories.handleAddLocalRepository "/home/me/other" None Scenario.workspace))
  = Repositories.repositories Scenario.workspace.
Proof.
  destruct (handleRemoveRepository_removes "/home/me/other" Scenario.workspace)
    as (_ & _ & _ & _ & H).
  apply (H None). reflexivity.
Defined.

(** A Windows base path. *)
Lemma tempBasePathDisplay_is_normalised_witness :
  JsMore.ends_with_slash (Repositories.tempBasePathDisplay "C:\Users\me\ensoai") = true.
Proof.
  destruct (tempBasePathDisplay_is_normalised "C:\Users\me\ensoai") as (_ & H).
  apply H. discriminate.
Defined.

(** A path that ends with a separator still has a name. *)
Lemma last_segment_is_a_clean_suffix_witness :
  JsMore.last_segment "/" <> "".
Proof.
  destruct (last_segment_is_a_clean_suffix "/") as (_ & _ & H).
  intros E. specialize (H E). discriminate H.
Defined.

(** ** The editor hook *)

Section HookFacts.
Import Js Async EditorStore UseEditor.
Variable Files : Type.
Variable file_read : string -> Files -> Outcome string * Files.
Variable file_write : string -> string -> Files -> Outcome unit * Files.

Lemma markFileSaved_clean p s :
  Forall (fun tab => path tab = p -> isDirty tab = false) (tabs (markFileSaved p s)).
Proof.
  unfold markFileSaved, update_tab. cbn [tabs set_tabs].
  apply Forall_map, Forall_forall. intros tab _.
  destruct (String.eqb_spec (path tab) p); [reflexivity|]. intros E. contradiction.
Qed.

(** X30: [saveFile] writes the content of the open tab and only then marks
    it saved: for a path with no open tab it throws [File not found] and
    writes nothing; when the write is rejected the tabs are left as they
    were, dirty flag included, and the rejection is passed on. *)
Theorem saveFile_writes_then_marks p s (files : Files) :
  (find (fun f => String.eqb (path f) p) (tabs s) = None ->
   saveFile file_write p (s, files) = (Threw "File not found", (s, files))) /\
  (forall file,
      find (fun f => String.eqb (path f) p) (tabs s) = Some file ->
      (forall files',
          file_write p (content file) files = (Returned tt, files') ->
          saveFile file_write p (s, files) = (Returned tt, (markFileSaved p s, files')) /\
          Forall (fun tab => path tab = p -> isDirty tab = false)
                 (tabs (markFileSaved p s))) /\
      (forall err files',
          file_write p (content file) files = (Threw err, files') ->
          saveFile file_write p (s, files) = (Threw err, (s, files')))).
Proof.
  split.
  - intros Hno. unfold saveFile, bind, store, throw. cbn [fst snd]. now rewrite Hno.
  - intros file Hf. split.
    + intros files' Hw. split; [|apply markFileSaved_clean].
      unfold saveFile, bind, store, write, dispatch. cbn [fst snd].
      rewrite Hf. cbn [fst snd]. now rewrite Hw.
    + intros err files' Hw.
      unfold saveFile, bind, store, write, dispatch. cbn [fst snd].
      rewrite Hf. cbn [fst snd]. now rewrite Hw.
Qed.

(** X13: [navigateToFile] decides by the tabs [seen] by the render that
    created it.  A file with a tab among them is not read: it becomes the
    active tab and the tabs of the store stay as they are; so a callback
    of the latest render never reloads an open file.  A file with no tab
    among them is read: when it cannot be read the store is left untouched
    and no cursor is placed; when it is read it is opened in the store as
    it is by then, appended as a clean tab if the store has no tab for it,
    and if the store has one, opened since that render, this tab takes the
    text read and is marked clean, whatever unsaved text it held.  Past
    the read the file is the active tab and the cursor is placed if a line
    was given. *)
Theorem navigateToFile_opens_or_leaves seen p line column matchLength s (files : Files) :
  (forall tab,
      find (fun f => String.eqb (path f) p) seen = Some tab ->
      navigateToFile file_read seen p line column matchLength (s, files)
      = (Returned tt,
         (mkState (tabs s) (Some p)
                  (match line with
                   | Some l => Some (mkCursor p l column matchLength None)
                   | None => pendingCursor s
                   end)
                  (currentCursorLine s) (worktreeStates s) (currentWorktreePath s),
          files))) /\
  (find (fun f => String.eqb (path f) p) seen = None ->
   (forall err files',
       file_read p files = (Threw err, files') ->
       navigateToFile file_read seen p line column matchLength (s, files)
       = (Returned tt, (s, files'))) /\
   (forall text files',
       file_read p files = (Returned text, files') ->
       navigateToFile file_read seen p line column matchLength (s, files)
       = (Returned tt,
          (mkState (if is_open p (tabs s)
                    then map (fun tab =>
                                if String.eqb (path tab) p
                                then mkTab p (title tab) text false (encoding tab)
                                           (viewState tab) (isUnsupported tab)
                                           (Some false) None
                                else tab)
                             (tabs s)
                    else tabs s
                         ++ [mkTab p (getTabTitle p) text false None None None None None])
                   (Some p)
                   (match line with
                    | Some l => Some (mkCursor p l column matchLength None)
                    | None => pendingCursor s
                    end)
                   (currentCursorLine s) (worktreeStates s) (currentWorktreePath s),
           files')))).
Proof.
  split.
  - intros tab Hf. unfold navigateToFile, bind, dispatch, place_cursor, ret.
    rewrite Hf. cbn [fst snd act].
    destruct line; reflexivity.
  - intros Hno. split.
    + intros err files' Hr. unfold navigateToFile, bind, read.
      rewrite Hno. cbn [fst snd]. now rewrite Hr.
    + intros text files' Hr.
      unfold navigateToFile, bind, read, dispatch, place_cursor, ret.
      rewrite Hno. cbn [fst snd]. rewrite Hr. cbn [fst snd act].
      unfold openFile. cbn [f_path].
      destruct (is_open p (tabs s)); destruct line; reflexivity.
Qed.

End HookFacts.

(** The tab of the scenario has unsaved text; it is saved to the disk. *)
Lemma saveFile_writes_then_marks_witness :
  UseEditor.saveFile Scenario.disk_write "/repo/a.ts" (Scenario.editing, [])
  = (Async.Returned tt,
     (EditorStore.markFileSaved "/repo/a.ts" Scenario.editing,
      [("/repo/a.ts", "let b")])).
Proof.
  destruct (saveFile_writes_then_marks (list (string * string)) Scenario.disk_write
              "/repo/a.ts" Scenario.editing []) as [_ Hopen].
  destruct (Hopen _ eq_refl) as [Hok _].
  now destruct (Hok [("/repo/a.ts", "let b")] eq_refl) as [H _].
Defined.

(** The open tab holds unsaved text.  The callback of the latest render
    keeps it; a callback left over from the render before the file was
    opened reads the file again and puts the text on disk in its place. *)
Lemma navigateToFile_opens_or_leaves_witness :
  map EditorStore.content
    (EditorStore.tabs
       (fst (snd (UseEditor.navigateToFile Scenario.disk_read
                    (EditorStore.tabs Scenario.editing) "/repo/a.ts"
                    (Some 3%Z) None None (Scenario.editing, [])))))
  = ["let b"] /\
  map EditorStore.content
    (EditorStore.tabs
       (fst (snd (UseEditor.navigateToFile Scenario.disk_read [] "/repo/a.ts"
                    (Some 3%Z) None None (Scenario.editing, [])))))
  = ["let a"].
Proof.
  split.
  - destruct (navigateToFile_opens_or_leaves (list (string * string)) Scenario.disk_read
                (EditorStore.tabs Scenario.editing)
                "/repo/a.ts" (Some 3%Z) None None Scenario.editing []) as [Hopen _].
    now rewrite (Hopen _ eq_refl).
  - destruct (navigateToFile_opens_or_leaves (list (string * string)) Scenario.disk_read
                [] "/repo/a.ts" (Some 3%Z) None None Scenario.editing []) as [_ Hread].
    destruct (Hread eq_refl) as [_ Hok].
    now rewrite (Hok "let a" [] eq_refl).
Defined.

(** Three tabs, the last one active: the last tab is dragged to the front
    with a negative index, the first is dropped far past the end, and a
    drag from an index past the end changes nothing. *)
Lemma reorderTabs_permutes_witness :
  map EditorStore.path
      (EditorStore.tabs (EditorStore.reorderTabs (-1) 0 Scenario.three_tabs))
  = ["/repo/c.ts"; "/repo/a.ts"; "/repo/b.ts"] /\
  Permutation (EditorStore.tabs Scenario.three_tabs)
              (EditorStore.tabs (EditorStore.reorderTabs (-1) 0 Scenario.three_tabs)) /\
  map EditorStore.path
      (EditorStore.tabs (EditorStore.reorderTabs 0 99 Scenario.three_tabs))
  = ["/repo/b.ts"; "/repo/c.ts"; "/repo/a.ts"] /\
  Permutation (EditorStore.tabs Scenario.three_tabs)
              (EditorStore.tabs (EditorStore.reorderTabs 0 99 Scenario.three_tabs)) /\
  EditorStore.activeTabPath (EditorStore.reorderTabs 0 99 Scenario.three_tabs)
  = Some "/repo/c.ts" /\
  EditorStore.reorderTabs 3 0 Scenario.three_tabs = Scenario.three_tabs.
Proof.
  destruct (reorderTabs_permutes (-1) 0 Scenario.three_tabs) as (Hfront & _ & _ & _).
  destruct (reorderTabs_permutes 0 99 Scenario.three_tabs) as (Hend & _ & Hactive & _).
  destruct (reorderTabs_permutes 3 0 Scenario.three_tabs) as (_ & _ & _ & Hout).
  split; [reflexivity|]. split; [exact Hfront|].
  split; [reflexivity|]. split; [exact Hend|].
  split; [exact Hactive|].
  apply Hout. cbn. lia.
Defined.
